(** * easytpl: the placeholder-tag transpiler and its render adapters

    A shallow embedding of [easytpl.go] (the regexp-driven implementation,
    the one the package currently ships) and the properties its
    specification states about it.

    Go strings are byte sequences: they are modelled as [list ascii].
    Maps ([map[string][]string], [map[string]Keys]) are stdpp [gmap]s; the
    maps the capabilities hand out, which the resolver writes into, are
    references into a store.  A run-time panic of the Go code (slicing
    [s[0:1]] of an empty string) is modelled by [None]. *)

From Stdlib Require Import Ascii String List Bool Arith Lia.
From stdpp Require Import base option list gmap.
Import ListNotations.

Local Open Scope nat_scope.
Local Open Scope list_scope.

Abbreviation bytes := (list ascii).

(** A Go string literal. *)
Definition lit (s : string) : bytes := list_ascii_of_string s.

(** The double quote, written by its code point. *)
Definition dq : ascii := "034"%char.
Definition nl : ascii := "010"%char.
Definition backslash : ascii := "092"%char.

Definition byte_eqb (a b : ascii) : bool := Ascii.eqb a b.

Fixpoint bytes_eqb (x y : bytes) : bool :=
  match x, y with
  | [], [] => true
  | a :: x', c :: y' => byte_eqb a c && bytes_eqb x' y'
  | _, _ => false
  end.

(** ** Regular expressions with Go's leftmost-first semantics

    Package [regexp] returns, among the matches that start leftmost, the one
    a backtracking matcher finds first.  The matcher below is that
    backtracking matcher, in continuation-passing style, over bytes.  The
    patterns of this package only use ASCII delimiters around [.] and
    character classes, so matching on bytes and matching on UTF-8 runes
    select the same spans. *)

Inductive regex : Type :=
| Eps
| Chr (p : ascii -> bool)
| Seq (r1 r2 : regex)
| Alt (r1 r2 : regex)
| Star (greedy : bool) (r : regex)
| Group (n : nat) (r : regex).

(** [x+] is [x x*]; [x?] prefers to take [x]. *)
Definition Plus (greedy : bool) (r : regex) : regex := Seq r (Star greedy r).
Definition Opt (r : regex) : regex := Alt r Eps.

Fixpoint Lit (l : bytes) : regex :=
  match l with
  | [] => Eps
  | c :: l' => Seq (Chr (byte_eqb c)) (Lit l')
  end.

(** [.] without the [s] flag: anything but a line feed. *)
Definition Dot : regex := Chr (fun c => negb (byte_eqb c nl)).

(** Perl class [\s] as RE2 and Go define it: [[\t\n\f\r ]]. *)
Definition is_re_space (c : ascii) : bool :=
  let n := nat_of_ascii c in
  (n =? 9) || (n =? 10) || (n =? 12) || (n =? 13) || (n =? 32).

Definition is_lower (c : ascii) : bool :=
  let n := nat_of_ascii c in (97 <=? n) && (n <=? 122).
Definition is_upper (c : ascii) : bool :=
  let n := nat_of_ascii c in (65 <=? n) && (n <=? 90).

Definition to_upper_byte (c : ascii) : ascii :=
  if is_lower c then ascii_of_nat (nat_of_ascii c - 32) else c.
Definition to_lower_byte (c : ascii) : ascii :=
  if is_upper c then ascii_of_nat (nat_of_ascii c + 32) else c.

Definition fold_eqb (c d : ascii) : bool :=
  byte_eqb (to_lower_byte c) (to_lower_byte d).

(** One literal character under the [(?i)] flag.  Go folds with Unicode
    simple folding: besides the two ASCII cases, [k] also matches the
    Kelvin sign U+212A (bytes E2 84 AA) and [s] the long s U+017F
    (bytes C5 BF). *)
Definition FoldChr (c : ascii) : regex :=
  if byte_eqb (to_lower_byte c) "k"%char then
    Alt (Chr (fold_eqb c)) (Lit ["226"; "132"; "170"]%char)
  else if byte_eqb (to_lower_byte c) "s"%char then
    Alt (Chr (fold_eqb c)) (Lit ["197"; "191"]%char)
  else Chr (fold_eqb c).

Fixpoint LitFold (l : bytes) : regex :=
  match l with
  | [] => Eps
  | c :: l' => Seq (FoldChr c) (LitFold l')
  end.

(** Capture registers, most recent first. *)
Definition caps := list (nat * bytes).

Fixpoint cap_get (n : nat) (cs : caps) : bytes :=
  match cs with
  | [] => []
  | (m, v) :: cs' => if Nat.eqb n m then v else cap_get n cs'
  end.

Section Backtrack.
Context {R : Type}.

(** The loop of [r*] and [r*?]: [step] matches [r] once.  An iteration
    that consumes nothing is not repeated. *)
Fixpoint star_loop (step : bytes -> caps -> (bytes -> caps -> option R) -> option R)
    (greedy : bool) (k : bytes -> caps -> option R)
    (fuel : nat) (inp : bytes) (cs : caps) {struct fuel} : option R :=
  let again :=
    match fuel with
    | 0 => None
    | S fuel' =>
        step inp cs (fun rest cs' =>
          if length rest <? length inp
          then star_loop step greedy k fuel' rest cs'
          else None)
    end in
  if greedy then
    match again with Some x => Some x | None => k inp cs end
  else
    match k inp cs with Some x => Some x | None => again end.

Fixpoint run (r : regex) (inp : bytes) (cs : caps)
    (k : bytes -> caps -> option R) {struct r} : option R :=
  match r with
  | Eps => k inp cs
  | Chr p =>
      match inp with
      | c :: t => if p c then k t cs else None
      | [] => None
      end
  | Seq r1 r2 => run r1 inp cs (fun rest cs' => run r2 rest cs' k)
  | Alt r1 r2 =>
      match run r1 inp cs k with
      | Some x => Some x
      | None => run r2 inp cs k
      end
  | Star greedy r1 => star_loop (run r1) greedy k (length inp) inp cs
  | Group n r1 =>
      run r1 inp cs (fun rest cs' =>
        k rest ((n, firstn (length inp - length rest) inp) :: cs'))
  end.
End Backtrack.

(** A match anchored at the start of [inp]: what is left, and the captures. *)
Definition match_here (r : regex) (inp : bytes) : option (bytes * caps) :=
  run r inp [] (fun rest cs => Some (rest, cs)).

(** A found match: its span in the searched string and the submatches,
    [f_sub] holding the whole match and then the groups [1..n]. *)
Record found : Type := Found { f_start : nat; f_end : nat; f_sub : list bytes }.

Definition submatches (ngroups : nat) (whole : bytes) (cs : caps) : list bytes :=
  whole :: map (fun n => cap_get n cs) (seq 1 ngroups).

Fixpoint find_from (r : regex) (ngroups : nat) (pos : nat) (inp : bytes) : option found :=
  match match_here r inp with
  | Some (rest, cs) =>
      let len := length inp - length rest in
      Some (Found pos (pos + len) (submatches ngroups (firstn len inp) cs))
  | None =>
      match inp with
      | [] => None
      | _ :: t => find_from r ngroups (S pos) t
      end
  end.

(** A compiled pattern: the expression and its number of groups. *)
Record Regexp : Type := MustCompile { re_expr : regex; re_groups : nat }.

Definition find (re : Regexp) (s : bytes) : option found :=
  find_from (re_expr re) (re_groups re) 0 s.

Definition FindStringIndex (re : Regexp) (s : bytes) : option (nat * nat) :=
  match find re s with
  | Some f => Some (f_start f, f_end f)
  | None => None
  end.

Definition FindStringSubmatch (re : Regexp) (s : bytes) : list bytes :=
  match find re s with
  | Some f => f_sub f
  | None => []
  end.

(** ** Scanning a string for all matches

    [ReplaceAllStringFunc] and [FindAllStringSubmatch] walk the string from
    left to right, each search resuming where the previous match ended.
    [segments] is that walk: the unmatched text and the matches, in order.
    Every pattern of this package has a mandatory delimiter, so a match is
    never empty and Go's special step after an empty match never runs; the
    walk below stops if it meets one. *)

Inductive segment : Type :=
| Gap (t : bytes)
| Tag (sub : list bytes).

Fixpoint segments_fuel (fuel : nat) (re : Regexp) (s : bytes) : list segment :=
  match find re s with
  | None => [Gap s]
  | Some f =>
      match fuel with
      | 0 => [Gap s]
      | S fuel' =>
          if f_end f =? 0 then [Gap s]
          else Gap (firstn (f_start f) s) :: Tag (f_sub f)
                 :: segments_fuel fuel' re (skipn (f_end f) s)
      end
  end.

Definition segments (re : Regexp) (s : bytes) : list segment :=
  segments_fuel (length s) re s.

(** The text of a match: element 0 of its submatches. *)
Definition whole (sub : list bytes) : bytes := hd [] sub.

(** [re.ReplaceAllStringFunc(s, f)]: the unmatched text is copied, each
    match is replaced by what [f] returns for it. *)
Definition replace_pure (f : bytes -> bytes) (segs : list segment) : bytes :=
  flat_map (fun sg => match sg with Gap t => t | Tag sub => f (whole sub) end) segs.

Definition ReplaceAllStringFunc (re : Regexp) (s : bytes) (f : bytes -> bytes) : bytes :=
  replace_pure f (segments re s).

(** [re.ReplaceAllString(s, repl)] for a replacement without [$] references. *)
Definition ReplaceAllString (re : Regexp) (s : bytes) (repl : bytes) : bytes :=
  ReplaceAllStringFunc re s (fun _ => repl).

(** [re.FindAllStringSubmatch(s, -1)]. *)
Definition FindAllStringSubmatch (re : Regexp) (s : bytes) : list (list bytes) :=
  flat_map (fun sg => match sg with Gap _ => [] | Tag sub => [sub] end)
           (segments re s).

(** ** Package [strings] *)

Definition Contains_byte (s : bytes) (c : ascii) : bool := existsb (byte_eqb c) s.

Fixpoint has_prefix (p s : bytes) : bool :=
  match p, s with
  | [], _ => true
  | a :: p', c :: s' => byte_eqb a c && has_prefix p' s'
  | _ :: _, [] => false
  end.

(** [strings.Contains(s, sub)]. *)
Fixpoint Contains (s sub : bytes) : bool :=
  has_prefix sub s ||
  match s with
  | [] => false
  | _ :: s' => Contains s' sub
  end.

(** [strings.Split(s, sep)] for a one-byte separator: never empty,
    [Split("", sep)] is [[""]]. *)
Fixpoint Split (s : bytes) (sep : ascii) : list bytes :=
  match s with
  | [] => [[]]
  | c :: s' =>
      if byte_eqb c sep then [] :: Split s' sep
      else match Split s' sep with
           | seg :: segs => (c :: seg) :: segs
           | [] => [[c]]
           end
  end.

(** [strings.SplitN(s, sep, 2)] for a one-byte separator: cut at the first
    separator only. *)
Fixpoint SplitN2 (s : bytes) (sep : ascii) : list bytes :=
  match s with
  | [] => [[]]
  | c :: s' =>
      if byte_eqb c sep then [[]; s']
      else match SplitN2 s' sep with
           | seg :: segs => (c :: seg) :: segs
           | [] => [[c]]
           end
  end.

(** White space as [unicode.IsSpace] has it, on the UTF-8 encoding:
    the six ASCII ones, U+0085 and U+00A0 (two bytes), and U+1680,
    U+2000..U+200A, U+2028, U+2029, U+202F, U+205F, U+3000 (three bytes). *)
Definition is_ascii_space (c : ascii) : bool :=
  let n := nat_of_ascii c in (9 <=? n) && (n <=? 13) || (n =? 32).

Definition is_space2 (c1 c2 : ascii) : bool :=
  (nat_of_ascii c1 =? 194) && ((nat_of_ascii c2 =? 133) || (nat_of_ascii c2 =? 160)).

Definition is_space3 (c1 c2 c3 : ascii) : bool :=
  let a := nat_of_ascii c1 in
  let b := nat_of_ascii c2 in
  let c := nat_of_ascii c3 in
  (a =? 225) && (b =? 154) && (c =? 128)
  || (a =? 226) && (b =? 128)
       && ((128 <=? c) && (c <=? 138) || (c =? 168) || (c =? 169) || (c =? 175))
  || (a =? 226) && (b =? 129) && (c =? 159)
  || (a =? 227) && (b =? 128) && (c =? 128).

(** Drop the leading white-space runes. *)
Fixpoint trim_left (s : bytes) : bytes :=
  match s with
  | c1 :: t1 =>
      if is_ascii_space c1 then trim_left t1
      else match t1 with
           | c2 :: t2 =>
               if is_space2 c1 c2 then trim_left t2
               else match t2 with
                    | c3 :: t3 => if is_space3 c1 c2 c3 then trim_left t3 else s
                    | [] => s
                    end
           | [] => s
           end
  | [] => []
  end.

(** Drop the trailing white-space runes; [r] is the string reversed, so the
    bytes of a rune come last byte first. *)
Fixpoint trim_left_rev (r : bytes) : bytes :=
  match r with
  | c1 :: t1 =>
      if is_ascii_space c1 then trim_left_rev t1
      else match t1 with
           | c2 :: t2 =>
               if is_space2 c2 c1 then trim_left_rev t2
               else match t2 with
                    | c3 :: t3 => if is_space3 c3 c2 c1 then trim_left_rev t3 else r
                    | [] => r
                    end
           | [] => r
           end
  | [] => []
  end.

(** [strings.TrimSpace]: the leading runes first, then the trailing ones. *)
Definition TrimSpace (s : bytes) : bytes :=
  rev (trim_left_rev (rev (trim_left s))).

(** The encoding of U+FFFD, and of the letter e with an acute accent,
    U+00E9. *)
Definition replacement_char : bytes := ["239"; "191"; "189"]%char.
Definition e_acute : bytes := ["195"; "169"]%char.

(** [strings.ToUpper] of a string of length one, which is all the package
    applies it to.  An ASCII byte is mapped by the ASCII rule.  A byte of
    0x80 and above is not valid UTF-8 on its own: [strings.Map] decodes it
    as U+FFFD and writes that rune's encoding, EF BF BD. *)
Definition ToUpper1 (c : ascii) : bytes :=
  if nat_of_ascii c <? 128 then [to_upper_byte c]
  else replacement_char.

(** [strings.Contains(strings.ToLower(s), "fallback")].  The only runes
    that [ToLower] sends to a letter of [fallback] are the ASCII capitals
    and the Kelvin sign U+212A (to [k]), so the test is a search for the
    word with letters of either case, the last one possibly a Kelvin sign. *)
Definition fallback_at (s : bytes) : bool :=
  match s with
  | f :: a :: l1 :: l2 :: b :: a2 :: c :: rest =>
      fold_eqb f "f" && fold_eqb a "a" && fold_eqb l1 "l" && fold_eqb l2 "l"
      && fold_eqb b "b" && fold_eqb a2 "a" && fold_eqb c "c"
      && match rest with
         | k :: rest' =>
             fold_eqb k "k" || has_prefix ["226"; "132"; "170"]%char rest
         | [] => false
         end
  | _ => false
  end.

Fixpoint lower_contains_fallback (s : bytes) : bool :=
  fallback_at s ||
  match s with
  | [] => false
  | _ :: s' => lower_contains_fallback s'
  end.

(** [sliceutil.InStringSlice(list, str)]. *)
Definition InStringSlice (l : list bytes) (x : bytes) : bool := existsb (bytes_eqb x) l.

(** A callback that updates variables it closes over and may panic is a
    function on the state of those variables into [option]. *)
Section Closure.
Context {St : Type}.
Variable f : bytes -> St -> option (bytes * St).

Fixpoint replace_segments (segs : list segment) (st : St) : option (bytes * St) :=
  match segs with
  | [] => Some ([], st)
  | Gap t :: segs' =>
      match replace_segments segs' st with
      | Some (out, st') => Some (t ++ out, st')
      | None => None
      end
  | Tag sub :: segs' =>
      match f (whole sub) st with
      | Some (o, st1) =>
          match replace_segments segs' st1 with
          | Some (out, st') => Some (o ++ out, st')
          | None => None
          end
      | None => None
      end
  end.

Definition ReplaceAllStringFuncM (re : Regexp) (s : bytes) (st : St) : option (bytes * St) :=
  replace_segments (segments re s) st.
End Closure.

(** ** The pattern set *)

(** [\{\{.*?\}\}] *)
Definition escapeGo : Regexp :=
  MustCompile (Seq (Lit (lit "{{")) (Seq (Star false Dot) (Lit (lit "}}")))) 0.

Definition open_delim : regex := Alt (LitFold (lit "{%")) (LitFold (lit "%7B%25")).
Definition close_delim : regex := Alt (LitFold (lit "%}")) (LitFold (lit "%25%7D")).

(** [(?i)\\?(\{\%|\%7B\%25)+(.*?)(\%\}|\%25\%7D)+] *)
Definition tagsToGo : Regexp :=
  MustCompile
    (Seq (Opt (Chr (byte_eqb backslash)))
      (Seq (Plus true (Group 1 open_delim))
        (Seq (Group 2 (Star false Dot))
          (Plus true (Group 3 close_delim))))) 3.

(** [(?i)\s*(fallback)\s*=] *)
Definition findFallback : Regexp :=
  MustCompile
    (Seq (Star true (Chr is_re_space))
      (Seq (Group 1 (LitFold (lit "fallback")))
        (Seq (Star true (Chr is_re_space)) (Lit (lit "="))))) 1.

(** [executing "email" at \<\.(.*?)\>.*?\"(.*?)\"] *)
Definition parseTemplateError : Regexp :=
  MustCompile
    (Seq (Lit (lit "executing " ++ dq :: lit "email" ++ dq :: lit " at <."))
      (Seq (Group 1 (Star false Dot))
        (Seq (Lit (lit ">"))
          (Seq (Star false Dot)
            (Seq (Lit [dq])
              (Seq (Group 2 (Star false Dot)) (Lit [dq]))))))) 2.

(** ** The Fallback Expander *)

(** [replaceTemplateFallback].  The slice [tag[2 : len(tag)-2]] is in range
    whenever it is reached: a string that contains the word has at least
    eight bytes. *)
Definition replaceTemplateFallback (tag : bytes) : bytes :=
  if negb (lower_contains_fallback tag) then tag
  else
    let tagBody := firstn (length tag - 4) (skipn 2 tag) in
    let parts := SplitN2 tagBody "," in
    if negb (length parts =? 2) then tag
    else
      let variable := TrimSpace (nth 0 parts []) in
      let fallback := nth 1 parts [] in
      let fallback := TrimSpace (ReplaceAllString findFallback fallback []) in
      lit "{{if " ++ variable ++ lit "}}{{" ++ variable ++ lit "}}{{else}}"
        ++ fallback ++ lit "{{end}}".

(** ** The Tag Scanner *)

(** The Variable Index, [map[string][]string]. *)
Abbreviation usedVars := (gmap bytes (list bytes)).

(** [strings.ToUpper(s[0:1]) + s[1:]]; slicing an empty string panics. *)
Definition capitalize (s : bytes) : option bytes :=
  match s with
  | [] => None
  | c :: t => Some (ToUpper1 c ++ t)
  end.

(** The two updates of [usedVars] in the callback. *)
Definition record_used (ns key : bytes) (used : usedVars) : usedVars :=
  let used1 := match used !! ns with
               | Some _ => used
               | None => <[ns := []]> used
               end in
  let keys := default [] (used1 !! ns) in
  if negb (InStringSlice keys key) then <[ns := keys ++ [key]]> used1 else used1.

(** The first callback of [prepareTemplateTags]. *)
Definition escapeFunc (m : bytes) : bytes :=
  if Contains_byte m dq then m
  else lit "{{ " ++ dq :: m ++ dq :: lit " }}".

(** The second callback of [prepareTemplateTags]; [used] is the map the
    closure updates. *)
Definition tagFunc (m : bytes) (used : usedVars) : option (bytes * usedVars) :=
  match m with
  | [] => None
  | c :: m1 =>
      if byte_eqb c backslash then Some (m1, used)
      else
        let submatch := FindStringSubmatch tagsToGo m in
        if length submatch <? 3 then Some (m, used)
        else
          let tagParts := Split (TrimSpace (nth 2 submatch [])) "." in
          match tagParts with
          | p0 :: p1 :: _ =>
              match capitalize p0 with
              | None => None
              | Some t0 =>
                  match capitalize p1 with
                  | None => None
                  | Some t1 =>
                      Some (replaceTemplateFallback
                              (lit "{{." ++ t0 ++ lit "." ++ t1 ++ lit "}}"),
                            record_used t0 t1 used)
                  end
              end
          | _ => Some (m, used)
          end
  end.

Definition escapeGoPass (body : bytes) : bytes :=
  ReplaceAllStringFunc escapeGo body escapeFunc.

Definition tagsPass (body : bytes) (used : usedVars) : option (bytes * usedVars) :=
  ReplaceAllStringFuncM tagFunc tagsToGo body used.

(** [prepareTemplateTags]: [None] when the Go function panics. *)
Definition prepareTemplateTags (body : bytes) : option (bytes * usedVars) :=
  tagsPass (escapeGoPass body) ∅.

(** ** Capabilities, the parameter tree and the underlying engine *)

(** The dynamic values a capability hands out ([interface{}]). *)
Inductive value : Type :=
| VString (s : bytes)
| VBool (b : bool)
| VInt (n : Z).

(** The contents of a map of type [Keys]. *)
Abbreviation KeyMap := (gmap bytes value).

(** A Go map is a reference.  A map made for one caller is given by its
    contents; a map that its maker keeps, and may hand out again, is given
    by its place in the store of kept maps, and a write to it is seen
    wherever it is held. *)
Inductive mapRef : Type :=
| Own (m : KeyMap)
| Held (l : nat).

(** [Keys], a [map[string]interface{}]: nil ([None]) or a map. *)
Abbreviation Keys := (option mapRef).

Abbreviation Store := (gmap nat KeyMap).

Definition deref (st : Store) (r : mapRef) : KeyMap :=
  match r with
  | Own m => m
  | Held l => default ∅ (st !! l)
  end.

(** [m[k] = x], through the reference [r]. *)
Definition setKey (r : mapRef) (k : bytes) (x : value) (st : Store) : mapRef * Store :=
  match r with
  | Own m => (Own (<[k := x]> m), st)
  | Held l => (Held l, <[l := <[k := x]> (default ∅ (st !! l))]> st)
  end.

(** The parameter tree, [map[string]Keys], with no nil entry, and what the
    engine reads in it. *)
Abbreviation Tree := (gmap bytes mapRef).
Abbreviation Params := (gmap bytes KeyMap).

(** The interface [Templateable]; [Ctx] is [context.Context].  A capability
    is given by what its two methods answer to their arguments: the
    answers do not depend on the calls made before. *)
Record Templateable (Ctx : Type) : Type := {
  TemplateKeys : Ctx -> Keys -> Keys;
  TemplateCallbacks : Ctx -> bytes -> Keys -> bytes * bool
}.
Arguments TemplateKeys {Ctx} _ _ _.
Arguments TemplateCallbacks {Ctx} _ _ _ _.

(** The calls the resolver makes on the capabilities, in order. *)
Inductive call : Type :=
| CallKeys (ns : bytes)
| CallCallbacks (ns key : bytes).

(** What a render call changes outside itself: the calls made on the
    capabilities so far, and the store of kept maps. *)
Record World : Type := { w_calls : list call; w_store : Store }.

Definition newWorld (st : Store) : World := {| w_calls := []; w_store := st |}.

(** Errors: [text/template.ExecError] and every other dynamic type. *)
Inductive error : Type :=
| ExecError (msg : bytes)
| OtherError (msg : bytes).

Definition Error (e : error) : bytes :=
  match e with ExecError msg => msg | OtherError msg => msg end.

Definition Errorf (msg : bytes) : error := OtherError msg.

(** The interface [tpl]: [Execute] gives what was written and the error. *)
Record tpl : Type := { Execute : Params -> bytes * option error }.

(** The underlying engine: [text/template] and [html/template], each
    parsing a template named [email], with or without the option
    [missingkey=error]. *)
Record Engine : Type := {
  textParse : bool -> bytes -> tpl + error;
  htmlParse : bool -> bytes -> tpl + error
}.

Section Render.
Context {Ctx : Type}.

(** One turn of the inner loop of [replaceVariables]: the callback for
    the used key [v], and [params[key][v] = result] when it says so. *)
Definition callbackStep (ctx : Ctx) (key : bytes) (cap : Templateable Ctx)
    (parentKeys : Keys) (st : mapRef * World) (v : bytes) : mapRef * World :=
  let '(result, setIt) := TemplateCallbacks cap ctx v parentKeys in
  let rs := if setIt : bool
            then setKey (fst st) v (VString result) (w_store (snd st))
            else (fst st, w_store (snd st)) in
  (fst rs, {| w_calls := w_calls (snd st) ++ [CallCallbacks key v]; w_store := snd rs |}).

Definition callbacksLoop (ctx : Ctx) (key : bytes) (cap : Templateable Ctx)
    (parentKeys : Keys) (used : list bytes) (st : mapRef * World) : mapRef * World :=
  fold_left (callbackStep ctx key cap parentKeys) used st.

(** One turn of the loop of [replaceVariables] under [// Build params]:
    the entry of one namespace. *)
Definition resolveEntry (ctx : Ctx) (parentKeys : Keys) (used : usedVars)
    (st : Tree * World) (entry : bytes * Templateable Ctx) : Tree * World :=
  let key := fst entry in
  let cap := snd entry in
  let r0 := match TemplateKeys cap ctx parentKeys with
            | Some r => r
            | None => Own ∅
            end in
  let w1 := {| w_calls := w_calls (snd st) ++ [CallKeys key];
               w_store := w_store (snd st) |} in
  let r := match used !! key with
           | Some u => callbacksLoop ctx key cap parentKeys u (r0, w1)
           | None => (r0, w1)
           end in
  (<[key := fst r]> (fst st), snd r).

(** The loop itself.  The map [keys] is given as the list of its entries
    in the order the [range] statement visits them. *)
Definition buildParams (ctx : Ctx) (keys : list (bytes * Templateable Ctx))
    (parentKeys : Keys) (used : usedVars) (w : World) : Tree * World :=
  fold_left (resolveEntry ctx parentKeys used) keys (∅, w).

(** What the engine finds in the tree when it executes the template. *)
Definition readTree (built : Tree * World) : Params :=
  deref (w_store (snd built)) <$> fst built.

(** [replaceVariables]; the third component is the world it leaves. *)
Definition replaceVariables (ctx : Ctx) (tmpl : tpl) (body : bytes)
    (keys : list (bytes * Templateable Ctx)) (parentKeys : Keys)
    (used : usedVars) (w : World) : bytes * option error * World :=
  let built := buildParams ctx keys parentKeys used w in
  match Execute tmpl (readTree built) with
  | (_, Some err) => (body, Some err, snd built)
  | (output, None) => (output, None, snd built)
  end.

Variable E : Engine.

(** The four render calls return the text, the error and the world they
    leave; [None] stands for a panic of the transpiler. *)
Definition Text (ctx : Ctx) (body : bytes) (keys : list (bytes * Templateable Ctx))
    (parentKeys : Keys) (w : World) : option (bytes * option error * World) :=
  match prepareTemplateTags body with
  | None => None
  | Some (body, used) =>
      match textParse E false body with
      | inr err => Some (body, Some err, w)
      | inl tmpl => Some (replaceVariables ctx tmpl body keys parentKeys used w)
      end
  end.

Definition HTML (ctx : Ctx) (body : bytes) (keys : list (bytes * Templateable Ctx))
    (parentKeys : Keys) (w : World) : option (bytes * option error * World) :=
  match prepareTemplateTags body with
  | None => None
  | Some (body, used) =>
      match htmlParse E false body with
      | inr err => Some (body, Some err, w)
      | inl tmpl => Some (replaceVariables ctx tmpl body keys parentKeys used w)
      end
  end.

Definition HTMLSafe (ctx : Ctx) (body : bytes) (keys : list (bytes * Templateable Ctx))
    (parentKeys : Keys) (w : World) : option (bytes * option error * World) :=
  match HTML ctx body keys parentKeys w with
  | None => None
  | Some (out, None, w1) => Some (out, None, w1)
  | Some (_, Some _, w1) => Text ctx body keys parentKeys w1
  end.

(** The Error Translator: the part of [TestSafe] under the first
    [if err != nil], given the text and error of the last attempt. *)
Definition translateError (out : bytes) (err : error) : bytes * option error :=
  match err with
  | OtherError _ => (out, Some err)
  | ExecError _ =>
      match FindAllStringSubmatch parseTemplateError (Error err) with
      | [] => (out, Some err)
      | v0 :: _ =>
          if length v0 <? 2 then (out, Some err)
          else ([], Some (Errorf (lit "unknown variable " ++ nth 2 v0 []
                                    ++ lit " at " ++ nth 1 v0 [])))
      end
  end.

Definition TestSafe (ctx : Ctx) (body : bytes) (keys : list (bytes * Templateable Ctx))
    (parentKeys : Keys) (w : World) : option (bytes * option error * World) :=
  match prepareTemplateTags body with
  | None => None
  | Some (body, used) =>
      match htmlParse E true body with
      | inr err => Some ([], Some err, w)
      | inl tmpl =>
          match replaceVariables ctx tmpl body keys parentKeys used w with
          | (out, None, w1) => Some (out, None, w1)
          | (_, Some _, w1) =>
              match textParse E true body with
              | inr err => Some ([], Some err, w1)
              | inl tmpl =>
                  match replaceVariables ctx tmpl body keys parentKeys used w1 with
                  | (out, None, w2) => Some (out, None, w2)
                  | (out, Some err, w2) => Some (translateError out err, w2)
                  end
              end
          end
      end
  end.
End Render.

(** ** The tags of a text, as the specification describes them

    The Tag Scanner looks for tags in the text the first pass returns.  A tag
    is escaped when it starts with a backslash; its content is group 2 of
    the tag pattern; it is well formed when the trimmed content has at
    least two dot-separated segments, the first two not empty. *)

Definition seg_text (sg : segment) : bytes :=
  match sg with Gap t => t | Tag sub => whole sub end.

Definition seg_tags (sg : segment) : list bytes :=
  match sg with Gap _ => [] | Tag sub => [whole sub] end.

Definition tag_texts (body : bytes) : list bytes :=
  flat_map seg_tags (segments tagsToGo body).

Definition escaped (m : bytes) : bool :=
  match m with c :: _ => byte_eqb c backslash | [] => false end.

Definition tag_content (m : bytes) : bytes :=
  nth 2 (FindStringSubmatch tagsToGo m) [].

Definition dot_segments (m : bytes) : list bytes :=
  Split (TrimSpace (tag_content m)) ".".

(** The tag text without its escape character. *)
Definition unescape (m : bytes) : bytes :=
  if escaped m then tl m else m.

(** The normalized (namespace, key) an unescaped, well-formed tag refers to. *)
Definition tag_ref (m : bytes) : option (bytes * bytes) :=
  if escaped m then None
  else match dot_segments m with
       | (n0 :: nr) :: (k0 :: kr) :: _ => Some (ToUpper1 n0 ++ nr, ToUpper1 k0 ++ kr)
       | _ => None
       end.

Fixpoint tag_refs (tags : list bytes) : list (bytes * bytes) :=
  match tags with
  | [] => []
  | m :: tags' =>
      match tag_ref m with
      | Some p => p :: tag_refs tags'
      | None => tag_refs tags'
      end
  end.

Definition referenced (body : bytes) : list (bytes * bytes) :=
  tag_refs (tag_texts (escapeGoPass body)).

(** The keys referenced under one namespace, in the order of the text. *)
Fixpoint keys_of (ns : bytes) (refs : list (bytes * bytes)) : list bytes :=
  match refs with
  | [] => []
  | (n, k) :: refs' => if bytes_eqb ns n then k :: keys_of ns refs' else keys_of ns refs'
  end.

(** A list without its repetitions, each element at its first place. *)
Fixpoint first_seen (l : list bytes) : list bytes :=
  match l with
  | [] => []
  | x :: l' => x :: List.filter (fun y => negb (bytes_eqb x y)) (first_seen l')
  end.

(** The Variable Index the specification describes. *)
Definition index_spec (body : bytes) (ns : bytes) : option (list bytes) :=
  match first_seen (keys_of ns (referenced body)) with
  | [] => None
  | l => Some l
  end.

(** The least number of bytes a match of [r] consumes. *)
Fixpoint minlen (r : regex) : nat :=
  match r with
  | Eps => 0
  | Chr _ => 1
  | Seq r1 r2 => minlen r1 + minlen r2
  | Alt r1 r2 => Nat.min (minlen r1) (minlen r2)
  | Star _ _ => 0
  | Group _ r1 => minlen r1
  end.

(** The calls one turn of the loop of [replaceVariables] makes, and the
    calls of one run. *)
Definition calls_of {Ctx : Type} (used : usedVars) (entry : bytes * Templateable Ctx)
    : list call :=
  CallKeys (fst entry) :: map (CallCallbacks (fst entry)) (default [] (used !! fst entry)).

Definition run_calls {Ctx : Type} (used : usedVars)
    (keys : list (bytes * Templateable Ctx)) : list call :=
  flat_map (calls_of used) keys.


(** A mapping with the value of the callback set for every one of the
    keys [u] that the callback sets. *)
Definition lazy_set {Ctx : Type} (ctx : Ctx) (parentKeys : Keys) (cap : Templateable Ctx)
    (u : list bytes) (m : KeyMap) : KeyMap :=
  fold_left
    (fun m v =>
       let '(result, setIt) := TemplateCallbacks cap ctx v parentKeys in
       if setIt : bool then <[v := VString result]> m else m)
    u m.



(** The capability of the package's tests: [TemplateKeys] hands out the
    map the capability holds ([return k.keys]), and the callback answers
    the key [useit], in either case of its ASCII letters, with [cb value]. *)
Definition TestKeys (keys : Keys) : Templateable unit := {|
  TemplateKeys := fun _ _ => keys;
  TemplateCallbacks := fun _ key _ =>
    if bytes_eqb (map to_lower_byte key) (lit "useit")
    then (lit "cb value", true) else ([], false)
|}.

(** The text of the error [text/template] reports, under
    [missingkey=error], when the map it indexes has no entry for [key]
    while it evaluates the field chain [path] at position [pos]. *)
Definition missing_key_message (pos path key : bytes) : bytes :=
  lit "template: email:" ++ pos ++ lit ": executing " ++ dq :: lit "email" ++ dq
    :: lit " at <." ++ path ++ lit ">: map has no entry for key " ++ dq :: key ++ [dq].

(** Three engines for the examples.  The first parses every text and
    prints it as it is.  The second parses every text and fails every
    execution with the given error.  The third is the first, except that
    executing an HTML template fails with the given error, as
    [html/template] does on markup it cannot escape. *)
Definition literalEngine : Engine := {|
  textParse := fun _ body => inl {| Execute := fun _ => (body, None) |};
  htmlParse := fun _ body => inl {| Execute := fun _ => (body, None) |}
|}.

Definition failingEngine (err : error) : Engine := {|
  textParse := fun _ _ => inl {| Execute := fun _ => ([], Some err) |};
  htmlParse := fun _ _ => inl {| Execute := fun _ => ([], Some err) |}
|}.

Definition brokenHtmlEngine (err : error) : Engine := {|
  textParse := fun _ body => inl {| Execute := fun _ => (body, None) |};
  htmlParse := fun _ _ => inl {| Execute := fun _ => ([], Some err) |}
|}.



(** One more key at the end of a list, unless the list has it. *)
Definition add_key (l : list bytes) (k : bytes) : list bytes :=
  if InStringSlice l k then l else l ++ [k].

(** The tags at which the callback panics: not escaped, two segments or
    more, the first or the second empty. *)
Definition tag_panics (m : bytes) : bool :=
  negb (escaped m) &&
  match dot_segments m with
  | [] :: _ :: _ => true
  | _ :: [] :: _ => true
  | _ => false
  end.

(** Text in which no tag can start: no backslash, no brace, no percent sign. *)
Definition tag_free_byte (c : ascii) : bool :=
  negb (byte_eqb c backslash || byte_eqb c "{" || byte_eqb c "%").

Definition tag_free (s : bytes) : bool := forallb tag_free_byte s.

(** Text without an opening brace. *)
Definition brace_free (s : bytes) : bool := negb (Contains_byte s "{").

(** The bytes of an identifier: ASCII letters, digits and the underscore. *)
Definition ident_byte (c : ascii) : bool :=
  let n := nat_of_ascii c in
  is_lower c || is_upper c || ((48 <=? n) && (n <=? 57)) || (n =? 95).

Definition ident (s : bytes) : bool :=
  match s with [] => false | _ => forallb ident_byte s end.

Definition blanks (s : bytes) : bool := forallb (byte_eqb " ") s.

(** A segment with its first byte in upper case, for an ASCII first byte. *)
Definition upper_first (s : bytes) : bytes :=
  match s with
  | [] => []
  | c :: t => to_upper_byte c :: t
  end.

(** The directive of a namespace and a key, [{{.Ns.Key}}]. *)
Definition directive (ns key : bytes) : bytes :=
  lit "{{." ++ ns ++ lit "." ++ key ++ lit "}}".

(** The conditional triple on a variable, with a text for when it is
    empty. *)
Definition conditional (variable text : bytes) : bytes :=
  lit "{{if " ++ variable ++ lit "}}{{" ++ variable ++ lit "}}{{else}}" ++ text ++ lit "{{end}}".

(** The words of a pattern. *)
Inductive matches : regex -> bytes -> Prop :=
| MEps : matches Eps []
| MChr p c : p c = true -> matches (Chr p) [c]
| MSeq r1 r2 w1 w2 : matches r1 w1 -> matches r2 w2 -> matches (Seq r1 r2) (w1 ++ w2)
| MAltL r1 r2 w : matches r1 w -> matches (Alt r1 r2) w
| MAltR r1 r2 w : matches r2 w -> matches (Alt r1 r2) w
| MStar0 g r : matches (Star g r) []
| MStarS g r w1 w2 : matches r w1 -> matches (Star g r) w2 -> matches (Star g r) (w1 ++ w2)
| MGroup n r w : matches r w -> matches (Group n r) w.

(** A step is sound for a language [L] when every result comes from the
    continuation, called on what is left after a word of [L]. *)
Definition sound_for {R : Type} (L : bytes -> Prop)
    (step : bytes -> caps -> (bytes -> caps -> option R) -> option R) : Prop :=
  forall inp cs k x, step inp cs k = Some x ->
    exists w rest cs', inp = w ++ rest /\ L w /\ k rest cs' = Some x.

(** ** The writes of the resolver into kept maps

    A write is a place in the store, a key and a value. *)
Definition write : Type := nat * bytes * value.

Definition apply_write (st : Store) (wr : write) : Store :=
  let '(l, k, x) := wr in <[l := <[k := x]> (default ∅ (st !! l))]> st.

Definition apply_writes (ws : list write) (st : Store) : Store :=
  fold_left apply_write ws st.

(** The writes among [ws] that go to the place [l], applied to its contents. *)
Definition writes_at (l : nat) (ws : list write) (m : KeyMap) : KeyMap :=
  fold_left (fun m (wr : write) =>
               let '(l', k, x) := wr in if Nat.eqb l' l then <[k := x]> m else m)
            ws m.

Definition writes_to (l : nat) (ws : list write) : bool :=
  existsb (fun wr : write => Nat.eqb (fst (fst wr)) l) ws.

(** The writes of the inner loop of [replaceVariables] for a capability
    whose bulk mapping is the kept map at [l]. *)
Definition writes_for {Ctx : Type} (ctx : Ctx) (parentKeys : Keys) (cap : Templateable Ctx)
    (l : nat) (v : bytes) : list write :=
  let '(result, setIt) := TemplateCallbacks cap ctx v parentKeys in
  if setIt : bool then [(l, v, VString result)] else [].

Definition writes_of_entry {Ctx : Type} (ctx : Ctx) (parentKeys : Keys) (used : usedVars)
    (e : bytes * Templateable Ctx) : list write :=
  match TemplateKeys (snd e) ctx parentKeys with
  | Some (Held l) => flat_map (writes_for ctx parentKeys (snd e) l) (default [] (used !! fst e))
  | _ => []
  end.

Definition writes_of {Ctx : Type} (ctx : Ctx) (parentKeys : Keys) (used : usedVars)
    (keys : list (bytes * Templateable Ctx)) : list write :=
  flat_map (writes_of_entry ctx parentKeys used) keys.

(** The reference the loop of [replaceVariables] puts in the tree for one
    capability, and the tree of a list of capabilities. *)
Definition entry_ref {Ctx : Type} (ctx : Ctx) (parentKeys : Keys) (used : usedVars)
    (e : bytes * Templateable Ctx) : mapRef :=
  match TemplateKeys (snd e) ctx parentKeys with
  | Some (Held l) => Held l
  | Some (Own m) => Own (lazy_set ctx parentKeys (snd e) (default [] (used !! fst e)) m)
  | None => Own (lazy_set ctx parentKeys (snd e) (default [] (used !! fst e)) ∅)
  end.

Definition tree_of {Ctx : Type} (ctx : Ctx) (parentKeys : Keys) (used : usedVars)
    (keys : list (bytes * Templateable Ctx)) (t : Tree) : Tree :=
  fold_left (fun t e => <[fst e := entry_ref ctx parentKeys used e]> t) keys t.

(** ** Counting bytes in the words of a pattern *)

Definition count_byte (b : ascii) (s : bytes) : nat := length (List.filter (byte_eqb b) s).

(** The class [p] holds no byte but [b]. *)
Definition only_byte (b : ascii) (p : ascii -> bool) : bool :=
  forallb (fun n => implb (p (ascii_of_nat n)) (byte_eqb b (ascii_of_nat n))) (seq 0 256).

(** A number of times [b] occurs in every word of [r]. *)
Fixpoint min_occ (b : ascii) (r : regex) : nat :=
  match r with
  | Eps => 0
  | Chr p => if only_byte b p then 1 else 0
  | Seq r1 r2 => min_occ b r1 + min_occ b r2
  | Alt r1 r2 => Nat.min (min_occ b r1) (min_occ b r2)
  | Star _ _ => 0
  | Group _ r1 => min_occ b r1
  end.

(** No word of [r] holds the byte [b]. *)
Fixpoint never_byte (b : ascii) (r : regex) : bool :=
  match r with
  | Eps => true
  | Chr p => negb (p b)
  | Seq r1 r2 => never_byte b r1 && never_byte b r2
  | Alt r1 r2 => never_byte b r1 && never_byte b r2
  | Star _ r1 => never_byte b r1
  | Group _ r1 => never_byte b r1
  end.

(** No line of the text holds two percent signs; [seen] says that the
    line read so far holds one. *)
Fixpoint one_percent_per_line (seen : bool) (s : bytes) : bool :=
  match s with
  | [] => true
  | c :: t =>
      if byte_eqb c nl then one_percent_per_line false t
      else if byte_eqb c "%" then negb seen && one_percent_per_line true t
      else one_percent_per_line seen t
  end.

(** No two opening braces stand side by side. *)
Fixpoint no_double_brace (s : bytes) : bool :=
  match s with
  | [] => true
  | _ :: t => negb (has_prefix (lit "{{") s) && no_double_brace t
  end.

(** The spellings of the delimiters that the tag pattern accepts: the
    plain ones and the percent-encoded ones, with the hexadecimal letter in
    either case. *)
Definition tag_open (op : bytes) : bool :=
  bytes_eqb op (lit "{%") || bytes_eqb op (lit "%7B%25") || bytes_eqb op (lit "%7b%25").

Definition tag_close (cl : bytes) : bool :=
  bytes_eqb cl (lit "%}") || bytes_eqb cl (lit "%25%7D") || bytes_eqb cl (lit "%25%7d").

(** The literal text at the head of the error pattern. *)
Definition exec_marker : bytes :=
  lit "executing " ++ dq :: lit "email" ++ dq :: lit " at <.".

(** The literal [l] starts at no place of [pre], when [l] follows [pre]. *)
Fixpoint starts_nowhere (l pre : bytes) : bool :=
  match pre with
  | [] => true
  | _ :: t => negb (has_prefix l (pre ++ l)) && starts_nowhere l t
  end.

(** ** What the render calls take from the underlying engine

    The engine is not part of the package.  The render calls rely on two
    points of its behaviour, stated here as conditions on an engine:
    how a template parsed with [missingkey=error] reports a name that is
    missing from the tree, and that a text without the left delimiter is
    printed as it is. *)


Definition is_digit (c : ascii) : bool :=
  let n := nat_of_ascii c in (48 <=? n) && (n <=? 57).



Definition field_path (ns key : bytes) : bytes := ns ++ lit "." ++ key.


(** The engine parses every text without the left delimiter [{{] and
    prints it as it is. *)
Definition prints_plain_text (E : Engine) : Prop :=
  forall strict body,
    Contains body (lit "{{") = false ->
    exists t, textParse E strict body = inl t
              /\ forall params, Execute t params = (body, None).



(** ** An engine for the examples: text and field references

    A model of [text/template] on the templates the examples use: text,
    and actions that are a chain of two field names, [{{.Ns.Key}}].  An
    action that is not closed is a parse error, as in the engine; so is, in
    this model only, an action of another form.  The wording of parse
    errors is not modelled.  The same model stands for [html/template],
    for texts and values in which it has nothing to escape. *)

(** [strings.Cut]: the text before and after the first [sep]. *)
Fixpoint Cut (sep s : bytes) : option (bytes * bytes) :=
  if has_prefix sep s then Some ([], skipn (length sep) s)
  else match s with
       | [] => None
       | c :: t =>
           match Cut sep t with
           | Some (a, b) => Some (c :: a, b)
           | None => None
           end
       end.

Fixpoint decimal_fuel (fuel n : nat) : bytes :=
  match fuel with
  | 0 => []
  | S f =>
      (if n <? 10 then [] else decimal_fuel f (n / 10))
        ++ [ascii_of_nat (48 + n mod 10)]
  end.

(** [strconv.Itoa] on a natural number. *)
Definition Itoa (n : nat) : bytes := decimal_fuel (S n) n.

(** The place of a node, [line:column], from the text before it: the
    number of the line, and the number of bytes before the node on it. *)
Definition place (before : bytes) : bytes :=
  Itoa (1 + count_byte nl before) ++ ":"%char :: Itoa (length (List.last (Split before nl) [])).

Inductive node : Type :=
| NText (t : bytes)
| NField (pos ns key : bytes).

Definition is_blank (c : ascii) : bool := byte_eqb c " " || byte_eqb c "009".

Fixpoint span_blanks (s : bytes) : bytes * bytes :=
  match s with
  | [] => ([], [])
  | c :: t =>
      if is_blank c
      then (c :: fst (span_blanks t), snd (span_blanks t))
      else ([], s)
  end.

Definition field_name (s : bytes) : bool :=
  ident s && negb (is_digit (hd " "%char s)).

(** The content of an action that is a chain of two field names, with
    the blanks before it. *)
Definition field_chain (a : bytes) : option (bytes * bytes * bytes) :=
  let sp := fst (span_blanks a) in
  let r := snd (span_blanks a) in
  match Split (rev (snd (span_blanks (rev r)))) "." with
  | [[]; ns; key] =>
      if field_name ns && field_name key then Some (sp, ns, key) else None
  | _ => None
  end.

Definition parse_error : error := OtherError (lit "template: email: parse error").

(** The nodes of a text; [seen] is the text before [s]. *)
Fixpoint parse_nodes (fuel : nat) (seen s : bytes) : list node + error :=
  match Cut (lit "{{") s with
  | None => inl (match s with [] => [] | _ => [NText s] end)
  | Some (t, r) =>
      match Cut (lit "}}") r with
      | None => inr parse_error
      | Some (a, r') =>
          match field_chain a, fuel with
          | Some (sp, ns, key), S f =>
              match parse_nodes f (seen ++ t ++ lit "{{" ++ a ++ lit "}}") r' with
              | inl nodes =>
                  inl (NText t :: NField (place (seen ++ t ++ lit "{{" ++ sp)) ns key :: nodes)
              | inr e => inr e
              end
          | _, _ => inr parse_error
          end
      end
  end.

Definition print_Z (n : Z) : bytes :=
  if (n <? 0)%Z then "-"%char :: Itoa (Z.to_nat (- n)) else Itoa (Z.to_nat n).

Definition print_value (x : value) : bytes :=
  match x with
  | VString s => s
  | VBool b => if b then lit "true" else lit "false"
  | VInt n => print_Z n
  end.

(** Execution writes the nodes in turn; a missing name ends it with the
    engine's error under [missingkey=error], and prints as [<no value>]
    without the option. *)
Fixpoint exec_nodes (strict : bool) (nodes : list node) (params : Params) (out : bytes)
    : bytes * option error :=
  match nodes with
  | [] => (out, None)
  | NText t :: rest => exec_nodes strict rest params (out ++ t)
  | NField pos ns key :: rest =>
      let missing name :=
        if strict
        then (out, Some (ExecError (missing_key_message pos (field_path ns key) name)))
        else exec_nodes strict rest params (out ++ lit "<no value>") in
      match params !! ns with
      | None => missing ns
      | Some m =>
          match m !! key with
          | None => missing key
          | Some x => exec_nodes strict rest params (out ++ print_value x)
          end
      end
  end.

Definition field_template (strict : bool) (body : bytes) : tpl + error :=
  match parse_nodes (length body) [] body with
  | inl nodes => inl {| Execute := fun params => exec_nodes strict nodes params [] |}
  | inr e => inr e
  end.

Definition fieldEngine : Engine := {|
  textParse := field_template;
  htmlParse := field_template
|}.

(** * Properties *)

(** ** Bytes *)

Lemma byte_eqb_eq a b : byte_eqb a b = true <-> a = b.
Proof. apply Ascii.eqb_eq. Qed.

Lemma byte_eqb_refl a : byte_eqb a a = true.
Proof. apply Ascii.eqb_refl. Qed.

Lemma byte_eqb_neq a b : byte_eqb a b = false <-> a <> b.
Proof. apply Ascii.eqb_neq. Qed.

Lemma bytes_eqb_eq x y : bytes_eqb x y = true <-> x = y.
Proof.
  revert y; induction x as [|a x IH]; intros [|c y]; simpl; try (split; congruence).
  rewrite andb_true_iff, byte_eqb_eq, IH. split.
  - intros [-> ->]; reflexivity.
  - intros [= -> ->]; auto.
Qed.

(** ** The matcher *)

Section RunFacts.
Context {R : Type}.

Lemma star_loop_sound
    (step : bytes -> caps -> (bytes -> caps -> option R) -> option R) greedy r :
  sound_for (matches r) step ->
  forall fuel,
    sound_for (matches (Star greedy r))
      (fun inp cs k => star_loop step greedy k fuel inp cs).
Proof.
  intros Hstep fuel. induction fuel as [|fuel IH]; intros inp cs k x H.
  - simpl in H. destruct greedy.
    + exists [], inp, cs. repeat split; [constructor|assumption].
    + destruct (k inp cs) eqn:Hk; [|discriminate].
      exists [], inp, cs. repeat split; [constructor|congruence].
  - simpl in H.
    assert (Hagain : forall y,
      step inp cs (fun rest cs' =>
        if length rest <? length inp then star_loop step greedy k fuel rest cs' else None)
      = Some y ->
      exists w rest cs', inp = w ++ rest /\ matches (Star greedy r) w /\ k rest cs' = Some y).
    { intros y Hy. apply Hstep in Hy as (w1 & rest & cs' & -> & Hw1 & Hy).
      destruct (length rest <? length (w1 ++ rest)); [|discriminate].
      apply IH in Hy as (w2 & rest2 & cs2 & -> & Hw2 & Hy).
      exists (w1 ++ w2), rest2, cs2. rewrite <- app_assoc.
      repeat split; [|assumption]. constructor; assumption. }
    destruct greedy.
    + destruct (step inp cs _) eqn:Hs.
      * injection H as ->. apply Hagain. reflexivity.
      * exists [], inp, cs. repeat split; [constructor|assumption].
    + destruct (k inp cs) eqn:Hk.
      * exists [], inp, cs. repeat split; [constructor|congruence].
      * apply Hagain. exact H.
Qed.

(** Soundness of the matcher: what it consumes is a word of the pattern. *)
Lemma run_sound (r : regex) : sound_for (R := R) (matches r) (run r).
Proof.
  induction r as [|p|r1 IH1 r2 IH2|r1 IH1 r2 IH2|g r IH|n r IH];
    intros inp cs k x H; simpl in *.
  - exists [], inp, cs. repeat split; [constructor|assumption].
  - destruct inp as [|c t]; [discriminate|]. destruct (p c) eqn:Hp; [|discriminate].
    exists [c], t, cs. repeat split; [constructor|]; assumption.
  - apply IH1 in H as (w1 & rest1 & cs1 & -> & Hw1 & H).
    apply IH2 in H as (w2 & rest2 & cs2 & -> & Hw2 & H).
    exists (w1 ++ w2), rest2, cs2. rewrite <- app_assoc.
    repeat split; [|assumption]. constructor; assumption.
  - destruct (run r1 inp cs k) eqn:H1.
    + injection H as ->. apply IH1 in H1 as (w & rest & cs' & ? & ? & ?).
      exists w, rest, cs'. repeat split; auto. apply MAltL; assumption.
    + apply IH2 in H as (w & rest & cs' & ? & ? & ?).
      exists w, rest, cs'. repeat split; auto. apply MAltR; assumption.
  - eapply (star_loop_sound (run r) g r); [exact IH|exact H].
  - apply IH in H as (w & rest & cs' & -> & ? & H).
    eexists w, rest, _. repeat split; eauto. constructor; assumption.
Qed.
End RunFacts.

Lemma matches_minlen r w : matches r w -> minlen r <= length w.
Proof.
  induction 1; simpl; rewrite ?length_app; try lia.
Qed.

Lemma match_here_sound r inp rest cs :
  match_here r inp = Some (rest, cs) ->
  exists w, inp = w ++ rest /\ matches r w.
Proof.
  unfold match_here. intros H.
  apply run_sound in H as (w & rest' & cs' & -> & Hw & [= -> ->]). eauto.
Qed.

Lemma firstn_app_exact {A} (pre rest : list A) :
  firstn (length (pre ++ rest) - length rest) (pre ++ rest) = pre.
Proof.
  rewrite length_app. replace (length pre + length rest - length rest) with (length pre) by lia.
  rewrite firstn_app, Nat.sub_diag, firstn_all. simpl. apply app_nil_r.
Qed.

Lemma find_from_eq r n pos inp :
  find_from r n pos inp =
  match match_here r inp with
  | Some (rest, cs) =>
      let len := length inp - length rest in
      Some (Found pos (pos + len) (submatches n (firstn len inp) cs))
  | None =>
      match inp with
      | [] => None
      | _ :: t => find_from r n (S pos) t
      end
  end.
Proof. destruct inp; reflexivity. Qed.

(** A found match cuts the string in three. *)
Lemma find_from_split r n pos inp f :
  find_from r n pos inp = Some f ->
  exists gap m rest, inp = gap ++ m ++ rest
    /\ f_start f = pos + length gap
    /\ f_end f = pos + length gap + length m
    /\ whole (f_sub f) = m
    /\ matches r m.
Proof.
  revert pos f; induction inp as [|c t IH]; intros pos f; rewrite find_from_eq.
  - destruct (match_here r []) as [[rest cs]|] eqn:Hm; [|discriminate].
    intros [= <-]. apply match_here_sound in Hm as Hs. destruct Hs as (pre & Hs & Hl).
    symmetry in Hs. apply app_eq_nil in Hs as [-> ->].
    exists [], [], []. simpl. repeat split; auto; lia.
  - destruct (match_here r (c :: t)) as [[rest cs]|] eqn:Hm.
    + intros [= <-]. apply match_here_sound in Hm as Hs. destruct Hs as (pre & Hs & Hl).
      exists [], pre, rest. rewrite Hs.
      cbn [f_start f_end f_sub whole app submatches hd].
      replace (S (length t)) with (length (pre ++ rest)) by (rewrite <- Hs; reflexivity).
      rewrite firstn_app_exact, length_app.
      repeat split; auto; cbn [length]; lia.
    + intros H. apply IH in H as (gap & m & rest & -> & Hs & He & Hw & Hl).
      exists (c :: gap), m, rest. simpl. repeat split; auto; lia.
Qed.

Lemma find_split re s f :
  find re s = Some f ->
  exists gap m rest, s = gap ++ m ++ rest
    /\ f_start f = length gap
    /\ f_end f = length gap + length m
    /\ whole (f_sub f) = m
    /\ matches (re_expr re) m.
Proof. intros H. apply find_from_split in H. exact H. Qed.

(** ** The scan *)

Lemma segments_fuel_text re fuel s :
  flat_map seg_text (segments_fuel fuel re s) = s.
Proof.
  revert s; induction fuel as [|fuel IH]; intros s; simpl.
  - destruct (find re s); simpl; apply app_nil_r.
  - destruct (find re s) as [f|] eqn:Hf; [|simpl; apply app_nil_r].
    destruct (f_end f =? 0); [simpl; apply app_nil_r|].
    apply find_split in Hf as (gap & m & rest & -> & Hs & He & Hw & _).
    cbn [flat_map seg_text]. rewrite IH, Hw, Hs, He.
    rewrite take_app_length.
    replace (drop (length gap + length m) (gap ++ m ++ rest)) with rest; [reflexivity|].
    rewrite app_assoc, <- length_app, drop_app_length. reflexivity.
Qed.

(** The scan covers the text: gaps and matches, put back together, give
    the text that was scanned. *)
Lemma segments_text re s : flat_map seg_text (segments re s) = s.
Proof. apply segments_fuel_text. Qed.

Lemma find_end_le re s f : find re s = Some f -> f_end f <= length s.
Proof.
  intros Hf. apply find_split in Hf as (gap & m & rest & -> & _ & -> & _).
  rewrite !length_app. lia.
Qed.

Lemma segments_fuel_enough re fuel1 fuel2 s :
  length s <= fuel1 -> length s <= fuel2 ->
  segments_fuel fuel1 re s = segments_fuel fuel2 re s.
Proof.
  revert fuel2 s; induction fuel1 as [|fuel1 IH]; intros fuel2 s H1 H2.
  - destruct fuel2; [reflexivity|].
    simpl. destruct (find re s) as [f|] eqn:Hf; [|reflexivity].
    apply find_end_le in Hf. replace (f_end f) with 0 by lia. reflexivity.
  - simpl. destruct (find re s) as [f|] eqn:Hf.
    + destruct fuel2 as [|fuel2].
      * simpl. rewrite Hf. apply find_end_le in Hf.
        replace (f_end f) with 0 by lia. reflexivity.
      * simpl. rewrite Hf. destruct (f_end f =? 0) eqn:E0; [reflexivity|].
        apply Nat.eqb_neq in E0. do 2 f_equal. apply IH.
        -- rewrite length_skipn. lia.
        -- rewrite length_skipn. lia.
    + destruct fuel2; simpl; rewrite Hf; reflexivity.
Qed.

(** The walk never runs out of steps: it satisfies the equation of the loop. *)
Lemma segments_unfold re s :
  segments re s =
  match find re s with
  | None => [Gap s]
  | Some f =>
      if f_end f =? 0 then [Gap s]
      else Gap (firstn (f_start f) s) :: Tag (f_sub f) :: segments re (skipn (f_end f) s)
  end.
Proof.
  unfold segments. destruct (length s) as [|n] eqn:En.
  - simpl. destruct (find re s) as [f|] eqn:Hf; [|reflexivity].
    apply find_end_le in Hf. replace (f_end f) with 0 by lia. reflexivity.
  - simpl. destruct (find re s) as [f|] eqn:Hf; [|reflexivity].
    destruct (f_end f =? 0) eqn:E0; [reflexivity|]. apply Nat.eqb_neq in E0.
    do 2 f_equal. apply segments_fuel_enough; [|lia].
    rewrite length_skipn. lia.
Qed.

Lemma segments_no_match re s : find re s = None -> segments re s = [Gap s].
Proof. intros H. rewrite segments_unfold, H. reflexivity. Qed.

(** Every match the scan reports is a word of the pattern. *)
Lemma segments_fuel_tag_matches re fuel s sub :
  In (Tag sub) (segments_fuel fuel re s) -> matches (re_expr re) (whole sub).
Proof.
  revert s; induction fuel as [|fuel IH]; intros s; simpl.
  - destruct (find re s); simpl; intros [H|[]]; discriminate.
  - destruct (find re s) as [f|] eqn:Hf; [|simpl; intros [H|[]]; discriminate].
    destruct (f_end f =? 0); [simpl; intros [H|[]]; discriminate|].
    simpl. intros [H|[H|H]]; [discriminate| |eauto].
    injection H as <-. apply find_split in Hf as (gap & m & rest & _ & _ & _ & -> & Hl). exact Hl.
Qed.

Lemma segments_tag_matches re s sub :
  In (Tag sub) (segments re s) -> matches (re_expr re) (whole sub).
Proof. apply segments_fuel_tag_matches. Qed.

Lemma segments_tag_length re s sub :
  In (Tag sub) (segments re s) -> minlen (re_expr re) <= length (whole sub).
Proof. intros H. apply matches_minlen, segments_tag_matches with s, H. Qed.

(** ** Replacing along the scan *)

Lemma replace_segments_app {St} (f : bytes -> St -> option (bytes * St)) l1 l2 st :
  replace_segments f (l1 ++ l2) st =
  match replace_segments f l1 st with
  | None => None
  | Some (o1, st1) =>
      match replace_segments f l2 st1 with
      | None => None
      | Some (o2, st2) => Some (o1 ++ o2, st2)
      end
  end.
Proof.
  revert st; induction l1 as [|[t|sub] l1 IH]; intros st; simpl.
  - destruct (replace_segments f l2 st) as [[o2 st2]|]; reflexivity.
  - rewrite IH. destruct (replace_segments f l1 st) as [[o1 st1]|]; [|reflexivity].
    destruct (replace_segments f l2 st1) as [[o2 st2]|]; [|reflexivity].
    rewrite app_assoc. reflexivity.
  - destruct (f (whole sub) st) as [[o st0]|]; [|reflexivity].
    rewrite IH. destruct (replace_segments f l1 st0) as [[o1 st1]|]; [|reflexivity].
    destruct (replace_segments f l2 st1) as [[o2 st2]|]; [|reflexivity].
    rewrite app_assoc. reflexivity.
Qed.

(** The output around one tag of the scan: the output for what comes
    before, the callback's output for the tag, the output for what follows,
    each started in the state the previous one left. *)
Lemma replace_segments_tag {St} (f : bytes -> St -> option (bytes * St))
    before sub after st :
  replace_segments f (before ++ Tag sub :: after) st =
  match replace_segments f before st with
  | None => None
  | Some (o1, st1) =>
      match f (whole sub) st1 with
      | None => None
      | Some (o, st2) =>
          match replace_segments f after st2 with
          | None => None
          | Some (o2, st3) => Some (o1 ++ o ++ o2, st3)
          end
      end
  end.
Proof.
  rewrite replace_segments_app. simpl.
  destruct (replace_segments f before st) as [[o1 st1]|]; [|reflexivity].
  destruct (f (whole sub) st1) as [[o st2]|]; [|reflexivity].
  destruct (replace_segments f after st2) as [[o2 st3]|]; reflexivity.
Qed.

(** ** The callback of the Tag Scanner *)

Lemma tagsToGo_minlen : minlen (re_expr tagsToGo) = 4.
Proof. reflexivity. Qed.

Lemma tag_nonempty body sub :
  In (Tag sub) (segments tagsToGo body) -> whole sub <> [].
Proof.
  intros H. apply segments_tag_length in H. rewrite tagsToGo_minlen in H.
  destruct (whole sub); simpl in H; [lia|discriminate].
Qed.

(** Group 2 of a tag pattern match is read as [submatch[2]]; the callback
    has its three submatches whenever the pattern matches. *)
Lemma submatch_length_tagsToGo m :
  length (FindStringSubmatch tagsToGo m) = 0 \/ length (FindStringSubmatch tagsToGo m) = 4.
Proof.
  unfold FindStringSubmatch, find. rewrite find_from_eq.
  assert (G : forall pos inp,
    match find_from (re_expr tagsToGo) (re_groups tagsToGo) pos inp with
    | Some f => length (f_sub f) = 4
    | None => True
    end).
  { intros pos inp; revert pos; induction inp as [|c t IH]; intros pos; rewrite find_from_eq.
    - destruct (match_here _ _) as [[rest cs]|]; [reflexivity|exact I].
    - destruct (match_here _ _) as [[rest cs]|]; [reflexivity|apply IH]. }
  specialize (G 0 m). rewrite find_from_eq in G.
  destruct (match_here (re_expr tagsToGo) m) as [[rest cs]|].
  - right. exact G.
  - destruct m as [|c t]; [left; reflexivity|].
    destruct (find_from _ _ 1 t); [right; exact G|left; reflexivity].
Qed.

Lemma tagFunc_escaped m1 used :
  tagFunc (backslash :: m1) used = Some (m1, used).
Proof. reflexivity. Qed.

(** A tag whose trimmed content has a single dot segment is returned as it is. *)
Lemma tagFunc_few_segments m used :
  m <> [] -> escaped m = false -> length (dot_segments m) < 2 ->
  tagFunc m used = Some (m, used).
Proof.
  intros Hne Hesc Hlen. destruct m as [|c m1]; [congruence|].
  unfold tagFunc. simpl in Hesc. rewrite Hesc.
  destruct (length (FindStringSubmatch tagsToGo (c :: m1)) <? 3); [reflexivity|].
  unfold dot_segments, tag_content in Hlen.
  destruct (Split _ _) as [|p0 [|p1 ps]]; try reflexivity.
  simpl in Hlen. lia.
Qed.

Lemma split_nonempty s sep : Split s sep <> [].
Proof.
  destruct s as [|c s]; simpl; [discriminate|].
  destruct (byte_eqb c sep); [discriminate|]. destruct (Split s sep); discriminate.
Qed.

(** A tag with two non-empty leading segments is turned into the directive
    of the two capitalized segments, passed through the Fallback Expander. *)
Lemma tagFunc_two_segments m used n0 nr k0 kr more :
  escaped m = false ->
  dot_segments m = (n0 :: nr) :: (k0 :: kr) :: more ->
  tagFunc m used =
    Some (replaceTemplateFallback (directive (ToUpper1 n0 ++ nr) (ToUpper1 k0 ++ kr)),
          record_used (ToUpper1 n0 ++ nr) (ToUpper1 k0 ++ kr) used).
Proof.
  intros Hesc Hseg. destruct m as [|c m1].
  - vm_compute in Hseg. discriminate.
  - unfold tagFunc. simpl in Hesc. rewrite Hesc.
    unfold dot_segments, tag_content in Hseg.
    destruct (submatch_length_tagsToGo (c :: m1)) as [H0|H4].
    + destruct (FindStringSubmatch tagsToGo (c :: m1)); [|discriminate].
      vm_compute in Hseg. discriminate.
    + rewrite H4. cbn [Nat.ltb Nat.leb]. rewrite Hseg. reflexivity.
Qed.

(** ** The Fallback Expander *)


Lemma SplitN2_no_sep s sep : Contains_byte s sep = false -> SplitN2 s sep = [s].
Proof.
  unfold Contains_byte. induction s as [|c s IH]; simpl; [reflexivity|].
  intros H. apply orb_false_iff in H as [Hc Hs].
  assert (Hc' : byte_eqb c sep = false).
  { apply byte_eqb_neq. intros ->. rewrite byte_eqb_refl in Hc. discriminate. }
  rewrite Hc', (IH Hs). reflexivity.
Qed.

Lemma Contains_byte_app s t c :
  Contains_byte (s ++ t) c = Contains_byte s c || Contains_byte t c.
Proof. unfold Contains_byte. apply existsb_app. Qed.

Lemma strip_delims (a b c : bytes) :
  length a = 2 -> length c = 2 ->
  firstn (length (a ++ b ++ c) - 4) (skipn 2 (a ++ b ++ c)) = b.
Proof.
  intros Ha Hc. rewrite <- Ha at 2. rewrite drop_app_length.
  rewrite !length_app, Ha, Hc.
  replace (2 + (length b + 2) - 4) with (length b) by lia.
  apply take_app_length.
Qed.

Lemma directive_split ns key :
  directive ns key = lit "{{" ++ (lit "." ++ ns ++ lit "." ++ key) ++ lit "}}".
Proof.
  unfold directive. cbn [lit list_ascii_of_string app].
  rewrite <- app_assoc. reflexivity.
Qed.

Lemma directive_body ns key :
  firstn (length (directive ns key) - 4) (skipn 2 (directive ns key))
  = lit "." ++ ns ++ lit "." ++ key.
Proof. rewrite directive_split. apply strip_delims; reflexivity. Qed.

Lemma replaceTemplateFallback_no_comma ns key :
  Contains_byte ns "," = false -> Contains_byte key "," = false ->
  replaceTemplateFallback (directive ns key) = directive ns key.
Proof.
  intros Hn Hk. unfold replaceTemplateFallback.
  destruct (lower_contains_fallback (directive ns key)); [|reflexivity].
  cbn [negb]. rewrite directive_body, SplitN2_no_sep; [reflexivity|].
  cbn [lit list_ascii_of_string app]. 
  change ("."%char :: ns ++ "."%char :: key) with (["."%char] ++ ns ++ ["."%char] ++ key).
  rewrite !Contains_byte_app, Hn, Hk. reflexivity.
Qed.

Lemma byte_eqb_sym a b : byte_eqb a b = byte_eqb b a.
Proof. apply Ascii.eqb_sym. Qed.

Lemma matches_Lit l w : matches (Lit l) w -> w = l.
Proof.
  revert w; induction l as [|c l IH]; intros w H; simpl in H.
  - inversion H. reflexivity.
  - inversion H as [| |r1 r2 w1 w2 H1 H2| | | | |]; subst.
    inversion H1 as [|p c' Hp| | | | | |]; subst.
    apply byte_eqb_eq in Hp as <-. simpl. f_equal. apply IH, H2.
Qed.



(** ** The claims on the two passes of the transpiler *)

Lemma scan_decompose re s before sub after :
  segments re s = before ++ Tag sub :: after ->
  s = flat_map seg_text before ++ whole sub ++ flat_map seg_text after.
Proof.
  intros H. rewrite <- (segments_text re s) at 1. rewrite H, flat_map_app. reflexivity.
Qed.

Lemma ToUpper1_ascii c : nat_of_ascii c < 128 -> ToUpper1 c = [to_upper_byte c].
Proof. intros H. unfold ToUpper1. apply Nat.ltb_lt in H. rewrite H. reflexivity. Qed.



(** C1. The first character of a segment is not put in upper case when
    it takes more than one byte.  The callback slices one byte off the
    segment ([tagParts[i][0:1]]); alone, that byte is not valid UTF-8, and
    [strings.ToUpper] turns it into U+FFFD.  The rest of the character's
    bytes stay where they were, behind the replacement character, and the
    namespace is recorded in that form.  With the ASCII letter in place of
    the accented one the tag becomes the directive of the capitalized
    segments. *)
Lemma C1_multibyte_first_character_mangled :
  prepareTemplateTags (lit "Hello {%" ++ e_acute ++ lit "lan.x%}")
  = Some (lit "Hello {{." ++ replacement_char ++ "169"%char :: lit "lan.X}}",
          {[ replacement_char ++ "169"%char :: lit "lan" := [lit "X"] ]})
  /\ prepareTemplateTags (lit "Hello {%elan.x%}")
     = Some (lit "Hello {{.Elan.X}}", {[ lit "Elan" := [lit "X"] ]}).
Proof. split; vm_compute; reflexivity. Qed.

Lemma unescape_output m used :
  m <> [] -> escaped m = true -> tagFunc m used = Some (unescape m, used).
Proof.
  intros Hne Hesc. destruct m as [|c m1]; [congruence|].
  unfold unescape. rewrite Hesc. simpl in Hesc. apply byte_eqb_eq in Hesc as ->.
  reflexivity.
Qed.

(** C3 (amended). Every tag the scanner finds whose trimmed content has
    fewer than two dot-separated segments is left as it is, whatever comma
    clauses it carries: the output holds the tag's own text (without its
    escape character, if it has one), nothing is recorded in the Variable
    Index for it, and the callback does not panic on it. *)
Theorem C3_few_segments_tag_unchanged
    (body : bytes) (before after : list segment) (sub : list bytes) :
  segments tagsToGo (escapeGoPass body) = before ++ Tag sub :: after ->
  length (dot_segments (whole sub)) < 2 ->
  escapeGoPass body = flat_map seg_text before ++ whole sub ++ flat_map seg_text after
  /\ tag_ref (whole sub) = None
  /\ prepareTemplateTags body =
       match replace_segments tagFunc before ∅ with
       | None => None
       | Some (o1, u1) =>
           match replace_segments tagFunc after u1 with
           | None => None
           | Some (o2, u2) => Some (o1 ++ unescape (whole sub) ++ o2, u2)
           end
       end.
Proof.
  intros Hscan Hlen. split; [eapply scan_decompose; exact Hscan|].
  assert (Hne : whole sub <> []).
  { apply (tag_nonempty (escapeGoPass body)). rewrite Hscan. apply in_elt. }
  split.
  - unfold tag_ref. destruct (escaped (whole sub)); [reflexivity|].
    destruct (dot_segments (whole sub)) as [|p0 [|p1 ps]]; try reflexivity.
    + destruct p0; reflexivity.
    + cbn [length] in Hlen. lia.
  - unfold prepareTemplateTags, tagsPass, ReplaceAllStringFuncM.
    rewrite Hscan, replace_segments_tag.
    destruct (replace_segments tagFunc before ∅) as [[o1 u1]|]; [|reflexivity].
    destruct (escaped (whole sub)) eqn:Hesc.
    + rewrite (unescape_output _ _ Hne Hesc). reflexivity.
    + rewrite (tagFunc_few_segments _ _ Hne Hesc Hlen).
      unfold unescape. rewrite Hesc. reflexivity.
Qed.

Lemma C3_witness :
  let body := lit "Hello {%Test,fallback=foo,another%}" in
  let sub := [lit "{%Test,fallback=foo,another%}"; lit "{%";
              lit "Test,fallback=foo,another"; lit "%}"] in
  segments tagsToGo (escapeGoPass body) = [Gap (lit "Hello ")] ++ Tag sub :: [Gap []]
  /\ length (dot_segments (whole sub)) < 2
  /\ prepareTemplateTags body = Some (body, ∅).
Proof.
  cbv zeta.
  assert (Hscan : segments tagsToGo (escapeGoPass (lit "Hello {%Test,fallback=foo,another%}"))
                  = [Gap (lit "Hello ")]
                      ++ Tag [lit "{%Test,fallback=foo,another%}"; lit "{%";
                              lit "Test,fallback=foo,another"; lit "%}"]
                      :: [Gap []]) by (vm_compute; reflexivity).
  assert (Hlen : length (dot_segments (whole [lit "{%Test,fallback=foo,another%}"; lit "{%";
                              lit "Test,fallback=foo,another"; lit "%}"])) < 2)
    by (vm_compute; lia).
  split; [exact Hscan|]. split; [exact Hlen|].
  destruct (C3_few_segments_tag_unchanged _ _ _ _ Hscan Hlen) as (_ & _ & ->).
  vm_compute. reflexivity.
Defined.

(** C3, as stated, fails: a tag with two dot segments, a fallback clause
    and two more comma clauses is not left as it is; it becomes the
    conditional whose fallback text holds the further clauses. *)
Lemma C3_counterexample_extra_clauses :
  option_map fst (prepareTemplateTags (lit "Hello {%a.b,fallback=foo,another,more%}"))
    = Some (lit "Hello {{if .A.B}}{{.A.B}}{{else}}foo,another,more{{end}}")
  /\ bytes_eqb (lit "Hello {{if .A.B}}{{.A.B}}{{else}}foo,another,more{{end}}")
               (lit "Hello {%a.b,fallback=foo,another,more%}") = false.
Proof. split; vm_compute; reflexivity. Qed.

(** C4. Every tag the scanner finds whose opening delimiter follows a
    backslash is put out without the backslash and otherwise as it is, and
    nothing is recorded in the Variable Index for it: the index built from
    the text before the tag is the one the text after it starts from. *)
Theorem C4_escaped_tag_kept_literal
    (body : bytes) (before after : list segment) (sub : list bytes) (m1 : bytes) :
  segments tagsToGo (escapeGoPass body) = before ++ Tag sub :: after ->
  whole sub = backslash :: m1 ->
  escapeGoPass body = flat_map seg_text before ++ backslash :: m1 ++ flat_map seg_text after
  /\ tag_ref (whole sub) = None
  /\ prepareTemplateTags body =
       match replace_segments tagFunc before ∅ with
       | None => None
       | Some (o1, u1) =>
           match replace_segments tagFunc after u1 with
           | None => None
           | Some (o2, u2) => Some (o1 ++ m1 ++ o2, u2)
           end
       end.
Proof.
  intros Hscan Hm. split; [|split].
  - rewrite (scan_decompose _ _ _ _ _ Hscan), Hm. reflexivity.
  - rewrite Hm. reflexivity.
  - unfold prepareTemplateTags, tagsPass, ReplaceAllStringFuncM.
    rewrite Hscan, replace_segments_tag, Hm.
    destruct (replace_segments tagFunc before ∅) as [[o1 u1]|]; [|reflexivity].
    rewrite tagFunc_escaped. reflexivity.
Qed.

Lemma C4_witness :
  let body := lit "this is a test \{% template.tag %} and another one {% t.fe %} and done" in
  let sub := [lit "\{% template.tag %}"; lit "{%"; lit " template.tag "; lit "%}"] in
  let after := [Gap (lit " and another one ");
                Tag [lit "{% t.fe %}"; lit "{%"; lit " t.fe "; lit "%}"];
                Gap (lit " and done")] in
  segments tagsToGo (escapeGoPass body) = [Gap (lit "this is a test ")] ++ Tag sub :: after
  /\ whole sub = backslash :: lit "{% template.tag %}"
  /\ prepareTemplateTags body
     = Some (lit "this is a test {% template.tag %} and another one {{.T.Fe}} and done",
             {[ lit "T" := [lit "Fe"] ]}).
Proof.
  cbv zeta.
  assert (Hscan : segments tagsToGo (escapeGoPass
             (lit "this is a test \{% template.tag %} and another one {% t.fe %} and done"))
           = [Gap (lit "this is a test ")]
               ++ Tag [lit "\{% template.tag %}"; lit "{%"; lit " template.tag "; lit "%}"]
               :: [Gap (lit " and another one ");
                   Tag [lit "{% t.fe %}"; lit "{%"; lit " t.fe "; lit "%}"];
                   Gap (lit " and done")]) by (vm_compute; reflexivity).
  split; [exact Hscan|]. split; [reflexivity|].
  destruct (C4_escaped_tag_kept_literal _ _ _ _ _ Hscan eq_refl) as (_ & _ & ->).
  vm_compute. reflexivity.
Defined.




(** ** The Variable Index *)


Lemma bytes_eqb_refl x : bytes_eqb x x = true.
Proof. apply bytes_eqb_eq. reflexivity. Qed.

Lemma bytes_eqb_neq x y : bytes_eqb x y = false <-> x <> y.
Proof.
  split.
  - intros H ->. rewrite bytes_eqb_refl in H. discriminate.
  - intros H. destruct (bytes_eqb x y) eqn:E; [|reflexivity].
    apply bytes_eqb_eq in E. contradiction.
Qed.

Lemma record_used_lookup n k used ns :
  record_used n k used !! ns =
  if bytes_eqb ns n then Some (add_key (default [] (used !! n)) k) else used !! ns.
Proof.
  unfold record_used, add_key.
  destruct (used !! n) as [l|] eqn:Hl.
  - rewrite Hl. change (default [] (Some l)) with l.
    destruct (InStringSlice l k); cbn [negb];
      destruct (bytes_eqb ns n) eqn:E;
      try (apply bytes_eqb_eq in E as ->); try (apply bytes_eqb_neq in E).
    + exact Hl.
    + reflexivity.
    + apply lookup_insert_eq.
    + apply lookup_insert_ne. congruence.
  - rewrite lookup_insert_eq. change (default [] (Some [])) with (@nil bytes).
    change (default [] None) with (@nil bytes).
    cbn [InStringSlice existsb negb app].
    destruct (bytes_eqb ns n) eqn:E;
      try (apply bytes_eqb_eq in E as ->); try (apply bytes_eqb_neq in E).
    + apply lookup_insert_eq.
    + rewrite !lookup_insert_ne by congruence. reflexivity.
Qed.

(** What the callback does to the index is what the tag refers to. *)
Lemma tagFunc_index m used out used' :
  tagFunc m used = Some (out, used') ->
  used' = match tag_ref m with
          | Some (n, k) => record_used n k used
          | None => used
          end.
Proof.
  destruct m as [|c m1]; [discriminate|].
  unfold tagFunc, tag_ref, dot_segments, tag_content. cbn [escaped].
  destruct (byte_eqb c backslash); [intros [= _ <-]; reflexivity|].
  destruct (submatch_length_tagsToGo (c :: m1)) as [H0|H4].
  - destruct (FindStringSubmatch tagsToGo (c :: m1)); [|discriminate].
    cbn [length Nat.ltb Nat.leb]. intros [= _ <-]. reflexivity.
  - rewrite H4. cbn [Nat.ltb Nat.leb].
    destruct (Split _ _) as [|p0 [|p1 ps]]; try (intros [= _ <-]; reflexivity).
    + intros [= _ <-]. destruct p0; reflexivity.
    + destruct p0 as [|n0 nr]; [discriminate|]. destruct p1 as [|k0 kr]; [discriminate|].
      cbn [capitalize]. intros [= _ <-]. reflexivity.
Qed.

Lemma keys_of_app ns l1 l2 : keys_of ns (l1 ++ l2) = keys_of ns l1 ++ keys_of ns l2.
Proof.
  induction l1 as [|[n k] l1 IH]; simpl; [reflexivity|].
  destruct (bytes_eqb ns n); simpl; rewrite IH; reflexivity.
Qed.

(** The entry of a namespace after the scan of [segs]: the keys of the
    tags that refer to it, added one by one. *)
Lemma replace_segments_index segs used out used' :
  replace_segments tagFunc segs used = Some (out, used') ->
  forall ns,
    used' !! ns =
    match keys_of ns (tag_refs (flat_map seg_tags segs)) with
    | [] => used !! ns
    | ks => Some (fold_left add_key ks (default [] (used !! ns)))
    end.
Proof.
  revert used out used'. induction segs as [|[t|sub] segs IH]; intros used out used' H ns.
  - injection H as _ <-. reflexivity.
  - simpl in H. destruct (replace_segments tagFunc segs used) as [[o u]|] eqn:Hr; [|discriminate].
    injection H as _ <-. simpl. apply (IH _ _ _ Hr).
  - simpl in H. destruct (tagFunc (whole sub) used) as [[o u1]|] eqn:Hf; [|discriminate].
    destruct (replace_segments tagFunc segs u1) as [[o2 u2]|] eqn:Hr; [|discriminate].
    injection H as _ <-. rewrite (IH _ _ _ Hr ns).
    apply tagFunc_index in Hf. cbn [flat_map seg_tags app tag_refs].
    destruct (tag_ref (whole sub)) as [[n k]|]; [|subst u1; reflexivity].
    subst u1. cbn [keys_of]. rewrite record_used_lookup.
    destruct (bytes_eqb ns n) eqn:E.
    + apply bytes_eqb_eq in E as ->. cbn [default fold_left].
      destruct (keys_of n (tag_refs (flat_map seg_tags segs))); reflexivity.
    + reflexivity.
Qed.

Lemma filter_filter_imp {A} (P Q : A -> bool) l :
  (forall x, P x = true -> Q x = true) ->
  List.filter P (List.filter Q l) = List.filter P l.
Proof.
  intros H. induction l as [|x l IH]; simpl; [reflexivity|].
  destruct (Q x) eqn:Hq; simpl.
  - destruct (P x); rewrite IH; reflexivity.
  - destruct (P x) eqn:Hp; [|exact IH]. apply H in Hp. congruence.
Qed.

Lemma filter_ext_bool {A} (P Q : A -> bool) l :
  (forall x, P x = Q x) -> List.filter P l = List.filter Q l.
Proof.
  intros H. induction l as [|x l IH]; simpl; [reflexivity|]. rewrite H, IH. reflexivity.
Qed.

Lemma filter_and {A} (P Q : A -> bool) l :
  List.filter (fun x => P x && Q x) l = List.filter P (List.filter Q l).
Proof.
  induction l as [|x l IH]; simpl; [reflexivity|].
  destruct (Q x); simpl; destruct (P x); simpl; rewrite ?IH; reflexivity.
Qed.

Lemma InStringSlice_app l1 l2 x :
  InStringSlice (l1 ++ l2) x = InStringSlice l1 x || InStringSlice l2 x.
Proof. unfold InStringSlice. apply existsb_app. Qed.

(** Adding keys one by one, skipping the ones already there, keeps the
    list and appends the new keys at their first place. *)
Lemma fold_add_key ks l0 :
  fold_left add_key ks l0
  = l0 ++ List.filter (fun y => negb (InStringSlice l0 y)) (first_seen ks).
Proof.
  revert l0; induction ks as [|k ks IH]; intros l0; cbn [fold_left first_seen List.filter].
  - symmetry. apply app_nil_r.
  - rewrite IH. unfold add_key. destruct (InStringSlice l0 k) eqn:Hk; cbn [negb].
    + f_equal. symmetry. apply filter_filter_imp. intros x Hx.
      apply negb_true_iff. apply bytes_eqb_neq. intros ->.
      apply negb_true_iff in Hx. congruence.
    + rewrite <- app_assoc. cbn [app]. f_equal. f_equal.
      rewrite <- filter_and. apply filter_ext_bool. intros x.
      rewrite InStringSlice_app, negb_orb. f_equal.
      unfold InStringSlice. cbn [existsb]. rewrite orb_false_r.
      destruct (bytes_eqb x k) eqn:E.
      * apply bytes_eqb_eq in E as ->. rewrite bytes_eqb_refl. reflexivity.
      * apply bytes_eqb_neq in E. symmetry. apply negb_true_iff, bytes_eqb_neq. congruence.
Qed.

Lemma fold_add_key_nil ks : fold_left add_key ks [] = first_seen ks.
Proof.
  rewrite fold_add_key. cbn [app].
  rewrite (filter_ext_bool _ (fun _ => true)) by reflexivity.
  induction (first_seen ks) as [|x l IH]; cbn [List.filter]; [reflexivity|].
  rewrite IH. reflexivity.
Qed.

Lemma first_seen_In l x : In x (first_seen l) <-> In x l.
Proof.
  induction l as [|y l IH]; simpl; [tauto|].
  rewrite filter_In, IH. split.
  - intros [H|[H _]]; auto.
  - intros [H|H]; [auto|].
    destruct (bytes_eqb y x) eqn:E.
    + apply bytes_eqb_eq in E. auto.
    + right. split; [exact H|reflexivity].
Qed.



Lemma keys_of_In ns k refs : In k (keys_of ns refs) <-> In (ns, k) refs.
Proof.
  induction refs as [|[n k'] refs IH]; simpl; [tauto|].
  destruct (bytes_eqb ns n) eqn:E.
  - apply bytes_eqb_eq in E as ->. simpl. rewrite IH. split.
    + intros [->|H]; auto.
    + intros [[= ->]|H]; auto.
  - apply bytes_eqb_neq in E. rewrite IH. split; [auto|].
    intros [[= -> ->]|H]; [contradiction|exact H].
Qed.



(** The index the transpiler returns is the one the specification
    describes; in particular no key is listed twice. *)
Lemma prepare_index_spec body out idx :
  prepareTemplateTags body = Some (out, idx) ->
  forall ns, idx !! ns = index_spec body ns.
Proof.
  intros H ns.
  unfold prepareTemplateTags, tagsPass, ReplaceAllStringFuncM in H.
  pose proof (replace_segments_index _ _ _ _ H ns) as Hidx.
  rewrite lookup_empty in Hidx. cbn [default] in Hidx.
  rewrite Hidx. unfold index_spec, referenced, tag_texts.
  destruct (keys_of ns _) as [|k ks] eqn:Hk; [reflexivity|].
  rewrite fold_add_key_nil. reflexivity.
Qed.


(** ** The Resolver *)








Section ResolverFacts.
Context {Ctx : Type}.
Variable ctx : Ctx.
Variable parentKeys : Keys.
Variable used : usedVars.




























End ResolverFacts.

(** Every match the scan reports comes with the whole match and one
    submatch for each group. *)
Lemma find_from_sub_length r n pos inp f :
  find_from r n pos inp = Some f -> length (f_sub f) = S n.
Proof.
  revert pos; induction inp as [|c t IH]; intros pos; rewrite find_from_eq.
  - destruct (match_here r []) as [[rest cs]|]; [|discriminate].
    intros [= <-]. cbn [f_sub submatches length]. rewrite length_map, length_seq. reflexivity.
  - destruct (match_here r (c :: t)) as [[rest cs]|]; [|apply IH].
    intros [= <-]. cbn [f_sub submatches length]. rewrite length_map, length_seq. reflexivity.
Qed.

Lemma segments_fuel_sub_length re fuel s sub :
  In (Tag sub) (segments_fuel fuel re s) -> length sub = S (re_groups re).
Proof.
  revert s; induction fuel as [|fuel IH]; intros s; simpl.
  - destruct (find re s); simpl; intros [H|[]]; discriminate.
  - destruct (find re s) as [f|] eqn:Hf; [|simpl; intros [H|[]]; discriminate].
    destruct (f_end f =? 0); [simpl; intros [H|[]]; discriminate|].
    simpl. intros [H|[H|H]]; [discriminate| |eauto].
    injection H as <-. apply (find_from_sub_length _ _ _ _ _ Hf).
Qed.

Lemma segments_sub_length re s sub :
  In (Tag sub) (segments re s) -> length sub = S (re_groups re).
Proof. apply segments_fuel_sub_length. Qed.

(** ** The Render Adapter and the Error Translator *)

Lemma replaceVariables_error {Ctx} (ctx : Ctx) tmpl body keys parentKeys used w err :
  snd (Execute tmpl (readTree (buildParams ctx keys parentKeys used w))) = Some err ->
  replaceVariables ctx tmpl body keys parentKeys used w
  = (body, Some err, snd (buildParams ctx keys parentKeys used w)).
Proof.
  intros H. unfold replaceVariables.
  destruct (Execute tmpl _) as [o [e|]]; simpl in H; [|discriminate].
  injection H as ->. reflexivity.
Qed.

Lemma replaceVariables_ok {Ctx} (ctx : Ctx) tmpl body keys parentKeys used w :
  snd (Execute tmpl (readTree (buildParams ctx keys parentKeys used w))) = None ->
  replaceVariables ctx tmpl body keys parentKeys used w
  = (fst (Execute tmpl (readTree (buildParams ctx keys parentKeys used w))), None,
     snd (buildParams ctx keys parentKeys used w)).
Proof.
  intros H. unfold replaceVariables.
  destruct (Execute tmpl _) as [o [e|]]; simpl in H; [discriminate|]. reflexivity.
Qed.

Lemma replaceVariables_world {Ctx} (ctx : Ctx) tmpl body keys parentKeys used w :
  snd (replaceVariables ctx tmpl body keys parentKeys used w)
  = snd (buildParams ctx keys parentKeys used w).
Proof.
  unfold replaceVariables. destruct (Execute tmpl _) as [o [e|]]; reflexivity.
Qed.



(** C10. Whenever [TestSafe] returns an error, either the error is a parse
    error (of the first attempt, or of the second one after the first
    failed in execution) and the text is empty; or both attempts failed in
    execution and the last error was translated, and the text is empty; or
    both failed in execution and the last error could not be translated (it
    is no execution error, or its text does not match the pattern), and it
    is returned as it is together with the transpiled body. *)
Theorem C10_strict_error_text
    {Ctx : Type} (E : Engine) (ctx : Ctx) (body : bytes)
    (keys : list (bytes * Templateable Ctx)) (parentKeys : Keys) (w : World)
    (tb : bytes) (used : usedVars) (out : bytes) (err : error) (w' : World) :
  prepareTemplateTags body = Some (tb, used) ->
  TestSafe E ctx body keys parentKeys w = Some (out, Some err, w') ->
  (htmlParse E true tb = inr err /\ out = [])
  \/ (exists tH e1,
        htmlParse E true tb = inl tH
        /\ snd (Execute tH (readTree (buildParams ctx keys parentKeys used w))) = Some e1
        /\ textParse E true tb = inr err /\ out = [])
  \/ (exists tH tT e1 e2,
        htmlParse E true tb = inl tH
        /\ snd (Execute tH (readTree (buildParams ctx keys parentKeys used w))) = Some e1
        /\ textParse E true tb = inl tT
        /\ snd (Execute tT (readTree (buildParams ctx keys parentKeys used
                                        (snd (buildParams ctx keys parentKeys used w)))))
           = Some e2
        /\ ((exists msg v0 more,
               e2 = ExecError msg
               /\ FindAllStringSubmatch parseTemplateError msg = v0 :: more
               /\ err = Errorf (lit "unknown variable " ++ nth 2 v0 [] ++ lit " at " ++ nth 1 v0 [])
               /\ out = [])
            \/ (((exists msg, e2 = OtherError msg)
                 \/ FindAllStringSubmatch parseTemplateError (Error e2) = [])
                /\ err = e2 /\ out = tb))).
Proof.
  intros Hp H. unfold TestSafe in H. rewrite Hp in H.
  destruct (htmlParse E true tb) as [tH|eH] eqn:HH.
  2:{ injection H as <- <- _. left. split; reflexivity. }
  right.
  destruct (snd (Execute tH (readTree (buildParams ctx keys parentKeys used w))))
    as [e1|] eqn:H1.
  2:{ rewrite (replaceVariables_ok _ _ _ _ _ _ _ H1) in H. discriminate. }
  rewrite (replaceVariables_error _ _ _ _ _ _ _ _ H1) in H.
  destruct (textParse E true tb) as [tT|eT] eqn:HT.
  2:{ injection H as <- <- _. left. exists tH, e1.
      split; [reflexivity|]. split; [exact H1|]. split; reflexivity. }
  right.
  destruct (snd (Execute tT (readTree (buildParams ctx keys parentKeys used
                                         (snd (buildParams ctx keys parentKeys used w))))))
    as [e2|] eqn:H2.
  2:{ rewrite (replaceVariables_ok _ _ _ _ _ _ _ H2) in H. discriminate. }
  rewrite (replaceVariables_error _ _ _ _ _ _ _ _ H2) in H.
  exists tH, tT, e1, e2. split; [reflexivity|]. split; [exact H1|].
  split; [reflexivity|]. split; [exact H2|].
  injection H as H _. unfold translateError in H.
  destruct e2 as [msg|msg].
  - cbn [Error] in H |- *.
    destruct (FindAllStringSubmatch parseTemplateError msg) as [|v0 more] eqn:Hm.
    + injection H as <- <-. right. split; [right; reflexivity|]. split; reflexivity.
    + assert (Hlen : length v0 = 3).
      { unfold FindAllStringSubmatch in Hm.
        assert (Hin : In v0 (flat_map
                  (fun sg => match sg with Gap _ => [] | Tag sub => [sub] end)
                  (segments parseTemplateError msg))) by (rewrite Hm; left; reflexivity).
        apply in_flat_map in Hin as (sg & Hsg & Hv). destruct sg as [t|sub]; [destruct Hv|].
        destruct Hv as [->|[]]. apply (segments_sub_length _ _ _ Hsg). }
      rewrite Hlen in H. cbn [Nat.ltb Nat.leb] in H. injection H as <- <-.
      left. exists msg, v0, more.
      split; [reflexivity|]. split; [exact Hm|]. split; reflexivity.
  - injection H as <- <-. right. split; [left; exists msg; reflexivity|]. split; reflexivity.
Qed.

Lemma C10_witness :
  let body := lit "Hello {% asd.zxc %}" in
  let msg := missing_key_message (lit "1:8") (lit "Asd.Zxc") (lit "Asd") in
  let E := failingEngine (ExecError msg) in
  let tb := lit "Hello {{.Asd.Zxc}}" in
  let err := Errorf (lit "unknown variable Asd at Asd.Zxc") in
  prepareTemplateTags body = Some (tb, {[ lit "Asd" := [lit "Zxc"] ]})
  /\ TestSafe E tt body [] None (newWorld ∅) = Some ([], Some err, newWorld ∅)
  /\ (@nil ascii = [] \/ @nil ascii = tb).
Proof.
  cbv zeta.
  assert (Hp : prepareTemplateTags (lit "Hello {% asd.zxc %}")
               = Some (lit "Hello {{.Asd.Zxc}}", {[ lit "Asd" := [lit "Zxc"] ]}))
    by (vm_compute; reflexivity).
  assert (Hr : TestSafe
                 (failingEngine (ExecError (missing_key_message (lit "1:8") (lit "Asd.Zxc") (lit "Asd"))))
                 tt (lit "Hello {% asd.zxc %}") [] None (newWorld ∅)
               = Some ([], Some (Errorf (lit "unknown variable Asd at Asd.Zxc")), newWorld ∅))
    by (vm_compute; reflexivity).
  split; [exact Hp|]. split; [exact Hr|].
  destruct (C10_strict_error_text _ tt _ [] None _ _ _ _ _ _ Hp Hr)
    as [[_ Ho]|[(tH & e1 & _ & _ & _ & Ho)|(tH & tT & e1 & e2 & _ & _ & _ & _ & Hc)]].
  - left. exact Ho.
  - left. exact Ho.
  - destruct Hc as [(m & v0 & more & _ & _ & _ & Ho)|(_ & _ & Ho)].
    + left. exact Ho.
    + right. exact Ho.
Defined.

(** ** The calls a render call makes *)








(** The values of the callbacks are written into the map the capability
    returned.  When two namespaces get the same kept map, each entry of the
    tree shows the values set for the other; and a kept map still holds the
    values after the render call. *)
Lemma shared_bulk_map_mixes_entries :
  let cap := TestKeys (Some (Held 0)) in
  let keys := [(lit "A", cap); (lit "B", cap)] in
  let used := snd (default ([], ∅) (prepareTemplateTags (lit "{%a.useit%} {%b.uSEIT%}"))) in
  let built := buildParams tt keys None used (newWorld {[ 0 := ∅ ]}) in
  used !! lit "A" = Some [lit "Useit"]
  /\ used !! lit "B" = Some [lit "USEIT"]
  /\ default ∅ (readTree built !! lit "A") !! lit "USEIT" = Some (VString (lit "cb value"))
  /\ default ∅ (w_store (snd built) !! 0) !! lit "Useit" = Some (VString (lit "cb value")).
Proof. cbv zeta. repeat split; vm_compute; reflexivity. Qed.

(** ** The fallback clause of a tag *)

(** C2. The fallback text of a tag is cut at its first dot: the callback
    splits the whole content of the tag on dots and keeps two segments, so
    what follows a dot in the fallback text never reaches the Fallback
    Expander.  The expander alone keeps the dot. *)
Lemma C2_fallback_text_cut_at_dot :
  option_map fst (prepareTemplateTags
    (lit "Thank you {%inbox.name,fallback=for writing. We respond shortly%}"))
  = Some (lit "Thank you {{if .Inbox.Name}}{{.Inbox.Name}}{{else}}for writing{{end}}")
  /\ replaceTemplateFallback (lit "{{.Inbox.Name,fallback=for writing. We respond shortly}}")
     = lit "{{if .Inbox.Name}}{{.Inbox.Name}}{{else}}for writing. We respond shortly{{end}}".
Proof. split; vm_compute; reflexivity. Qed.

(** The expander removes every fallback marker of the clause, not only the
    first: a marker inside the fallback text is lost with the white space
    before it. *)
Lemma fallback_text_inner_marker_removed :
  replaceTemplateFallback (lit "{{.Inbox.Name,fallback=use fallback=none}}")
  = lit "{{if .Inbox.Name}}{{.Inbox.Name}}{{else}}usenone{{end}}".
Proof. vm_compute. reflexivity. Qed.

(** ** When the transpiler panics *)

Lemma tagFunc_panics m used :
  m <> [] -> (tagFunc m used = None <-> tag_panics m = true).
Proof.
  intros Hne. destruct m as [|c m1]; [congruence|].
  unfold tagFunc, tag_panics, dot_segments, tag_content. cbn [escaped].
  destruct (byte_eqb c backslash); cbn [negb andb]; [split; discriminate|].
  destruct (submatch_length_tagsToGo (c :: m1)) as [H0|H4].
  - destruct (FindStringSubmatch tagsToGo (c :: m1)); [|discriminate].
    cbn [length Nat.ltb Nat.leb]. split; [discriminate|]. vm_compute. discriminate.
  - rewrite H4. cbn [Nat.ltb Nat.leb].
    destruct (Split _ _) as [|p0 [|p1 ps]]; try (split; discriminate).
    + destruct p0; split; discriminate.
    + destruct p0 as [|n0 nr]; cbn [capitalize]; [split; reflexivity|].
      destruct p1 as [|k0 kr]; cbn [capitalize]; split; (reflexivity || discriminate).
Qed.

Lemma replace_segments_panics segs used :
  (forall sub, In (Tag sub) segs -> whole sub <> []) ->
  (replace_segments tagFunc segs used = None
   <-> existsb tag_panics (flat_map seg_tags segs) = true).
Proof.
  revert used; induction segs as [|[t|sub] segs IH]; intros used Hne.
  - simpl. split; discriminate.
  - cbn [replace_segments flat_map seg_tags app].
    rewrite <- (IH used) by (intros s Hs; apply Hne; right; exact Hs).
    destruct (replace_segments tagFunc segs used) as [[o u]|]; split; congruence.
  - cbn [replace_segments flat_map seg_tags app existsb].
    assert (Hm : whole sub <> []) by (apply Hne; left; reflexivity).
    destruct (tagFunc (whole sub) used) as [[o u1]|] eqn:Hf.
    + assert (Hp : tag_panics (whole sub) = false).
      { destruct (tag_panics (whole sub)) eqn:Hp; [|reflexivity].
        apply (tagFunc_panics _ used Hm) in Hp. congruence. }
      rewrite Hp. cbn [orb].
      rewrite <- (IH u1) by (intros s Hs; apply Hne; right; exact Hs).
      destruct (replace_segments tagFunc segs u1) as [[o2 u2]|]; split; congruence.
    + apply (tagFunc_panics _ used Hm) in Hf. rewrite Hf. split; reflexivity.
Qed.

(** X3. The transpiler panics exactly on the texts with an unescaped tag of
    two segments or more whose first or second segment is empty: there the
    callback slices the first byte off an empty string. *)
Lemma prepareTemplateTags_panics body :
  prepareTemplateTags body = None
  <-> existsb tag_panics (tag_texts (escapeGoPass body)) = true.
Proof.
  unfold prepareTemplateTags, tagsPass, ReplaceAllStringFuncM, tag_texts.
  apply replace_segments_panics. intros sub Hs. apply (tag_nonempty _ _ Hs).
Qed.

Lemma prepareTemplateTags_panic_example :
  prepareTemplateTags (lit "Hello {%inbox.%}") = None.
Proof. vm_compute. reflexivity. Qed.

(** ** Running the matcher on a known text *)

Section RunCompute.
Context {R : Type}.
Implicit Types (k : bytes -> caps -> option R).

(** The matcher only looks at the values of its continuation. *)
Lemma star_loop_ext step greedy :
  (forall inp cs k1 k2, (forall rest cs', k1 rest cs' = k2 rest cs') ->
     step inp cs k1 = step inp cs k2) ->
  forall fuel inp cs k1 k2, (forall rest cs', k1 rest cs' = k2 rest cs') ->
    star_loop step greedy k1 fuel inp cs = star_loop step greedy k2 fuel inp cs.
Proof.
  intros Hstep fuel. induction fuel as [|fuel IH]; intros inp cs k1 k2 Hk; cbn [star_loop].
  - rewrite (Hk inp cs). reflexivity.
  - rewrite (Hk inp cs).
    rewrite (Hstep inp cs _
      (fun rest cs' => if length rest <? length inp
                       then star_loop step greedy k2 fuel rest cs' else None)).
    + reflexivity.
    + intros rest cs'. destruct (length rest <? length inp); [|reflexivity].
      apply IH, Hk.
Qed.

Lemma run_ext r :
  forall inp cs k1 k2, (forall rest cs', k1 rest cs' = k2 rest cs') ->
    run r inp cs k1 = run r inp cs k2.
Proof.
  induction r as [|p|r1 IH1 r2 IH2|r1 IH1 r2 IH2|g r IH|n r IH];
    intros inp cs k1 k2 Hk; cbn [run].
  - apply Hk.
  - destruct inp as [|c t]; [reflexivity|]. destruct (p c); [apply Hk|reflexivity].
  - apply IH1. intros rest cs'. apply IH2, Hk.
  - rewrite (IH1 inp cs k1 k2 Hk), (IH2 inp cs k1 k2 Hk). reflexivity.
  - apply star_loop_ext; [exact IH|exact Hk].
  - apply IH. intros rest cs'. apply Hk.
Qed.

Lemma run_fail_cont r inp cs (k' : bytes -> caps -> option R) :
  (forall rest cs', k' rest cs' = None) -> run r inp cs k' = None.
Proof.
  intros Hk. destruct (run r inp cs k') eqn:E; [|reflexivity].
  apply run_sound in E as (w & rest & cs' & _ & _ & E). rewrite Hk in E. discriminate.
Qed.

(** The loop does not depend on its fuel, once there is enough of it. *)
Lemma star_loop_fuel r greedy k fuel1 fuel2 inp cs :
  length inp <= fuel1 -> length inp <= fuel2 ->
  star_loop (run r) greedy k fuel1 inp cs = star_loop (run r) greedy k fuel2 inp cs.
Proof.
  revert fuel2 inp cs. induction fuel1 as [|fuel1 IH]; intros fuel2 inp cs H1 H2.
  - destruct fuel2 as [|fuel2]; [reflexivity|]. cbn [star_loop].
    rewrite (run_fail_cont r inp cs); [reflexivity|].
    intros rest cs'. destruct (length rest <? length inp) eqn:E; [|reflexivity].
    apply Nat.ltb_lt in E. lia.
  - destruct fuel2 as [|fuel2].
    + cbn [star_loop]. rewrite (run_fail_cont r inp cs); [reflexivity|].
      intros rest cs'. destruct (length rest <? length inp) eqn:E; [|reflexivity].
      apply Nat.ltb_lt in E. lia.
    + cbn [star_loop].
      rewrite (run_ext r inp cs _
        (fun rest cs' => if length rest <? length inp
                         then star_loop (run r) greedy k fuel2 rest cs' else None)).
      * reflexivity.
      * intros rest cs'. destruct (length rest <? length inp) eqn:E; [|reflexivity].
        apply Nat.ltb_lt in E. apply IH; lia.
Qed.

(** The equation of [r*] and [r*?]. *)
Lemma run_Star greedy r inp cs k :
  run (Star greedy r) inp cs k =
  let again :=
    run r inp cs (fun rest cs' =>
      if length rest <? length inp then run (Star greedy r) rest cs' k else None) in
  if greedy then match again with Some x => Some x | None => k inp cs end
  else match k inp cs with Some x => Some x | None => again end.
Proof.
  cbv zeta. cbn [run].
  rewrite (star_loop_fuel r greedy k (length inp) (S (length inp))) by lia.
  cbn [star_loop].
  rewrite (run_ext r inp cs _
    (fun rest cs' => if length rest <? length inp
                     then star_loop (run r) greedy k (length rest) rest cs' else None)).
  - reflexivity.
  - intros rest cs'. destruct (length rest <? length inp) eqn:E; [|reflexivity].
    apply Nat.ltb_lt in E. apply star_loop_fuel; lia.
Qed.

Lemma run_Seq r1 r2 inp cs k :
  run (Seq r1 r2) inp cs k = run r1 inp cs (fun rest cs' => run r2 rest cs' k).
Proof. reflexivity. Qed.

Lemma run_Alt r1 r2 inp cs k :
  run (Alt r1 r2) inp cs k =
  match run r1 inp cs k with Some x => Some x | None => run r2 inp cs k end.
Proof. reflexivity. Qed.

Lemma run_Group n r inp cs k :
  run (Group n r) inp cs k =
  run r inp cs (fun rest cs' => k rest ((n, firstn (length inp - length rest) inp) :: cs')).
Proof. reflexivity. Qed.

Lemma run_Lit l inp cs k :
  run (Lit l) inp cs k = if has_prefix l inp then k (skipn (length l) inp) cs else None.
Proof.
  revert inp; induction l as [|a l IH]; intros inp; [reflexivity|].
  cbn [Lit run has_prefix length]. destruct inp as [|c t]; [reflexivity|].
  destruct (byte_eqb a c); cbn [andb skipn]; [apply IH|reflexivity].
Qed.

Lemma has_prefix_app l rest : has_prefix l (l ++ rest) = true.
Proof. induction l as [|a l IH]; simpl; [reflexivity|]. rewrite byte_eqb_refl. exact IH. Qed.

Lemma run_Lit_app l rest cs k : run (Lit l) (l ++ rest) cs k = k rest cs.
Proof. rewrite run_Lit, has_prefix_app, drop_app_length. reflexivity. Qed.

(** A loop over one byte class, on a text that starts with a byte of the class. *)
Lemma run_Star_Chr_cons greedy p c t cs k :
  run (Star greedy (Chr p)) (c :: t) cs k =
  let again := if p c then run (Star greedy (Chr p)) t cs k else None in
  if greedy then match again with Some x => Some x | None => k (c :: t) cs end
  else match k (c :: t) cs with Some x => Some x | None => again end.
Proof.
  rewrite run_Star. cbv zeta. cbn [run].
  replace (length t <? length (c :: t)) with true
    by (symmetry; apply Nat.ltb_lt; simpl; lia).
  reflexivity.
Qed.

Lemma run_Star_nil greedy r cs k :
  run (Star greedy r) [] cs k = k [] cs.
Proof.
  rewrite run_Star. cbv zeta. rewrite (run_fail_cont r [] cs).
  - destruct greedy; [reflexivity|]. destruct (k [] cs); reflexivity.
  - intros rest cs'. cbn [length]. destruct (length rest <? 0) eqn:E; [|reflexivity].
    apply Nat.ltb_lt in E. lia.
Qed.
End RunCompute.

(** ** The tag pattern on a tag of the plain form *)

Lemma fold_eqb_percent c : fold_eqb "%" c = byte_eqb "%" c.
Proof. destruct c as [[] [] [] [] [] [] [] []]; reflexivity. Qed.

Lemma fold_eqb_lbrace c : fold_eqb "{" c = byte_eqb "{" c.
Proof. destruct c as [[] [] [] [] [] [] [] []]; reflexivity. Qed.

Lemma fold_eqb_rbrace c : fold_eqb "}" c = byte_eqb "}" c.
Proof. destruct c as [[] [] [] [] [] [] [] []]; reflexivity. Qed.

Section TagPattern.
Context {R : Type}.
Implicit Types (k : bytes -> caps -> option R).

Lemma run_open_nil cs k : run open_delim [] cs k = None.
Proof. reflexivity. Qed.

Lemma run_close_nil cs k : run close_delim [] cs k = None.
Proof. reflexivity. Qed.

Lemma run_open_fail c t cs k :
  c <> "{"%char -> c <> "%"%char -> run open_delim (c :: t) cs k = None.
Proof.
  intros H1 H2. unfold open_delim. cbn [run LitFold lit list_ascii_of_string].
  change (FoldChr "{") with (Chr (fold_eqb "{")).
  change (FoldChr "%") with (Chr (fold_eqb "%")).
  cbn [run]. rewrite fold_eqb_lbrace, fold_eqb_percent.
  replace (byte_eqb "{" c) with false by (symmetry; apply byte_eqb_neq; congruence).
  replace (byte_eqb "%" c) with false by (symmetry; apply byte_eqb_neq; congruence).
  reflexivity.
Qed.

Lemma run_close_fail c t cs k :
  c <> "%"%char -> run close_delim (c :: t) cs k = None.
Proof.
  intros H2. unfold close_delim. cbn [run LitFold lit list_ascii_of_string].
  change (FoldChr "%") with (Chr (fold_eqb "%")).
  cbn [run]. rewrite fold_eqb_percent.
  replace (byte_eqb "%" c) with false by (symmetry; apply byte_eqb_neq; congruence).
  reflexivity.
Qed.

Lemma run_open_brace rest cs k :
  run open_delim ("{" :: "%" :: rest)%char cs k = k rest cs.
Proof.
  unfold open_delim. cbn [run LitFold lit list_ascii_of_string].
  change (FoldChr "{") with (Chr (fold_eqb "{")).
  change (FoldChr "%") with (Chr (fold_eqb "%")).
  cbn [run]. change (fold_eqb "{" "{") with true. change (fold_eqb "%" "%") with true.
  change (fold_eqb "%" "{") with false. cbn iota.
  destruct (k rest cs); reflexivity.
Qed.

Lemma run_close_brace rest cs k :
  run close_delim ("%" :: "}" :: rest)%char cs k = k rest cs.
Proof.
  unfold close_delim. cbn [run LitFold lit list_ascii_of_string].
  change (FoldChr "}") with (Chr (fold_eqb "}")).
  change (FoldChr "%") with (Chr (fold_eqb "%")).
  change (FoldChr "2") with (Chr (fold_eqb "2")).
  cbn [run]. change (fold_eqb "}" "}") with true. change (fold_eqb "%" "%") with true.
  change (fold_eqb "2" "}") with false. cbn iota.
  destruct (k rest cs); reflexivity.
Qed.

(** A close delimiter closes the tag when no further one follows. *)
Lemma run_closers_once rest cs k :
  match rest with c :: _ => c <> "%"%char | [] => True end ->
  run (Plus true (Group 3 close_delim)) ("%" :: "}" :: rest)%char cs k
  = k rest ((3, lit "%}") :: cs).
Proof.
  intros Hrest. unfold Plus. rewrite run_Seq, run_Group, run_close_brace.
  replace (firstn (length ("%" :: "}" :: rest)%char - length rest) ("%" :: "}" :: rest)%char)
    with (lit "%}").
  2:{ symmetry. apply (firstn_app_exact (lit "%}") rest). }
  rewrite run_Star. cbv zeta. rewrite run_Group.
  destruct rest as [|c t].
  - rewrite run_close_nil. reflexivity.
  - rewrite run_close_fail by exact Hrest. reflexivity.
Qed.

Lemma run_closers_fail c t cs k :
  c <> "%"%char -> run (Plus true (Group 3 close_delim)) (c :: t) cs k = None.
Proof. intros H. unfold Plus. rewrite run_Seq, run_Group. apply run_close_fail, H. Qed.

(** The lazy content group stops at the first place where what follows
    matches. *)
Lemma run_lazy_group n w tail cs k x :
  Contains_byte w nl = false ->
  (forall c t cs', In c w -> k (c :: t) cs' = None) ->
  k tail ((n, w) :: cs) = Some x ->
  run (Group n (Star false Dot)) (w ++ tail) cs k = Some x.
Proof.
  intros Hnl Hfail Hk. rewrite run_Group.
  set (K := fun rest cs' =>
              k rest ((n, firstn (length (w ++ tail) - length rest) (w ++ tail)) :: cs')).
  assert (G : forall w2 w1, w = w1 ++ w2 ->
              run (Star false Dot) (w2 ++ tail) cs K = Some x).
  { induction w2 as [|c w2 IH]; intros w1 Hw.
    - rewrite run_Star. cbv zeta. unfold K at 1. cbn [app].
      rewrite firstn_app_exact, Hk. reflexivity.
    - rewrite run_Star. cbv zeta. unfold K at 1. cbn [app].
      rewrite Hfail by (rewrite Hw; apply in_elt).
      unfold Dot at 1. cbn [run].
      assert (Hc : byte_eqb c nl = false).
      { rewrite Hw, Contains_byte_app in Hnl. apply orb_false_iff in Hnl as [_ Hnl].
        unfold Contains_byte in Hnl. cbn [existsb] in Hnl.
        apply orb_false_iff in Hnl as [Hnl _]. rewrite byte_eqb_sym. exact Hnl. }
      rewrite Hc. cbn [negb].
      replace (length (w2 ++ tail) <? length (c :: w2 ++ tail)) with true
        by (symmetry; apply Nat.ltb_lt; simpl; lia).
      apply (IH (w1 ++ [c])). rewrite Hw, <- app_assoc. reflexivity. }
  apply (G w []). reflexivity.
Qed.
End TagPattern.

(** The plain form: [{%], a content without [%] and line feed that does not
    start with [{], then [%}], and no [%] right after. *)
Lemma match_here_plain_tag content rest :
  Contains_byte content "%" = false ->
  Contains_byte content nl = false ->
  match content with c :: _ => c <> "{"%char | [] => True end ->
  match rest with c :: _ => c <> "%"%char | [] => True end ->
  match_here (re_expr tagsToGo) (lit "{%" ++ content ++ lit "%}" ++ rest)
  = Some (rest, [(3, lit "%}"); (2, content); (1, lit "{%")]).
Proof.
  intros Hpc Hnl Hhead Hrest. unfold match_here, tagsToGo. cbn [re_expr].
  cbn [lit list_ascii_of_string app]. unfold Opt.
  rewrite run_Seq, run_Alt.
  change (run (Chr (byte_eqb backslash)) ("{" :: "%" :: content ++ "%" :: "}" :: rest)%char [] _)
    with (@None (bytes * caps)).
  cbn [run]; fold (@run (bytes * caps)).
  unfold Plus at 1. rewrite run_Seq, run_Group, run_open_brace.
  replace (firstn (length ("{" :: "%" :: content ++ "%" :: "}" :: rest)%char
                   - length (content ++ "%" :: "}" :: rest)%char)
             ("{" :: "%" :: content ++ "%" :: "}" :: rest)%char) with (lit "{%").
  2:{ symmetry. apply (firstn_app_exact (lit "{%") (content ++ "%" :: "}" :: rest)%char). }
  rewrite run_Star. cbv zeta.
  assert (Hno : forall K : bytes -> caps -> option (bytes * caps),
            run (Group 1 open_delim) (content ++ "%" :: "}" :: rest)%char [(1, lit "{%")] K = None).
  { intros K. rewrite run_Group. destruct content as [|c t].
    - cbn [app]. unfold open_delim. cbn [run LitFold lit list_ascii_of_string].
      change (FoldChr "{") with (Chr (fold_eqb "{")).
      change (FoldChr "%") with (Chr (fold_eqb "%")).
      change (FoldChr "7") with (Chr (fold_eqb "7")).
      cbn [run]. change (fold_eqb "{" "%") with false. change (fold_eqb "%" "%") with true.
      change (fold_eqb "7" "}") with false. reflexivity.
    - cbn [app]. apply run_open_fail; [exact Hhead|].
      unfold Contains_byte in Hpc. cbn [existsb] in Hpc.
      apply orb_false_iff in Hpc as [Hpc _]. apply byte_eqb_neq in Hpc. congruence. }
  rewrite Hno.
  change (run (Group 2 (Star false Dot)) (content ++ ("%" :: "}" :: rest)%char) [(1, lit "{%")]
            (fun rest0 cs' => run (Plus true (Group 3 close_delim)) rest0 cs'
                                (fun rest1 cs0 => Some (rest1, cs0)))
          = Some (rest, [(3, lit "%}"); (2, content); (1, lit "{%")])).
  apply run_lazy_group.
  - exact Hnl.
  - intros c t cs' Hin. apply run_closers_fail. intros ->.
    assert (Contains_byte content "%" = true); [|congruence].
    unfold Contains_byte. apply existsb_exists. exists "%"%char. split; [exact Hin|reflexivity].
  - rewrite run_closers_once by exact Hrest. reflexivity.
Qed.

Lemma match_here_tag_nil : match_here (re_expr tagsToGo) [] = None.
Proof. reflexivity. Qed.

Lemma match_here_tag_free c t :
  tag_free_byte c = true -> match_here (re_expr tagsToGo) (c :: t) = None.
Proof.
  unfold tag_free_byte. intros H. apply negb_true_iff in H.
  apply orb_false_iff in H as [H H3]. apply orb_false_iff in H as [H1 H2].
  unfold match_here, tagsToGo. cbn [re_expr]. unfold Opt. rewrite run_Seq, run_Alt.
  cbn [run]. rewrite byte_eqb_sym, H1.
  unfold Plus at 1. rewrite run_Seq, run_Group.
  apply run_open_fail; apply byte_eqb_neq; assumption.
Qed.

Lemma find_from_tag_free pre n pos rest :
  tag_free pre = true ->
  find_from (re_expr tagsToGo) n pos (pre ++ rest)
  = find_from (re_expr tagsToGo) n (pos + length pre) rest.
Proof.
  revert pos; induction pre as [|c pre IH]; intros pos H.
  - cbn [app length]. rewrite Nat.add_0_r. reflexivity.
  - cbn [tag_free forallb] in H. apply andb_true_iff in H as [Hc Hp].
    cbn [app]. rewrite find_from_eq, (match_here_tag_free _ _ Hc).
    rewrite (IH (S pos) Hp). cbn [length]. f_equal. lia.
Qed.

Lemma find_tag_free s : tag_free s = true -> find tagsToGo s = None.
Proof.
  intros H. unfold find. rewrite <- (app_nil_r s), (find_from_tag_free s _ _ [] H).
  reflexivity.
Qed.

(** The scanner finds a plain tag where it stands, with its content as group 2. *)
Lemma find_plain_tag pre content rest :
  tag_free pre = true ->
  Contains_byte content "%" = false ->
  Contains_byte content nl = false ->
  match content with c :: _ => c <> "{"%char | [] => True end ->
  match rest with c :: _ => c <> "%"%char | [] => True end ->
  find tagsToGo (pre ++ lit "{%" ++ content ++ lit "%}" ++ rest)
  = Some (Found (length pre) (length pre + length (lit "{%" ++ content ++ lit "%}"))
            [lit "{%" ++ content ++ lit "%}"; lit "{%"; content; lit "%}"]).
Proof.
  intros Hpre Hpc Hnl Hhead Hrest. unfold find.
  rewrite (find_from_tag_free pre _ _ _ Hpre), find_from_eq.
  rewrite (match_here_plain_tag content rest Hpc Hnl Hhead Hrest).
  cbv zeta. cbn [Nat.add].
  replace (lit "{%" ++ content ++ lit "%}" ++ rest)
    with ((lit "{%" ++ content ++ lit "%}") ++ rest)
    by (rewrite <- !app_assoc; reflexivity).
  rewrite firstn_app_exact.
  replace (length ((lit "{%" ++ content ++ lit "%}") ++ rest) - length rest)
    with (length (lit "{%" ++ content ++ lit "%}")) by (rewrite (length_app _ rest); lia).
  reflexivity.
Qed.

Lemma tag_content_plain content :
  Contains_byte content "%" = false ->
  Contains_byte content nl = false ->
  match content with c :: _ => c <> "{"%char | [] => True end ->
  FindStringSubmatch tagsToGo (lit "{%" ++ content ++ lit "%}")
  = [lit "{%" ++ content ++ lit "%}"; lit "{%"; content; lit "%}"].
Proof.
  intros Hpc Hnl Hhead. unfold FindStringSubmatch.
  pose proof (find_plain_tag [] content [] eq_refl Hpc Hnl Hhead I) as H.
  cbn [app] in H. rewrite !app_nil_r in H. cbn [app]. rewrite H. reflexivity.
Qed.

Lemma segments_plain_tag pre content rest :
  tag_free pre = true ->
  Contains_byte content "%" = false ->
  Contains_byte content nl = false ->
  match content with c :: _ => c <> "{"%char | [] => True end ->
  match rest with c :: _ => c <> "%"%char | [] => True end ->
  segments tagsToGo (pre ++ lit "{%" ++ content ++ lit "%}" ++ rest)
  = Gap pre :: Tag [lit "{%" ++ content ++ lit "%}"; lit "{%"; content; lit "%}"]
      :: segments tagsToGo rest.
Proof.
  intros Hpre Hpc Hnl Hhead Hrest. rewrite segments_unfold.
  rewrite (find_plain_tag pre content rest Hpre Hpc Hnl Hhead Hrest).
  cbn [f_start f_end f_sub].
  replace (length pre + length (lit "{%" ++ content ++ lit "%}") =? 0) with false.
  2:{ symmetry. apply Nat.eqb_neq. cbn [lit list_ascii_of_string app length]. lia. }
  rewrite take_app_length. do 2 f_equal.
  replace (pre ++ lit "{%" ++ content ++ lit "%}" ++ rest)
    with ((pre ++ lit "{%" ++ content ++ lit "%}") ++ rest)
    by (rewrite <- !app_assoc; reflexivity).
  rewrite <- length_app, drop_app_length. reflexivity.
Qed.

(** ** Identifiers, blanks, trimming and splitting *)

Lemma ident_byte_ascii c : ident_byte c = true -> nat_of_ascii c < 128.
Proof.
  destruct c as [[] [] [] [] [] [] [] []]; intros H; try discriminate H; vm_compute; lia.
Qed.

Lemma ident_byte_not_space c :
  ident_byte c = true ->
  is_ascii_space c = false
  /\ (nat_of_ascii c =? 194) = false
  /\ (nat_of_ascii c =? 225) = false
  /\ (nat_of_ascii c =? 226) = false
  /\ (nat_of_ascii c =? 227) = false
  /\ (nat_of_ascii c =? 133) || (nat_of_ascii c =? 160) = false
  /\ (128 <=? nat_of_ascii c) = false
  /\ (nat_of_ascii c =? 159) = false.
Proof.
  destruct c as [[] [] [] [] [] [] [] []]; intros H; try discriminate H;
    repeat split; reflexivity.
Qed.

Lemma trim_left_ident c s : ident_byte c = true -> trim_left (c :: s) = c :: s.
Proof.
  intros H. destruct (ident_byte_not_space c H) as (H1 & H2 & H3 & H4 & H5 & _).
  cbn [trim_left]. rewrite H1. destruct s as [|c2 [|c3 s]]; try reflexivity.
  - unfold is_space2. rewrite H2. reflexivity.
  - unfold is_space2, is_space3. rewrite H2, H3, H4, H5. reflexivity.
Qed.

Lemma trim_left_rev_ident c s : ident_byte c = true -> trim_left_rev (c :: s) = c :: s.
Proof.
  intros H. destruct (ident_byte_not_space c H) as (H1 & _ & _ & _ & _ & H6 & H7 & H8).
  assert (E3 : forall a b, is_space3 a b c = false).
  { intros a b. unfold is_space3.
    assert (Ec : forall n, 128 <= n -> (nat_of_ascii c =? n) = false).
    { intros n Hn. apply Nat.eqb_neq. apply Nat.leb_gt in H7. lia. }
    rewrite (Ec 128), (Ec 168), (Ec 169), (Ec 175), (Ec 159), H7 by lia.
    rewrite !andb_false_r. reflexivity. }
  cbn [trim_left_rev]. rewrite H1. destruct s as [|c2 [|c3 s]]; try reflexivity.
  - unfold is_space2. rewrite H6, andb_false_r. reflexivity.
  - unfold is_space2. rewrite H6, andb_false_r, E3. reflexivity.
Qed.

Lemma trim_left_blanks sp s : blanks sp = true -> trim_left (sp ++ s) = trim_left s.
Proof.
  induction sp as [|c sp IH]; intros H; [reflexivity|].
  cbn [blanks forallb] in H. apply andb_true_iff in H as [Hc Hs].
  apply byte_eqb_eq in Hc as <-. cbn [app trim_left].
  change (is_ascii_space " ") with true. cbn iota. apply IH, Hs.
Qed.

Lemma trim_left_rev_blanks sp s : blanks sp = true -> trim_left_rev (sp ++ s) = trim_left_rev s.
Proof.
  induction sp as [|c sp IH]; intros H; [reflexivity|].
  cbn [blanks forallb] in H. apply andb_true_iff in H as [Hc Hs].
  apply byte_eqb_eq in Hc as <-. cbn [app trim_left_rev].
  change (is_ascii_space " ") with true. cbn iota. apply IH, Hs.
Qed.

Lemma blanks_rev sp : blanks sp = true -> blanks (rev sp) = true.
Proof.
  unfold blanks. rewrite !forallb_forall. intros H x Hx. apply H, in_rev, Hx.
Qed.

(** Blanks around a text that starts and ends with identifier bytes are
    all that [TrimSpace] removes. *)
Lemma TrimSpace_padded sp1 c mid d sp2 :
  blanks sp1 = true -> blanks sp2 = true ->
  ident_byte c = true -> ident_byte d = true ->
  TrimSpace (sp1 ++ (c :: mid ++ [d]) ++ sp2) = c :: mid ++ [d].
Proof.
  intros H1 H2 Hc Hd. unfold TrimSpace.
  rewrite (trim_left_blanks _ _ H1). cbn [app]. rewrite (trim_left_ident _ _ Hc).
  change (c :: (mid ++ [d]) ++ sp2) with ((c :: mid ++ [d]) ++ sp2).
  rewrite rev_app_distr, (trim_left_rev_blanks _ _ (blanks_rev _ H2)).
  change (c :: mid ++ [d]) with ((c :: mid) ++ [d]).
  rewrite rev_app_distr. cbn [rev app]. rewrite (trim_left_rev_ident _ _ Hd).
  change (d :: rev mid ++ [c]) with ([d] ++ (rev mid ++ [c])).
  rewrite rev_app_distr, rev_app_distr, rev_involutive. reflexivity.
Qed.

Lemma Split_no_sep s sep : Contains_byte s sep = false -> Split s sep = [s].
Proof.
  unfold Contains_byte. induction s as [|c s IH]; cbn [existsb Split]; [reflexivity|].
  intros H. apply orb_false_iff in H as [Hc Hs]. rewrite byte_eqb_sym, Hc, (IH Hs).
  reflexivity.
Qed.

Lemma Split_at_sep a b sep :
  Contains_byte a sep = false -> Split (a ++ sep :: b) sep = a :: Split b sep.
Proof.
  unfold Contains_byte. induction a as [|c a IH]; cbn [existsb Split app].
  - intros _. rewrite byte_eqb_refl. reflexivity.
  - intros H. apply orb_false_iff in H as [Hc Hs]. rewrite byte_eqb_sym, Hc, (IH Hs).
    reflexivity.
Qed.

Lemma ident_bytes_exclude s x :
  ident_byte x = false -> forallb ident_byte s = true -> Contains_byte s x = false.
Proof.
  intros Hx Hs. unfold Contains_byte. destruct (existsb (byte_eqb x) s) eqn:E; [|reflexivity].
  apply existsb_exists in E as (y & Hy & Exy). apply byte_eqb_eq in Exy as <-.
  rewrite forallb_forall in Hs. rewrite (Hs _ Hy) in Hx. discriminate.
Qed.

Lemma blanks_exclude s x :
  byte_eqb " " x = false -> blanks s = true -> Contains_byte s x = false.
Proof.
  intros Hx Hs. unfold Contains_byte. destruct (existsb (byte_eqb x) s) eqn:E; [|reflexivity].
  apply existsb_exists in E as (y & Hy & Exy). apply byte_eqb_eq in Exy as <-.
  unfold blanks in Hs. rewrite forallb_forall in Hs. rewrite (Hs _ Hy) in Hx. discriminate.
Qed.

Lemma ident_inv s : ident s = true -> s <> [] /\ forallb ident_byte s = true.
Proof. destruct s; [discriminate|]. intros H. split; [discriminate|exact H]. Qed.

Lemma last_split (s : bytes) : s <> [] -> exists s' d, s = s' ++ [d].
Proof.
  intros H. destruct (exists_last H) as (s' & d & ->). eauto.
Qed.

(** ** A plain tag [{% ns.key %}] *)

Lemma ident_byte_upper c : ident_byte c = true -> ident_byte (to_upper_byte c) = true.
Proof.
  destruct c as [[] [] [] [] [] [] [] []]; intros H; try discriminate H; reflexivity.
Qed.

Lemma ident_upper_first s : ident s = true -> ident (upper_first s) = true.
Proof.
  destruct s as [|c t]; [discriminate|]. cbn [ident upper_first forallb].
  intros H. apply andb_true_iff in H as [Hc Ht]. rewrite (ident_byte_upper _ Hc), Ht.
  reflexivity.
Qed.

Lemma ident_exclude s x : ident_byte x = false -> ident s = true -> Contains_byte s x = false.
Proof. intros Hx Hs. apply ident_bytes_exclude; [exact Hx|]. apply ident_inv, Hs. Qed.

(** The content of a plain tag holds no percent sign, no line break and
    no brace. *)
Lemma plain_content_exclude sp1 ns key sp2 x :
  byte_eqb " " x = false -> byte_eqb "." x = false -> ident_byte x = false ->
  blanks sp1 = true -> ident ns = true -> ident key = true -> blanks sp2 = true ->
  Contains_byte (sp1 ++ ns ++ lit "." ++ key ++ sp2) x = false.
Proof.
  intros Hb Hd Hi H1 Hn Hk H2. rewrite !Contains_byte_app.
  rewrite (blanks_exclude _ _ Hb H1), (blanks_exclude _ _ Hb H2).
  rewrite (ident_exclude _ _ Hi Hn), (ident_exclude _ _ Hi Hk).
  unfold Contains_byte. cbn [lit list_ascii_of_string existsb].
  rewrite byte_eqb_sym, Hd. reflexivity.
Qed.

Lemma plain_content_head sp1 ns key sp2 :
  blanks sp1 = true -> ident ns = true ->
  match sp1 ++ ns ++ lit "." ++ key ++ sp2 with
  | c :: _ => c <> "{"%char
  | [] => True
  end.
Proof.
  intros H1 Hn. destruct sp1 as [|b sp1].
  - destruct ns as [|c ns]; [discriminate|]. cbn [app]. intros ->.
    cbn [ident forallb] in Hn. discriminate.
  - cbn [app]. intros ->. discriminate.
Qed.

Lemma plain_content_segments sp1 ns key sp2 :
  blanks sp1 = true -> ident ns = true -> ident key = true -> blanks sp2 = true ->
  Split (TrimSpace (sp1 ++ ns ++ lit "." ++ key ++ sp2)) "." = [ns; key].
Proof.
  intros H1 Hn Hk H2.
  destruct ns as [|c ns']; [discriminate|].
  destruct (ident_inv _ Hk) as [Hne Hkall].
  destruct (last_split key Hne) as (key' & d & Ek).
  assert (Hc : ident_byte c = true).
  { cbn [ident forallb] in Hn. apply andb_true_iff in Hn as [Hc _]. exact Hc. }
  assert (Hd : ident_byte d = true).
  { rewrite forallb_forall in Hkall. apply Hkall. rewrite Ek. apply in_or_app. right. left.
    reflexivity. }
  replace (sp1 ++ (c :: ns') ++ lit "." ++ key ++ sp2)
    with (sp1 ++ (c :: (ns' ++ lit "." ++ key') ++ [d]) ++ sp2).
  2:{ rewrite Ek. cbn [app]. rewrite <- !app_assoc. reflexivity. }
  rewrite (TrimSpace_padded sp1 c _ d sp2 H1 H2 Hc Hd).
  replace (c :: (ns' ++ lit "." ++ key') ++ [d]) with ((c :: ns') ++ "."%char :: key).
  2:{ rewrite Ek. cbn [app lit list_ascii_of_string]. rewrite <- !app_assoc. reflexivity. }
  rewrite Split_at_sep by (apply ident_exclude; [reflexivity|exact Hn]).
  rewrite Split_no_sep by (apply ident_exclude; [reflexivity|exact Hk]).
  reflexivity.
Qed.

Lemma ident_capitalize s : ident s = true -> capitalize s = Some (upper_first s).
Proof.
  destruct s as [|c t]; [discriminate|]. intros H. cbn [capitalize upper_first].
  cbn [ident forallb] in H. apply andb_true_iff in H as [Hc _].
  rewrite (ToUpper1_ascii _ (ident_byte_ascii _ Hc)). reflexivity.
Qed.

(** The callback on a plain tag. *)
Lemma tagFunc_plain_tag sp1 ns key sp2 used :
  blanks sp1 = true -> ident ns = true -> ident key = true -> blanks sp2 = true ->
  tagFunc (lit "{%" ++ (sp1 ++ ns ++ lit "." ++ key ++ sp2) ++ lit "%}") used
  = Some (directive (upper_first ns) (upper_first key),
          record_used (upper_first ns) (upper_first key) used).
Proof.
  intros H1 Hn Hk H2.
  pose proof (plain_content_exclude sp1 ns key sp2 "%" eq_refl eq_refl eq_refl H1 Hn Hk H2) as Hpc.
  pose proof (plain_content_exclude sp1 ns key sp2 nl eq_refl eq_refl eq_refl H1 Hn Hk H2) as Hnl.
  pose proof (plain_content_head sp1 ns key sp2 H1 Hn) as Hhead.
  pose proof (tag_content_plain _ Hpc Hnl Hhead) as Hsub.
  set (content := sp1 ++ ns ++ lit "." ++ key ++ sp2) in *.
  assert (Hseg : dot_segments (lit "{%" ++ content ++ lit "%}") = [ns; key]).
  { unfold dot_segments, tag_content. rewrite Hsub. cbn [nth].
    apply plain_content_segments; assumption. }
  destruct ns as [|n0 nr]; [discriminate|]. destruct key as [|k0 kr]; [discriminate|].
  assert (Hesc : escaped (lit "{%" ++ content ++ lit "%}") = false) by reflexivity.
  rewrite (tagFunc_two_segments _ used n0 nr k0 kr [] Hesc Hseg).
  pose proof (ident_capitalize _ Hn) as En. pose proof (ident_capitalize _ Hk) as Ek.
  cbn [capitalize] in En, Ek. injection En as En. injection Ek as Ek. rewrite En, Ek.
  rewrite replaceTemplateFallback_no_comma; [reflexivity| |].
  - apply ident_exclude; [reflexivity|]. apply (ident_upper_first (n0 :: nr)), Hn.
  - apply ident_exclude; [reflexivity|]. apply (ident_upper_first (k0 :: kr)), Hk.
Qed.

Lemma plain_tag_pass pre sp1 ns key sp2 rest used :
  tag_free pre = true ->
  blanks sp1 = true -> ident ns = true -> ident key = true -> blanks sp2 = true ->
  match rest with c :: _ => c <> "%"%char | [] => True end ->
  tagsPass (pre ++ lit "{%" ++ (sp1 ++ ns ++ lit "." ++ key ++ sp2) ++ lit "%}" ++ rest) used
  = match tagsPass rest (record_used (upper_first ns) (upper_first key) used) with
    | Some (o, u) => Some (pre ++ directive (upper_first ns) (upper_first key) ++ o, u)
    | None => None
    end.
Proof.
  intros Hpre H1 Hn Hk H2 Hrest.
  pose proof (plain_content_exclude sp1 ns key sp2 "%" eq_refl eq_refl eq_refl H1 Hn Hk H2) as Hpc.
  pose proof (plain_content_exclude sp1 ns key sp2 nl eq_refl eq_refl eq_refl H1 Hn Hk H2) as Hnl.
  pose proof (plain_content_head sp1 ns key sp2 H1 Hn) as Hhead.
  unfold tagsPass, ReplaceAllStringFuncM.
  rewrite (segments_plain_tag pre _ rest Hpre Hpc Hnl Hhead Hrest).
  cbn [replace_segments whole hd].
  rewrite (tagFunc_plain_tag sp1 ns key sp2 used H1 Hn Hk H2).
  destruct (replace_segments tagFunc (segments tagsToGo rest) _) as [[o u]|]; reflexivity.
Qed.

(** X1. A plain tag, [{%], blanks, an identifier, a dot, an identifier,
    blanks, [%}], that follows text in which no tag can start and is not
    directly followed by a percent sign, is replaced by the directive of the
    two identifiers with their first letters in upper case, the pair is
    recorded, and the scan goes on behind the tag. *)
Theorem X1_plain_tag_pass pre sp1 ns key sp2 rest used :
  tag_free pre = true ->
  blanks sp1 = true -> ident ns = true -> ident key = true -> blanks sp2 = true ->
  match rest with c :: _ => c <> "%"%char | [] => True end ->
  tagsPass (pre ++ lit "{%" ++ (sp1 ++ ns ++ lit "." ++ key ++ sp2) ++ lit "%}" ++ rest) used
  = match tagsPass rest (record_used (upper_first ns) (upper_first key) used) with
    | Some (o, u) => Some (pre ++ directive (upper_first ns) (upper_first key) ++ o, u)
    | None => None
    end.
Proof. apply plain_tag_pass. Qed.

Lemma X1_witness :
  tagsPass (lit "Dear {% user.name %}, hello") ∅
  = Some (lit "Dear {{.User.Name}}, hello", {[ lit "User" := [lit "Name"] ]}).
Proof.
  refine (eq_trans (X1_plain_tag_pass (lit "Dear ") (lit " ") (lit "user") (lit "name") (lit " ")
                      (lit ", hello") ∅ eq_refl eq_refl eq_refl eq_refl eq_refl _) _).
  - cbn [lit list_ascii_of_string]. discriminate.
  - vm_compute. reflexivity.
Defined.

(** No native directive starts in text without a pair of opening braces. *)
Lemma match_here_escapeGo_other c t :
  c <> "{"%char -> match_here (re_expr escapeGo) (c :: t) = None.
Proof.
  intros H. unfold match_here, escapeGo. cbn [re_expr]. rewrite run_Seq, run_Lit.
  cbn [lit list_ascii_of_string has_prefix]. apply byte_eqb_neq in H.
  rewrite byte_eqb_sym, H. reflexivity.
Qed.

Lemma match_here_escapeGo_single c t :
  c <> "{"%char -> match_here (re_expr escapeGo) ("{"%char :: c :: t) = None.
Proof.
  intros H. unfold match_here, escapeGo. cbn [re_expr]. rewrite run_Seq, run_Lit.
  cbn [lit list_ascii_of_string has_prefix]. apply byte_eqb_neq in H.
  rewrite byte_eqb_refl, byte_eqb_sym, H. reflexivity.
Qed.

Lemma find_from_escapeGo_brace_free pre n pos rest :
  brace_free pre = true ->
  find_from (re_expr escapeGo) n pos (pre ++ rest)
  = find_from (re_expr escapeGo) n (pos + length pre) rest.
Proof.
  unfold brace_free, Contains_byte.
  revert pos; induction pre as [|c pre IH]; intros pos H.
  - cbn [app length]. rewrite Nat.add_0_r. reflexivity.
  - cbn [existsb] in H. apply negb_true_iff, orb_false_iff in H as [Hc Hp].
    cbn [app]. rewrite find_from_eq, match_here_escapeGo_other.
    + rewrite (IH (S pos)) by (rewrite Hp; reflexivity). cbn [length]. f_equal. lia.
    + apply byte_eqb_neq. rewrite byte_eqb_sym. exact Hc.
Qed.

Lemma tag_free_brace_free s : tag_free s = true -> brace_free s = true.
Proof.
  unfold tag_free, brace_free, Contains_byte. intros H.
  apply negb_true_iff. destruct (existsb (byte_eqb "{") s) eqn:E; [|reflexivity].
  apply existsb_exists in E as (y & Hy & Ey). apply byte_eqb_eq in Ey as <-.
  rewrite forallb_forall in H. specialize (H _ Hy). discriminate.
Qed.

(** Text whose only opening brace is the one of a plain tag holds no
    native directive. *)
Lemma find_escapeGo_single_brace pre tail :
  brace_free pre = true -> brace_free tail = true ->
  find escapeGo (pre ++ lit "{%" ++ tail) = None.
Proof.
  intros Hpre Htail. unfold find. rewrite (find_from_escapeGo_brace_free pre _ _ _ Hpre).
  cbn [lit list_ascii_of_string app]. rewrite find_from_eq.
  rewrite match_here_escapeGo_single by discriminate.
  change ("%"%char :: tail) with (["%"%char] ++ tail).
  rewrite <- (app_nil_r (["%"%char] ++ tail)).
  rewrite (find_from_escapeGo_brace_free (["%"%char] ++ tail) _ _ []).
  - reflexivity.
  - unfold brace_free in *. rewrite Contains_byte_app.
    apply negb_true_iff in Htail. rewrite Htail. reflexivity.
Qed.

Lemma record_used_first ns key : record_used ns key ∅ = {[ ns := [key] ]}.
Proof.
  unfold record_used. rewrite lookup_empty, lookup_insert_eq.
  cbn [default from_option InStringSlice existsb negb id app].
  rewrite insert_insert_eq. reflexivity.
Qed.

(** X2. A template that is one plain tag between two texts in which no
    tag can start is transpiled to the first text, the directive of the two
    capitalized identifiers and the second text; the Variable Index holds
    the one pair. *)
Theorem X2_single_plain_tag pre sp1 ns key sp2 post :
  tag_free pre = true ->
  blanks sp1 = true -> ident ns = true -> ident key = true -> blanks sp2 = true ->
  tag_free post = true ->
  prepareTemplateTags (pre ++ lit "{%" ++ (sp1 ++ ns ++ lit "." ++ key ++ sp2) ++ lit "%}" ++ post)
  = Some (pre ++ directive (upper_first ns) (upper_first key) ++ post,
          {[ upper_first ns := [upper_first key] ]}).
Proof.
  intros Hpre H1 Hn Hk H2 Hpost.
  set (content := sp1 ++ ns ++ lit "." ++ key ++ sp2).
  assert (He : find escapeGo (pre ++ lit "{%" ++ content ++ lit "%}" ++ post) = None).
  { apply find_escapeGo_single_brace; [apply tag_free_brace_free, Hpre|].
    unfold brace_free. rewrite !Contains_byte_app.
    unfold content.
    rewrite (plain_content_exclude sp1 ns key sp2 "{" eq_refl eq_refl eq_refl H1 Hn Hk H2).
    pose proof (tag_free_brace_free _ Hpost) as Hb. unfold brace_free in Hb.
    apply negb_true_iff in Hb. rewrite Hb. reflexivity. }
  unfold prepareTemplateTags, escapeGoPass, ReplaceAllStringFunc, replace_pure.
  rewrite (segments_no_match _ _ He). cbn [flat_map]. rewrite app_nil_r.
  unfold content. rewrite plain_tag_pass; try assumption.
  - unfold tagsPass, ReplaceAllStringFuncM.
    rewrite (segments_no_match _ _ (find_tag_free _ Hpost)). cbn [replace_segments].
    rewrite app_nil_r, record_used_first. reflexivity.
  - destruct post as [|c t]; [exact I|]. cbn [tag_free forallb] in Hpost.
    intros ->. discriminate.
Qed.

Lemma X2_witness :
  prepareTemplateTags (lit "Dear {% user.name %}, hello")
  = Some (lit "Dear {{.User.Name}}, hello", {[ lit "User" := [lit "Name"] ]}).
Proof.
  exact (X2_single_plain_tag (lit "Dear ") (lit " ") (lit "user") (lit "name") (lit " ")
           (lit ", hello") eq_refl eq_refl eq_refl eq_refl eq_refl eq_refl).
Defined.

(** ** A tag with a fallback clause *)

Lemma SplitN2_at_sep a b sep :
  Contains_byte a sep = false -> SplitN2 (a ++ sep :: b) sep = [a; b].
Proof.
  unfold Contains_byte. induction a as [|c a IH]; cbn [existsb SplitN2 app].
  - intros _. rewrite byte_eqb_refl. reflexivity.
  - intros H. apply orb_false_iff in H as [Hc Hs]. rewrite byte_eqb_sym, Hc, (IH Hs).
    reflexivity.
Qed.




(** ** What the render calls return *)

Lemma replaceVariables_error_text {Ctx} (ctx : Ctx) tmpl body keys parentKeys used w
    out err w' :
  replaceVariables ctx tmpl body keys parentKeys used w = (out, Some err, w') -> out = body.
Proof.
  unfold replaceVariables. destruct (Execute tmpl _) as [o [e|]]; intros [= <- _ _];
    reflexivity.
Qed.

Lemma Text_error_text {Ctx} (E : Engine) (ctx : Ctx) body keys parentKeys w tb used
    out err w' :
  prepareTemplateTags body = Some (tb, used) ->
  Text E ctx body keys parentKeys w = Some (out, Some err, w') -> out = tb.
Proof.
  intros Hp H. unfold Text in H. rewrite Hp in H.
  destruct (textParse E false tb) as [tmpl|e].
  - injection H as H. apply (replaceVariables_error_text _ _ _ _ _ _ _ _ _ _ H).
  - injection H as <- _ _. reflexivity.
Qed.

Lemma HTML_error_text {Ctx} (E : Engine) (ctx : Ctx) body keys parentKeys w tb used
    out err w' :
  prepareTemplateTags body = Some (tb, used) ->
  HTML E ctx body keys parentKeys w = Some (out, Some err, w') -> out = tb.
Proof.
  intros Hp H. unfold HTML in H. rewrite Hp in H.
  destruct (htmlParse E false tb) as [tmpl|e].
  - injection H as H. apply (replaceVariables_error_text _ _ _ _ _ _ _ _ _ _ H).
  - injection H as <- _ _. reflexivity.
Qed.

Lemma HTMLSafe_is_Text_after_failure {Ctx} (E : Engine) (ctx : Ctx) body keys parentKeys w r :
  HTMLSafe E ctx body keys parentKeys w = Some r ->
  (exists out w1, HTML E ctx body keys parentKeys w = Some (out, None, w1)
                  /\ r = (out, None, w1))
  \/ (exists o1 e1 w1, HTML E ctx body keys parentKeys w = Some (o1, Some e1, w1)
                       /\ Text E ctx body keys parentKeys w1 = Some r).
Proof.
  unfold HTMLSafe. destruct (HTML E ctx body keys parentKeys w) as [[[o1 [e1|]] w1]|];
    intros H; [|injection H as <-|discriminate].
  - right. exists o1, e1, w1. split; [reflexivity|exact H].
  - left. exists o1, w1. split; reflexivity.
Qed.

(** X6. Whenever [Text], [HTML] or [HTMLSafe] returns an error, the text
    returned with it is the transpiled body, whether the template failed to
    parse or to execute: not the text the caller passed in, and not what
    the engine had written before it failed. *)
Theorem X6_error_text_is_transpiled_body
    {Ctx : Type} (E : Engine) (ctx : Ctx) (body : bytes)
    (keys : list (bytes * Templateable Ctx)) (parentKeys : Keys) (w : World)
    (tb : bytes) (used : usedVars) (out : bytes) (err : error) (w' : World) :
  prepareTemplateTags body = Some (tb, used) ->
  Text E ctx body keys parentKeys w = Some (out, Some err, w')
  \/ HTML E ctx body keys parentKeys w = Some (out, Some err, w')
  \/ HTMLSafe E ctx body keys parentKeys w = Some (out, Some err, w') ->
  out = tb.
Proof.
  intros Hp [H|[H|H]].
  - apply (Text_error_text _ _ _ _ _ _ _ _ _ _ _ Hp H).
  - apply (HTML_error_text _ _ _ _ _ _ _ _ _ _ _ Hp H).
  - apply HTMLSafe_is_Text_after_failure in H
      as [(o & w1 & _ & [=])|(o1 & e1 & w1 & _ & H)].
    apply (Text_error_text _ _ _ _ _ _ _ _ _ _ _ Hp H).
Qed.

Lemma X6_witness :
  let body := lit "Hello {% asd.zxc %}" in
  let E := failingEngine (ExecError (lit "boom")) in
  prepareTemplateTags body = Some (lit "Hello {{.Asd.Zxc}}", {[ lit "Asd" := [lit "Zxc"] ]})
  /\ HTMLSafe E tt body [] None (newWorld ∅)
     = Some (lit "Hello {{.Asd.Zxc}}", Some (ExecError (lit "boom")), newWorld ∅).
Proof.
  cbv zeta.
  assert (Hp : prepareTemplateTags (lit "Hello {% asd.zxc %}")
               = Some (lit "Hello {{.Asd.Zxc}}", {[ lit "Asd" := [lit "Zxc"] ]}))
    by (vm_compute; reflexivity).
  split; [exact Hp|].
  destruct (HTMLSafe (failingEngine (ExecError (lit "boom"))) tt (lit "Hello {% asd.zxc %}")
              [] None (newWorld ∅)) as [[[o [e|]] w1]|] eqn:H;
    try (vm_compute in H; discriminate H).
  rewrite (X6_error_text_is_transpiled_body _ tt _ [] None _ _ _ _ _ _ Hp
             (or_intror (or_intror H))).
  vm_compute in H. injection H as _ <- <-. reflexivity.
Defined.

(** X7. [HTMLSafe] fails only when both engines fail, and the error it
    returns is the one of the text engine: the HTML template did not parse
    or did not execute, and then the text template did not parse or did not
    execute, with that error.  So when the text template parses and
    executes on every parameter tree, [HTMLSafe] returns no error. *)
Theorem X7_HTMLSafe_fails_with_the_text_error
    {Ctx : Type} (E : Engine) (ctx : Ctx) (body : bytes)
    (keys : list (bytes * Templateable Ctx)) (parentKeys : Keys) (w : World)
    (tb : bytes) (used : usedVars) :
  prepareTemplateTags body = Some (tb, used) ->
  (forall out err w',
     HTMLSafe E ctx body keys parentKeys w = Some (out, Some err, w') ->
     ((exists e1, htmlParse E false tb = inr e1)
      \/ (exists tH e1, htmlParse E false tb = inl tH
            /\ snd (Execute tH (readTree (buildParams ctx keys parentKeys used w))) = Some e1))
     /\ (textParse E false tb = inr err
         \/ exists tT w1, textParse E false tb = inl tT
              /\ snd (Execute tT (readTree (buildParams ctx keys parentKeys used w1)))
                 = Some err))
  /\ (forall tT,
        textParse E false tb = inl tT ->
        (forall params, snd (Execute tT params) = None) ->
        exists out w', HTMLSafe E ctx body keys parentKeys w = Some (out, None, w')).
Proof.
  intros Hp. split.
  - intros out err w' H.
    apply HTMLSafe_is_Text_after_failure in H
      as [(o & w1 & _ & [=])|(o1 & e1 & w1 & HH & HT)].
    split.
    + unfold HTML in HH. rewrite Hp in HH.
      destruct (htmlParse E false tb) as [tH|eH]; [right|left; eauto].
      exists tH.
      destruct (snd (Execute tH (readTree (buildParams ctx keys parentKeys used w))))
        as [e|] eqn:Hx; [eauto|].
      rewrite (replaceVariables_ok _ _ _ _ _ _ _ Hx) in HH. discriminate.
    + unfold Text in HT. rewrite Hp in HT.
      destruct (textParse E false tb) as [tT|eT].
      * right. exists tT, w1. split; [reflexivity|].
        destruct (snd (Execute tT (readTree (buildParams ctx keys parentKeys used w1))))
          as [e|] eqn:Hx.
        -- rewrite (replaceVariables_error _ _ _ _ _ _ _ _ Hx) in HT. congruence.
        -- rewrite (replaceVariables_ok _ _ _ _ _ _ _ Hx) in HT. discriminate.
      * left. congruence.
  - intros tT HT Hok. unfold HTMLSafe.
    assert (Htext : forall w1, exists out w',
              Text E ctx body keys parentKeys w1 = Some (out, None, w')).
    { intros w1. unfold Text. rewrite Hp, HT.
      rewrite (replaceVariables_ok _ _ _ _ _ _ _ (Hok _)). eauto. }
    destruct (HTML E ctx body keys parentKeys w) as [[[o1 [e1|]] w1]|] eqn:HH.
    + apply Htext.
    + eauto.
    + unfold HTML in HH. rewrite Hp in HH. destruct (htmlParse E false tb); discriminate.
Qed.

Lemma X7_witness :
  let body := lit "<a>{%Test.Test%}</a><br" in
  let E := brokenHtmlEngine (OtherError (lit "html/template: ends in a non-text context")) in
  prepareTemplateTags body = Some (lit "<a>{{.Test.Test}}</a><br", {[ lit "Test" := [lit "Test"] ]})
  /\ exists out w', HTMLSafe E tt body [] None (newWorld ∅) = Some (out, None, w').
Proof.
  cbv zeta.
  assert (Hp : prepareTemplateTags (lit "<a>{%Test.Test%}</a><br")
               = Some (lit "<a>{{.Test.Test}}</a><br", {[ lit "Test" := [lit "Test"] ]}))
    by (vm_compute; reflexivity).
  split; [exact Hp|].
  destruct (X7_HTMLSafe_fails_with_the_text_error
              (brokenHtmlEngine (OtherError (lit "html/template: ends in a non-text context")))
              tt _ [] None (newWorld ∅) _ _ Hp) as [_ Hok].
  apply (Hok _ eq_refl). intros params. reflexivity.
Defined.

(** X8. [TestSafe] returns no error exactly when the strict HTML template
    parses and either executes, or fails to execute while the strict text
    template parses and executes; the text returned is what the successful
    execution wrote.  A template that only the text engine accepts passes
    the test. *)
Theorem X8_TestSafe_accepts
    {Ctx : Type} (E : Engine) (ctx : Ctx) (body : bytes)
    (keys : list (bytes * Templateable Ctx)) (parentKeys : Keys) (w : World)
    (tb : bytes) (used : usedVars) (out : bytes) (w' : World) :
  prepareTemplateTags body = Some (tb, used) ->
  (TestSafe E ctx body keys parentKeys w = Some (out, None, w')
   <-> exists tH,
         htmlParse E true tb = inl tH
         /\ ((Execute tH (readTree (buildParams ctx keys parentKeys used w)) = (out, None)
              /\ w' = snd (buildParams ctx keys parentKeys used w))
             \/ (exists e1 tT,
                   snd (Execute tH (readTree (buildParams ctx keys parentKeys used w)))
                   = Some e1
                   /\ textParse E true tb = inl tT
                   /\ Execute tT (readTree (buildParams ctx keys parentKeys used
                                              (snd (buildParams ctx keys parentKeys used w))))
                      = (out, None)
                   /\ w' = snd (buildParams ctx keys parentKeys used
                                  (snd (buildParams ctx keys parentKeys used w)))))).
Proof.
  intros Hp. unfold TestSafe. rewrite Hp.
  destruct (htmlParse E true tb) as [tH|eH].
  2:{ split; [discriminate|]. intros (tH & Hc & _). discriminate. }
  unfold replaceVariables at 1.
  destruct (Execute tH (readTree (buildParams ctx keys parentKeys used w)))
    as [o1 [e1|]] eqn:H1.
  - destruct (textParse E true tb) as [tT|eT].
    2:{ split; [discriminate|].
        intros (tH' & [= <-] & [[Hc _]|(e & tT & _ & Hc & _)]); [|discriminate].
        rewrite H1 in Hc. discriminate. }
    unfold replaceVariables.
    destruct (Execute tT (readTree (buildParams ctx keys parentKeys used
                                      (snd (buildParams ctx keys parentKeys used w)))))
      as [o2 [e2|]] eqn:H2.
    + split.
      * intros H. exfalso. unfold translateError in H.
        destruct e2; [destruct (FindAllStringSubmatch _ _) as [|v0 ?];
                      [|destruct (length v0 <? 2)]|]; discriminate.
      * intros (tH' & [= <-] & [[Hc _]|(e & tT' & _ & Ht & Hc & _)]).
        -- rewrite H1 in Hc. discriminate.
        -- injection Ht as <-. rewrite H2 in Hc. discriminate.
    + split.
      * intros [= <- <-]. exists tH. split; [reflexivity|]. right.
        exists e1, tT. split; [rewrite H1; reflexivity|]. split; [reflexivity|].
        split; [exact H2|reflexivity].
      * intros (tH' & [= <-] & [[Hc _]|(e & tT' & _ & Ht & Hc & ->)]).
        -- rewrite H1 in Hc. discriminate.
        -- injection Ht as <-. rewrite H2 in Hc. injection Hc as <-. reflexivity.
  - split.
    + intros [= <- <-]. exists tH. split; [reflexivity|]. left. split; [exact H1|reflexivity].
    + intros (tH' & [= <-] & [[Hx ->]|(e & tT' & Hx & _)]).
      * rewrite H1 in Hx. injection Hx as <-. reflexivity.
      * rewrite H1 in Hx. discriminate.
Qed.

Lemma X8_witness :
  let body := lit "<a>{%Test.Test%}</a><br" in
  let E := brokenHtmlEngine (OtherError (lit "html/template: ends in a non-text context")) in
  prepareTemplateTags body = Some (lit "<a>{{.Test.Test}}</a><br", {[ lit "Test" := [lit "Test"] ]})
  /\ TestSafe E tt body [] None (newWorld ∅)
     = Some (lit "<a>{{.Test.Test}}</a><br", None, newWorld ∅).
Proof.
  cbv zeta.
  assert (Hp : prepareTemplateTags (lit "<a>{%Test.Test%}</a><br")
               = Some (lit "<a>{{.Test.Test}}</a><br", {[ lit "Test" := [lit "Test"] ]}))
    by (vm_compute; reflexivity).
  split; [exact Hp|].
  apply (X8_TestSafe_accepts
           (brokenHtmlEngine (OtherError (lit "html/template: ends in a non-text context")))
           tt _ [] None (newWorld ∅) _ _ _ _ Hp).
  eexists. split; [reflexivity|]. right. eexists _, _.
  split; [reflexivity|]. split; [reflexivity|]. split; reflexivity.
Defined.

(** ** The tree and the store after a run of the resolver *)

Lemma apply_writes_app ws1 ws2 st :
  apply_writes (ws1 ++ ws2) st = apply_writes ws2 (apply_writes ws1 st).
Proof. apply fold_left_app. Qed.

Lemma apply_write_lookup st l0 k x l :
  apply_write st (l0, k, x) !! l
  = if Nat.eqb l0 l then Some (<[k := x]> (default ∅ (st !! l))) else st !! l.
Proof.
  cbn [apply_write]. destruct (Nat.eqb l0 l) eqn:E.
  - apply Nat.eqb_eq in E as ->. apply lookup_insert_eq.
  - apply Nat.eqb_neq in E. apply lookup_insert_ne, E.
Qed.

Lemma writes_at_none l ws m : writes_to l ws = false -> writes_at l ws m = m.
Proof.
  unfold writes_to, writes_at. revert m; induction ws as [|[[l0 k] x] ws IH]; intros m;
    cbn [existsb fold_left fst]; [reflexivity|].
  intros H. apply orb_false_iff in H as [H1 H2]. rewrite H1. apply IH, H2.
Qed.

(** The contents of a place after a list of writes. *)
Lemma apply_writes_lookup ws st l :
  apply_writes ws st !! l
  = if writes_to l ws then Some (writes_at l ws (default ∅ (st !! l))) else st !! l.
Proof.
  unfold apply_writes. revert st; induction ws as [|[[l0 k] x] ws IH]; intros st;
    cbn [fold_left]; [reflexivity|].
  rewrite IH, apply_write_lookup. unfold writes_to, writes_at.
  cbn [existsb fold_left fst].
  destruct (Nat.eqb l0 l) eqn:E; cbn [orb]; [|reflexivity].
  change (default ∅ (Some ?m)) with m.
  fold (writes_to l ws). fold (writes_at l ws (<[k := x]> (default ∅ (st !! l)))).
  destruct (writes_to l ws) eqn:Hw; [reflexivity|].
  rewrite (writes_at_none _ _ _ Hw). reflexivity.
Qed.

Section ResolverRun.
Context {Ctx : Type}.
Variable ctx : Ctx.
Variable parentKeys : Keys.
Variable used : usedVars.

Lemma callbacksLoop_own key (cap : Templateable Ctx) u m w0 :
  callbacksLoop ctx key cap parentKeys u (Own m, w0)
  = (Own (lazy_set ctx parentKeys cap u m),
     {| w_calls := w_calls w0 ++ map (CallCallbacks key) u; w_store := w_store w0 |}).
Proof.
  unfold callbacksLoop, lazy_set. revert m w0; induction u as [|v u IH]; intros m w0;
    cbn [fold_left map].
  - rewrite app_nil_r. destruct w0; reflexivity.
  - unfold callbackStep at 2.
    destruct (TemplateCallbacks cap ctx v parentKeys) as [result [|]];
      cbn [fst snd setKey]; rewrite IH; cbn [w_calls w_store]; rewrite <- app_assoc;
      reflexivity.
Qed.

Lemma callbacksLoop_held key (cap : Templateable Ctx) u l w0 :
  callbacksLoop ctx key cap parentKeys u (Held l, w0)
  = (Held l,
     {| w_calls := w_calls w0 ++ map (CallCallbacks key) u;
        w_store := apply_writes (flat_map (writes_for ctx parentKeys cap l) u) (w_store w0) |}).
Proof.
  unfold callbacksLoop. revert w0; induction u as [|v u IH]; intros w0;
    cbn [fold_left map flat_map].
  - rewrite app_nil_r. destruct w0; reflexivity.
  - unfold callbackStep at 2. unfold writes_for at 1.
    destruct (TemplateCallbacks cap ctx v parentKeys) as [result [|]];
      cbn [fst snd setKey]; rewrite IH; cbn [w_calls w_store]; rewrite <- app_assoc;
      reflexivity.
Qed.

(** One turn of the outer loop, in full. *)
Lemma resolveEntry_eq (st : Tree * World) (e : bytes * Templateable Ctx) :
  resolveEntry ctx parentKeys used st e
  = (<[fst e := entry_ref ctx parentKeys used e]> (fst st),
     {| w_calls := w_calls (snd st) ++ calls_of used e;
        w_store := apply_writes (writes_of_entry ctx parentKeys used e) (w_store (snd st)) |}).
Proof.
  unfold resolveEntry, entry_ref, writes_of_entry, calls_of. cbv zeta.
  destruct (used !! fst e) as [u|].
  - change (default [] (Some u)) with u. destruct (TemplateKeys (snd e) ctx parentKeys) as [[m|l]|].
    + rewrite callbacksLoop_own. cbn [fst snd w_calls w_store]. rewrite <- app_assoc.
      reflexivity.
    + rewrite callbacksLoop_held. cbn [fst snd w_calls w_store]. rewrite <- app_assoc.
      reflexivity.
    + rewrite callbacksLoop_own. cbn [fst snd w_calls w_store]. rewrite <- app_assoc.
      reflexivity.
  - change (default [] (@None (list bytes))) with (@nil bytes).
    cbn [map flat_map fst snd lazy_set fold_left].
    destruct (TemplateKeys (snd e) ctx parentKeys) as [[m|l]|]; reflexivity.
Qed.

(** The loop in full: the tree does not depend on the world the run
    starts in, and the store is the one before with the writes of the run. *)
Lemma buildParams_fold_eq (keys : list (bytes * Templateable Ctx)) st :
  fold_left (resolveEntry ctx parentKeys used) keys st
  = (tree_of ctx parentKeys used keys (fst st),
     {| w_calls := w_calls (snd st) ++ run_calls used keys;
        w_store := apply_writes (writes_of ctx parentKeys used keys) (w_store (snd st)) |}).
Proof.
  unfold tree_of, run_calls, writes_of.
  revert st; induction keys as [|e keys IH]; intros st; cbn [fold_left flat_map].
  - rewrite app_nil_r. destruct st as [t [c s]]; reflexivity.
  - rewrite IH, resolveEntry_eq. cbn [fst snd w_calls w_store].
    rewrite apply_writes_app, <- app_assoc. reflexivity.
Qed.

Lemma buildParams_eq (keys : list (bytes * Templateable Ctx)) w :
  buildParams ctx keys parentKeys used w
  = (tree_of ctx parentKeys used keys ∅,
     {| w_calls := w_calls w ++ run_calls used keys;
        w_store := apply_writes (writes_of ctx parentKeys used keys) (w_store w) |}).
Proof. unfold buildParams. rewrite buildParams_fold_eq. reflexivity. Qed.

Lemma tree_of_lookup (keys : list (bytes * Templateable Ctx)) t ns :
  is_Some (tree_of ctx parentKeys used keys t !! ns)
  <-> is_Some (t !! ns) \/ In ns (map fst keys).
Proof.
  unfold tree_of. revert t; induction keys as [|e keys IH]; intros t; cbn [fold_left map].
  - split; [auto|]. intros [H|[]]. exact H.
  - rewrite IH. destruct (decide (fst e = ns)) as [<-|Hne].
    + rewrite lookup_insert_eq. split; [intros _; right; left; reflexivity|].
      intros _. left. eauto.
    + rewrite lookup_insert_ne by exact Hne. split.
      * intros [H|H]; [left; exact H|right; right; exact H].
      * intros [H|[H|H]]; [left; exact H|congruence|right; exact H].
Qed.

Lemma writes_of_none (keys : list (bytes * Templateable Ctx)) :
  (forall e v, In e keys -> In v (default [] (used !! fst e)) ->
     snd (TemplateCallbacks (snd e) ctx v parentKeys) = false) ->
  writes_of ctx parentKeys used keys = [].
Proof.
  unfold writes_of. induction keys as [|e keys IH]; intros H; cbn [flat_map]; [reflexivity|].
  rewrite IH by (intros e' v He'; apply H; right; exact He'). rewrite app_nil_r.
  unfold writes_of_entry. destruct (TemplateKeys (snd e) ctx parentKeys) as [[m|l]|];
    try reflexivity.
  assert (G : forall v, In v (default [] (used !! fst e)) ->
            snd (TemplateCallbacks (snd e) ctx v parentKeys) = false)
    by (intros v Hv; apply (H e v); [left; reflexivity|exact Hv]).
  induction (default [] (used !! fst e)) as [|v u IHu]; cbn [flat_map]; [reflexivity|].
  rewrite IHu by (intros v' Hv'; apply G; right; exact Hv'). rewrite app_nil_r.
  unfold writes_for. specialize (G v (or_introl eq_refl)).
  destruct (TemplateCallbacks (snd e) ctx v parentKeys) as [result setIt].
  cbn [snd] in G. rewrite G. reflexivity.
Qed.

Lemma writes_of_places (keys : list (bytes * Templateable Ctx)) l :
  (forall e, In e keys -> TemplateKeys (snd e) ctx parentKeys <> Some (Held l)) ->
  writes_to l (writes_of ctx parentKeys used keys) = false.
Proof.
  unfold writes_of, writes_to. induction keys as [|e keys IH]; intros H; cbn [flat_map];
    [reflexivity|].
  rewrite existsb_app, IH by (intros e' He'; apply H; right; exact He').
  rewrite orb_false_r. unfold writes_of_entry.
  specialize (H e (or_introl eq_refl)).
  destruct (TemplateKeys (snd e) ctx parentKeys) as [[m|l']|]; try reflexivity.
  assert (Hl : Nat.eqb l' l = false) by (apply Nat.eqb_neq; congruence).
  induction (default [] (used !! fst e)) as [|v u IHu]; cbn [flat_map]; [reflexivity|].
  rewrite existsb_app, IHu, orb_false_r. unfold writes_for.
  destruct (TemplateCallbacks (snd e) ctx v parentKeys) as [result [|]]; cbn [existsb fst];
    [rewrite Hl|]; reflexivity.
Qed.
End ResolverRun.

(** X9. The parameter tree the engine reads has an entry for exactly the
    namespaces of the supplied capabilities: one for every capability,
    whether the template names it or not, and none for a namespace the
    template names without a capability for it. *)
Theorem X9_tree_has_the_namespaces_of_the_capabilities
    {Ctx : Type} (ctx : Ctx) (keys : list (bytes * Templateable Ctx))
    (parentKeys : Keys) (used : usedVars) (w : World) (ns : bytes) :
  is_Some (readTree (buildParams ctx keys parentKeys used w) !! ns)
  <-> In ns (map fst keys).
Proof.
  unfold readTree. rewrite lookup_fmap, buildParams_eq. cbn [fst].
  rewrite fmap_is_Some, tree_of_lookup, lookup_empty. split.
  - intros [[x Hx]|H]; [discriminate|exact H].
  - intros H. right. exact H.
Qed.

(** X10. A run of the resolver writes into no kept map but those the
    supplied capabilities hand out as their bulk mapping; and it leaves the
    whole store as it was when no callback of a used key sets a value, as
    is the case when the template names no key of the capabilities. *)
Theorem X10_resolver_writes_only_into_bulk_maps
    {Ctx : Type} (ctx : Ctx) (tmpl : tpl) (body : bytes)
    (keys : list (bytes * Templateable Ctx)) (parentKeys : Keys)
    (used : usedVars) (w : World) :
  (forall l,
     (forall e, In e keys -> TemplateKeys (snd e) ctx parentKeys <> Some (Held l)) ->
     w_store (snd (replaceVariables ctx tmpl body keys parentKeys used w)) !! l
     = w_store w !! l)
  /\ ((forall e v, In e keys -> In v (default [] (used !! fst e)) ->
         snd (TemplateCallbacks (snd e) ctx v parentKeys) = false) ->
      w_store (snd (replaceVariables ctx tmpl body keys parentKeys used w)) = w_store w).
Proof.
  rewrite replaceVariables_world, buildParams_eq. cbn [snd w_store]. split.
  - intros l H. rewrite apply_writes_lookup, (writes_of_places _ _ _ _ _ H). reflexivity.
  - intros H. rewrite (writes_of_none _ _ _ _ H). reflexivity.
Qed.

Lemma X10_witness :
  let keys := [(lit "Test", TestKeys (Some (Held 0)))] in
  let st : Store := {[ 0 := {[ lit "Name" := VString (lit "bulk") ]}; 1 := ∅ ]} in
  let tmpl := {| Execute := fun _ => ([], None) |} in
  let used : usedVars := {[ lit "Test" := [lit "Useit"] ]} in
  w_store (snd (replaceVariables tt tmpl [] keys None used (newWorld st))) !! 1 = st !! 1
  /\ w_store (snd (replaceVariables tt tmpl [] keys None ∅ (newWorld st))) = st.
Proof.
  cbv zeta. split.
  - apply (X10_resolver_writes_only_into_bulk_maps tt). intros e [<-|[]]. discriminate.
  - apply (X10_resolver_writes_only_into_bulk_maps tt). intros e v [<-|[]] Hv.
    cbn in Hv. destruct Hv.
Defined.

(** ** What the Variable Index holds *)

Lemma tag_refs_In p tags :
  In p (tag_refs tags) -> exists m, In m tags /\ tag_ref m = Some p.
Proof.
  induction tags as [|m tags IH]; cbn [tag_refs]; [intros []|].
  destruct (tag_ref m) as [q|] eqn:E.
  - intros [<-|H].
    + exists m. split; [left; reflexivity|exact E].
    + destruct (IH H) as (m' & Hm' & E'). exists m'. split; [right; exact Hm'|exact E'].
  - intros H. destruct (IH H) as (m' & Hm' & E'). exists m'. split; [right; exact Hm'|exact E'].
Qed.

Lemma is_lower_to_upper c : is_lower (to_upper_byte c) = false.
Proof. destruct c as [[] [] [] [] [] [] [] []]; reflexivity. Qed.

(** A capitalized segment starts with a byte that is no ASCII lower-case
    letter. *)
Lemma ToUpper1_head c t :
  exists c' t', ToUpper1 c ++ t = c' :: t' /\ is_lower c' = false.
Proof.
  unfold ToUpper1. destruct (nat_of_ascii c <? 128).
  - exists (to_upper_byte c), t. split; [reflexivity|apply is_lower_to_upper].
  - eexists _, _. split; reflexivity.
Qed.

Lemma tag_ref_heads m ns k :
  tag_ref m = Some (ns, k) ->
  (exists c t, ns = c :: t /\ is_lower c = false)
  /\ (exists c t, k = c :: t /\ is_lower c = false).
Proof.
  unfold tag_ref. destruct (escaped m); [discriminate|].
  destruct (dot_segments m) as [|[|n0 nr] [|[|k0 kr] more]]; try discriminate.
  intros [= <- <-]. split; apply ToUpper1_head.
Qed.

(** X12. Every namespace of the Variable Index has at least one key, and
    neither a namespace nor a key is empty or starts with an ASCII
    lower-case letter.  So a capability supplied under a name that starts
    with a lower-case letter is never asked for a key. *)
Theorem X12_index_holds_capitalized_names (body out : bytes) (idx : usedVars)
    (ns : bytes) (l : list bytes) :
  prepareTemplateTags body = Some (out, idx) ->
  idx !! ns = Some l ->
  l <> []
  /\ (exists c t, ns = c :: t /\ is_lower c = false)
  /\ (forall k, In k l -> exists c t, k = c :: t /\ is_lower c = false).
Proof.
  intros Hp Hl. rewrite (prepare_index_spec _ _ _ Hp) in Hl. unfold index_spec in Hl.
  assert (Hl' : l = first_seen (keys_of ns (referenced body)) /\ l <> []).
  { destruct (first_seen (keys_of ns (referenced body))); [discriminate|].
    injection Hl as <-. split; [reflexivity|discriminate]. }
  destruct Hl' as [El Hne]. split; [exact Hne|].
  assert (Hk : forall k, In k l ->
            (exists c t, ns = c :: t /\ is_lower c = false)
            /\ (exists c t, k = c :: t /\ is_lower c = false)).
  { intros k Hk. rewrite El in Hk. apply first_seen_In, keys_of_In in Hk.
    destruct (tag_refs_In _ _ Hk) as (m & _ & Hm). apply (tag_ref_heads _ _ _ Hm). }
  split.
  - destruct l as [|k l']; [congruence|]. apply (Hk k). left. reflexivity.
  - intros k Hin. apply (Hk k Hin).
Qed.

Lemma X12_witness :
  let body := lit "{%test.b%} {%Test.a%} {%inbox.name%}" in
  let r := default ([], ∅) (prepareTemplateTags body) in
  prepareTemplateTags body = Some (fst r, snd r)
  /\ snd r !! lit "Test" = Some [lit "B"; lit "A"]
  /\ snd r !! lit "inbox" = None
  /\ exists c t, lit "Test" = c :: t /\ is_lower c = false.
Proof.
  cbv zeta.
  assert (H : prepareTemplateTags (lit "{%test.b%} {%Test.a%} {%inbox.name%}")
    = Some (fst (default ([], ∅) (prepareTemplateTags
                   (lit "{%test.b%} {%Test.a%} {%inbox.name%}"))),
            snd (default ([], ∅) (prepareTemplateTags
                   (lit "{%test.b%} {%Test.a%} {%inbox.name%}"))))).
  { vm_cast_no_check (eq_refl (prepareTemplateTags
      (lit "{%test.b%} {%Test.a%} {%inbox.name%}"))). }
  assert (Hl : snd (default ([], ∅) (prepareTemplateTags
                      (lit "{%test.b%} {%Test.a%} {%inbox.name%}"))) !! lit "Test"
               = Some [lit "B"; lit "A"]) by (vm_compute; reflexivity).
  split; [exact H|]. split; [exact Hl|]. split; [vm_compute; reflexivity|].
  destruct (X12_index_holds_capitalized_names _ _ _ _ _ H Hl) as (_ & Hns & _).
  exact Hns.
Defined.

(** ** The Fallback Expander on its own *)

Lemma fallback_at_length s : fallback_at s = true -> 8 <= length s.
Proof.
  destruct s as [|c1 [|c2 [|c3 [|c4 [|c5 [|c6 [|c7 [|c8 s]]]]]]]]; cbn [fallback_at];
    try discriminate.
  - rewrite andb_false_r. discriminate.
  - intros _. cbn [length]. lia.
Qed.

Lemma lower_contains_fallback_length s : lower_contains_fallback s = true -> 8 <= length s.
Proof.
  induction s as [|c s IH]; cbn [lower_contains_fallback].
  - rewrite orb_false_r. apply fallback_at_length.
  - intros H. apply orb_true_iff in H as [H|H].
    + apply fallback_at_length, H.
    + apply IH in H. cbn [length]. lia.
Qed.

(** X13. [replaceTemplateFallback] returns its argument unless the
    argument holds the word [fallback], in letters of either case, and a
    comma between its first two and its last two bytes; then it returns the
    conditional triple on the trimmed text before the first comma, with the
    trimmed text after it, fallback markers removed, as the fallback text.
    The first two and the last two bytes are dropped whatever they are.  An
    argument that holds the word has eight bytes at least, so the slice
    [tag[2 : len(tag)-2]] is always within bounds. *)
Theorem X13_fallback_expander_cases (tag : bytes) :
  (lower_contains_fallback tag = true -> 8 <= length tag)
  /\ (lower_contains_fallback tag = false
      \/ Contains_byte (firstn (length tag - 4) (skipn 2 tag)) "," = false ->
      replaceTemplateFallback tag = tag)
  /\ (forall d1 variable clause d2,
        lower_contains_fallback tag = true ->
        tag = d1 ++ (variable ++ ","%char :: clause) ++ d2 ->
        length d1 = 2 -> length d2 = 2 ->
        Contains_byte variable "," = false ->
        replaceTemplateFallback tag
        = conditional (TrimSpace variable)
            (TrimSpace (ReplaceAllString findFallback clause []))).
Proof.
  split; [apply lower_contains_fallback_length|]. split.
  - intros [H|H]; unfold replaceTemplateFallback.
    + rewrite H. reflexivity.
    + destruct (lower_contains_fallback tag); [|reflexivity]. cbn [negb].
      rewrite (SplitN2_no_sep _ _ H). reflexivity.
  - intros d1 variable clause d2 Hw -> H1 H2 Hv. unfold replaceTemplateFallback.
    rewrite Hw. cbn [negb]. rewrite (strip_delims d1 _ d2 H1 H2).
    rewrite (SplitN2_at_sep _ _ _ Hv). reflexivity.
Qed.

Lemma X13_witness :
  replaceTemplateFallback (lit "<<.Inbox.Name , fallback = this inbox, please>>")
  = conditional (lit ".Inbox.Name") (lit "this inbox, please")
  /\ replaceTemplateFallback (lit "{{.Inbox.Fallback}}") = lit "{{.Inbox.Fallback}}".
Proof.
  destruct (X13_fallback_expander_cases
              (lit "<<.Inbox.Name , fallback = this inbox, please>>")) as (_ & _ & H3).
  destruct (X13_fallback_expander_cases (lit "{{.Inbox.Fallback}}")) as (_ & H2 & _).
  split.
  - rewrite (H3 (lit "<<") (lit ".Inbox.Name ") (lit " fallback = this inbox, please")
               (lit ">>") eq_refl eq_refl eq_refl eq_refl eq_refl).
    vm_compute. reflexivity.
  - apply H2. right. reflexivity.
Defined.

(** ** The fallback marker *)

Section MarkerPattern.
Context {R : Type}.
Implicit Types (k : bytes -> caps -> option R).

(** A greedy loop over a byte class takes a whole run of the class when
    what follows matches after it. *)
Lemma run_Star_class_success (p : ascii -> bool) sp rest cs k x :
  forallb p sp = true ->
  match rest with c :: _ => p c = false | [] => True end ->
  k rest cs = Some x ->
  run (Star true (Chr p)) (sp ++ rest) cs k = Some x.
Proof.
  intros Hsp Hrest Hk. induction sp as [|c sp IH]; cbn [app].
  - destruct rest as [|c t].
    + rewrite run_Star_nil. exact Hk.
    + rewrite run_Star_Chr_cons. cbv zeta. rewrite Hrest. exact Hk.
  - cbn [forallb] in Hsp. apply andb_true_iff in Hsp as [Hc Hsp].
    rewrite run_Star_Chr_cons. cbv zeta. rewrite Hc, (IH Hsp). reflexivity.
Qed.

Lemma run_FoldChr_success c f rest cs k x :
  to_lower_byte f = to_lower_byte c ->
  k rest cs = Some x ->
  run (FoldChr c) (f :: rest) cs k = Some x.
Proof.
  intros Hf Hk.
  assert (Hc : fold_eqb c f = true).
  { unfold fold_eqb. rewrite Hf. apply byte_eqb_refl. }
  unfold FoldChr.
  destruct (byte_eqb (to_lower_byte c) "k"); [|destruct (byte_eqb (to_lower_byte c) "s")];
    cbn [run]; rewrite Hc, Hk; reflexivity.
Qed.

(** A literal under [(?i)] matches the same letters in either case. *)
Lemma run_LitFold_success l F rest cs k x :
  map to_lower_byte F = map to_lower_byte l ->
  k rest cs = Some x ->
  run (LitFold l) (F ++ rest) cs k = Some x.
Proof.
  revert F; induction l as [|c l IH]; intros [|f F] HF Hk; try discriminate.
  - exact Hk.
  - cbn [map] in HF. injection HF as Hf HF. cbn [LitFold app]. rewrite run_Seq.
    apply run_FoldChr_success; [exact Hf|]. apply IH; assumption.
Qed.
End MarkerPattern.

(** A marker at the start of a text: white space, the word, white space,
    the equals sign. *)
Lemma match_here_marker sp1 F sp2 text :
  forallb is_re_space sp1 = true -> forallb is_re_space sp2 = true ->
  map to_lower_byte F = lit "fallback" ->
  exists cs,
    match_here (re_expr findFallback) (sp1 ++ F ++ sp2 ++ "="%char :: text)
    = Some (text, cs).
Proof.
  intros H1 H2 HF. eexists. unfold match_here, findFallback. cbn [re_expr].
  rewrite run_Seq. apply run_Star_class_success; [exact H1| |].
  - destruct F as [|f F]; [discriminate|]. cbn [app map] in *. injection HF as Hf _.
    destruct f as [[] [] [] [] [] [] [] []]; try discriminate Hf; reflexivity.
  - rewrite run_Seq, run_Group.
    apply run_LitFold_success; [exact HF|].
    rewrite run_Seq. apply run_Star_class_success; [exact H2|reflexivity|].
    change ("="%char :: text) with (lit "=" ++ text). rewrite run_Lit_app. reflexivity.
Qed.

Lemma matches_marker_equals m :
  matches (re_expr findFallback) m -> Contains_byte m "=" = true.
Proof.
  unfold findFallback. cbn [re_expr]. intros H.
  inversion H as [| |r1 r2 w1 w2 _ H2| | | | |]; subst.
  inversion H2 as [| |r1 r2 w3 w4 _ H4| | | | |]; subst.
  inversion H4 as [| |r1 r2 w5 w6 _ H6| | | | |]; subst.
  apply (matches_Lit (lit "=")) in H6 as ->.
  rewrite !Contains_byte_app. cbn [lit list_ascii_of_string Contains_byte existsb].
  rewrite byte_eqb_refl, !orb_true_r. reflexivity.
Qed.

Lemma find_marker_none text :
  Contains_byte text "=" = false -> find findFallback text = None.
Proof.
  intros H. destruct (find findFallback text) as [f|] eqn:Hf; [|reflexivity].
  destruct (find_split _ _ _ Hf) as (gap & m & rest & -> & _ & _ & _ & Hm).
  apply matches_marker_equals in Hm. rewrite !Contains_byte_app, Hm, orb_true_r in H.
  discriminate.
Qed.

(** Removing the markers of a clause that starts with one and has no
    equals sign behind it leaves the text behind the marker. *)
Lemma remove_marker sp1 F sp2 text :
  forallb is_re_space sp1 = true -> forallb is_re_space sp2 = true ->
  map to_lower_byte F = lit "fallback" ->
  Contains_byte text "=" = false ->
  ReplaceAllString findFallback (sp1 ++ F ++ sp2 ++ "="%char :: text) [] = text.
Proof.
  intros H1 H2 HF Ht.
  destruct (match_here_marker sp1 F sp2 text H1 H2 HF) as [cs Hm].
  unfold ReplaceAllString, ReplaceAllStringFunc. rewrite segments_unfold.
  unfold find. rewrite find_from_eq, Hm. cbv zeta. cbn [f_end f_start f_sub Nat.add].
  assert (Hinp : sp1 ++ F ++ sp2 ++ "="%char :: text
                 = (sp1 ++ F ++ sp2 ++ ["="%char]) ++ text).
  { rewrite <- !app_assoc. reflexivity. }
  assert (Hlen : length (sp1 ++ F ++ sp2 ++ "="%char :: text) - length text
                 = length (sp1 ++ F ++ sp2 ++ ["="%char])).
  { rewrite Hinp, (length_app _ text). lia. }
  assert (Hskip : skipn (length (sp1 ++ F ++ sp2 ++ "="%char :: text) - length text)
                    (sp1 ++ F ++ sp2 ++ "="%char :: text) = text).
  { rewrite Hlen, Hinp. apply drop_app_length. }
  rewrite Hskip.
  replace (length (sp1 ++ F ++ sp2 ++ "="%char :: text) - length text =? 0) with false.
  2:{ symmetry. apply Nat.eqb_neq. rewrite Hlen, !length_app. cbn [length]. lia. }
  rewrite (segments_no_match _ _ (find_marker_none _ Ht)).
  cbn [replace_pure flat_map firstn app whole hd]. apply app_nil_r.
Qed.

Lemma lower_contains_fallback_app_r a b :
  lower_contains_fallback b = true -> lower_contains_fallback (a ++ b) = true.
Proof.
  intros H. induction a as [|c a IH]; [exact H|].
  cbn [app lower_contains_fallback]. rewrite IH. apply orb_true_r.
Qed.

Lemma fallback_at_word F rest :
  map to_lower_byte F = lit "fallback" -> fallback_at (F ++ rest) = true.
Proof.
  intros HF.
  destruct F as [|c1 [|c2 [|c3 [|c4 [|c5 [|c6 [|c7 [|c8 [|c9 F]]]]]]]]]; try discriminate HF.
  cbn [map lit list_ascii_of_string] in HF.
  injection HF as E1 E2 E3 E4 E5 E6 E7 E8.
  cbn [app fallback_at]. unfold fold_eqb. rewrite E1, E2, E3, E4, E5, E6, E7, E8.
  reflexivity.
Qed.

Lemma lower_contains_fallback_word a F b :
  map to_lower_byte F = lit "fallback" -> lower_contains_fallback (a ++ F ++ b) = true.
Proof.
  intros HF. apply lower_contains_fallback_app_r.
  destruct (F ++ b) as [|c s] eqn:E.
  - destruct F; discriminate.
  - cbn [lower_contains_fallback]. rewrite <- E, (fallback_at_word F b HF). reflexivity.
Qed.

(** X14. For an argument of the form: two bytes, a variable without comma,
    a comma, white space, the word [fallback] in letters of either case,
    white space, an equals sign, a text without equals sign, two bytes,
    [replaceTemplateFallback] returns the conditional triple on the
    trimmed variable with the trimmed text as the fallback text; commas
    and other bytes of the text are kept. *)
Theorem X14_fallback_marker_removed
    (d1 variable sp1 F sp2 text d2 : bytes) :
  length d1 = 2 -> length d2 = 2 ->
  Contains_byte variable "," = false ->
  forallb is_re_space sp1 = true -> forallb is_re_space sp2 = true ->
  map to_lower_byte F = lit "fallback" ->
  Contains_byte text "=" = false ->
  replaceTemplateFallback
    (d1 ++ (variable ++ ","%char :: sp1 ++ F ++ sp2 ++ "="%char :: text) ++ d2)
  = conditional (TrimSpace variable) (TrimSpace text).
Proof.
  intros Hd1 Hd2 Hv H1 H2 HF Ht. unfold replaceTemplateFallback.
  replace (lower_contains_fallback
             (d1 ++ (variable ++ ","%char :: sp1 ++ F ++ sp2 ++ "="%char :: text) ++ d2))
    with true.
  2:{ symmetry.
      replace (d1 ++ (variable ++ ","%char :: sp1 ++ F ++ sp2 ++ "="%char :: text) ++ d2)
        with ((d1 ++ variable ++ ","%char :: sp1) ++ F ++ (sp2 ++ "="%char :: text) ++ d2).
      - apply lower_contains_fallback_word, HF.
      - rewrite <- !app_assoc. cbn [app]. rewrite <- !app_assoc. reflexivity. }
  cbn [negb]. rewrite (strip_delims d1 _ d2 Hd1 Hd2), (SplitN2_at_sep _ _ _ Hv).
  cbn [length Nat.eqb negb nth]. rewrite (remove_marker sp1 F sp2 text H1 H2 HF Ht).
  reflexivity.
Qed.

Lemma X14_witness :
  replaceTemplateFallback (lit "{{.Inbox.Name , FallBack = this inbox, please }}")
  = lit "{{if .Inbox.Name}}{{.Inbox.Name}}{{else}}this inbox, please{{end}}".
Proof.
  refine (eq_trans (X14_fallback_marker_removed (lit "{{") (lit ".Inbox.Name ") (lit " ")
                      (lit "FallBack") (lit " ") (lit " this inbox, please ") (lit "}}")
                      eq_refl eq_refl eq_refl eq_refl eq_refl eq_refl eq_refl) _).
  vm_compute. reflexivity.
Defined.

(** ** Tags and line breaks *)

Lemma count_byte_app b s t : count_byte b (s ++ t) = count_byte b s + count_byte b t.
Proof. unfold count_byte. rewrite List.filter_app, length_app. reflexivity. Qed.

Lemma only_byte_spec b p c : only_byte b p = true -> p c = true -> c = b.
Proof.
  unfold only_byte. rewrite forallb_forall. intros H Hp.
  specialize (H (nat_of_ascii c)). rewrite ascii_nat_embedding, Hp in H.
  cbn [implb] in H. symmetry. apply byte_eqb_eq, H.
  apply in_seq. pose proof (nat_ascii_bounded c). lia.
Qed.

Lemma matches_min_occ b r w : matches r w -> min_occ b r <= count_byte b w.
Proof.
  induction 1; cbn [min_occ]; try rewrite count_byte_app; try lia.
  destruct (only_byte b p) eqn:E; [|lia].
  rewrite (only_byte_spec _ _ _ E H). unfold count_byte. cbn [List.filter].
  rewrite byte_eqb_refl. cbn [length]. lia.
Qed.

Lemma matches_never_byte b r w :
  never_byte b r = true -> matches r w -> Contains_byte w b = false.
Proof.
  intros Hr Hm. revert Hr. induction Hm; cbn [never_byte]; intros Hr;
    try (apply andb_true_iff in Hr as [Hr1 Hr2]);
    try rewrite Contains_byte_app; auto.
  - unfold Contains_byte. cbn [existsb]. apply negb_true_iff in Hr.
    destruct (byte_eqb b c) eqn:E; [|reflexivity].
    apply byte_eqb_eq in E as ->. congruence.
  - rewrite IHHm1, IHHm2 by assumption. reflexivity.
  - rewrite IHHm1, IHHm2 by assumption. reflexivity.
Qed.

(** A tag holds two percent signs and no line break. *)
Lemma tag_match_shape w :
  matches (re_expr tagsToGo) w -> 2 <= count_byte "%" w /\ Contains_byte w nl = false.
Proof.
  intros H. split.
  - apply (matches_min_occ "%") in H.
    replace (min_occ "%" (re_expr tagsToGo)) with 2 in H by (vm_compute; reflexivity).
    exact H.
  - apply (matches_never_byte nl _ _) in H; [exact H|]. vm_compute. reflexivity.
Qed.

Lemma count_two_split b s :
  2 <= count_byte b s -> exists x y z, s = x ++ b :: y ++ b :: z.
Proof.
  assert (G : forall s, 1 <= count_byte b s -> exists x z, s = x ++ b :: z).
  { induction s0 as [|c s0 IH]; unfold count_byte; cbn [List.filter length]; [lia|].
    destruct (byte_eqb b c) eqn:E.
    - intros _. apply byte_eqb_eq in E as <-. exists [], s0. reflexivity.
    - intros H. destruct (IH H) as (x & z & ->). exists (c :: x), z. reflexivity. }
  induction s as [|c s IH]; unfold count_byte; cbn [List.filter length]; [lia|].
  destruct (byte_eqb b c) eqn:E.
  - cbn [length]. intros H. apply byte_eqb_eq in E as <-.
    destruct (G s) as (y & z & ->); [unfold count_byte; lia|].
    exists [], y, z. reflexivity.
  - intros H. destruct (IH H) as (x & y & z & ->). exists (c :: x), y, z. reflexivity.
Qed.

Lemma one_percent_per_line_seen s b c :
  one_percent_per_line true s = true -> s = b ++ "%"%char :: c -> Contains_byte b nl = true.
Proof.
  revert b; induction s as [|a s IH]; intros b H E.
  - destruct b; discriminate.
  - cbn [one_percent_per_line] in H. destruct b as [|b0 b].
    + injection E as -> _. change (byte_eqb "%" nl) with false in H.
      change (byte_eqb "%" "%") with true in H. discriminate.
    + injection E as <- E. unfold Contains_byte. cbn [existsb].
      destruct (byte_eqb a nl) eqn:Ea.
      * rewrite byte_eqb_sym, Ea. reflexivity.
      * rewrite byte_eqb_sym, Ea. cbn [orb].
        destruct (byte_eqb a "%"); [discriminate|]. apply (IH b H E).
Qed.

Lemma one_percent_per_line_apart seen s a b c :
  one_percent_per_line seen s = true ->
  s = a ++ "%"%char :: b ++ "%"%char :: c -> Contains_byte b nl = true.
Proof.
  revert seen a; induction s as [|x s IH]; intros seen a H E.
  - destruct a; discriminate.
  - cbn [one_percent_per_line] in H. destruct a as [|a0 a].
    + injection E as -> E. change (byte_eqb "%" nl) with false in H.
      change (byte_eqb "%" "%") with true in H. apply andb_true_iff in H as [_ H].
      apply (one_percent_per_line_seen _ _ _ H E).
    + injection E as <- E. destruct (byte_eqb x nl); [apply (IH _ _ H E)|].
      destruct (byte_eqb x "%").
      * apply andb_true_iff in H as [_ H]. apply (IH _ _ H E).
      * apply (IH _ _ H E).
Qed.

(** A text no line of which holds two percent signs has no tag. *)
Lemma find_tag_lines s :
  one_percent_per_line false s = true -> find tagsToGo s = None.
Proof.
  intros H. destruct (find tagsToGo s) as [f|] eqn:Hf; [|reflexivity].
  destruct (find_split _ _ _ Hf) as (gap & m & rest & -> & _ & _ & _ & Hm).
  destruct (tag_match_shape _ Hm) as [Hc Hnl].
  destruct (count_two_split _ _ Hc) as (x & y & z & ->).
  assert (Hy : Contains_byte y nl = true).
  { apply (one_percent_per_line_apart false _ (gap ++ x) y (z ++ rest) H).
    rewrite <- !app_assoc. cbn [app]. rewrite <- !app_assoc. reflexivity. }
  rewrite Contains_byte_app in Hnl. apply orb_false_iff in Hnl as [_ Hnl].
  change ("%"%char :: y ++ "%"%char :: z) with (["%"%char] ++ y ++ "%"%char :: z) in Hnl.
  rewrite !Contains_byte_app, Hy, orb_true_r in Hnl. discriminate.
Qed.

Lemma match_here_escapeGo_prefix inp :
  has_prefix (lit "{{") inp = false -> match_here (re_expr escapeGo) inp = None.
Proof.
  intros H. unfold match_here, escapeGo. cbn [re_expr]. rewrite run_Seq, run_Lit, H.
  reflexivity.
Qed.

Lemma find_from_no_double_brace n pos s :
  no_double_brace s = true -> find_from (re_expr escapeGo) n pos s = None.
Proof.
  revert pos; induction s as [|c s IH]; intros pos H; rewrite find_from_eq.
  - reflexivity.
  - cbn [no_double_brace] in H. apply andb_true_iff in H as [H1 H2].
    apply negb_true_iff in H1. rewrite (match_here_escapeGo_prefix _ H1). apply IH, H2.
Qed.

(** X15. A placeholder tag never spans a line break.  A text no line of
    which holds two percent signs, and in which no two opening braces stand
    side by side, is returned as it is, with an empty Variable Index: a
    tag whose delimiters are on different lines is left in the text. *)
Theorem X15_tag_on_two_lines_is_text (body : bytes) :
  one_percent_per_line false body = true ->
  no_double_brace body = true ->
  prepareTemplateTags body = Some (body, ∅).
Proof.
  intros Hp Hb.
  unfold prepareTemplateTags, tagsPass, ReplaceAllStringFuncM, escapeGoPass,
    ReplaceAllStringFunc, replace_pure.
  rewrite (segments_no_match escapeGo body) by (apply find_from_no_double_brace, Hb).
  cbn [flat_map]. rewrite app_nil_r.
  rewrite (segments_no_match _ _ (find_tag_lines _ Hp)). cbn [replace_segments].
  rewrite app_nil_r. reflexivity.
Qed.

Lemma X15_witness :
  prepareTemplateTags (lit "Dear {% user." ++ nl :: lit "name %}, hello")
  = Some (lit "Dear {% user." ++ nl :: lit "name %}, hello", ∅).
Proof.
  apply X15_tag_on_two_lines_is_text; vm_compute; reflexivity.
Defined.

(** ** Tags in either spelling of the delimiters *)

Section Delimiters.
Variables op cl : bytes.
Hypothesis Hop : forall X cs (k : bytes -> caps -> option (bytes * caps)),
  run open_delim (op ++ X) cs k = k X cs.
Hypothesis Hcl : forall X cs (k : bytes -> caps -> option (bytes * caps)),
  run close_delim (cl ++ X) cs k = k X cs.
Hypothesis Hhead : exists c t, op = c :: t /\ c <> backslash.

Lemma run_closers_form rest cs (k : bytes -> caps -> option (bytes * caps)) :
  match rest with c :: _ => c <> "%"%char | [] => True end ->
  run (Plus true (Group 3 close_delim)) (cl ++ rest) cs k = k rest ((3, cl) :: cs).
Proof.
  intros Hrest. unfold Plus. rewrite run_Seq, run_Group, Hcl, firstn_app_exact.
  rewrite run_Star. cbv zeta. rewrite run_Group.
  destruct rest as [|c t].
  - rewrite run_close_nil. reflexivity.
  - rewrite run_close_fail by exact Hrest. reflexivity.
Qed.

Lemma match_here_tag_form c0 ct rest :
  Contains_byte (c0 :: ct) "%" = false ->
  Contains_byte (c0 :: ct) nl = false ->
  c0 <> "{"%char ->
  match rest with c :: _ => c <> "%"%char | [] => True end ->
  match_here (re_expr tagsToGo) (op ++ (c0 :: ct) ++ cl ++ rest)
  = Some (rest, [(3, cl); (2, c0 :: ct); (1, op)]).
Proof.
  intros Hpc Hnl Hc0 Hrest. unfold match_here, tagsToGo. cbn [re_expr]. unfold Opt.
  rewrite run_Seq, run_Alt.
  replace (run (Chr (byte_eqb backslash)) (op ++ (c0 :: ct) ++ cl ++ rest) []
             (fun rest0 cs' =>
                run (Seq (Plus true (Group 1 open_delim))
                       (Seq (Group 2 (Star false Dot)) (Plus true (Group 3 close_delim))))
                  rest0 cs' (fun rest1 cs0 => Some (rest1, cs0))))
    with (@None (bytes * caps)).
  2:{ destruct Hhead as (c & t & -> & Hc). cbn [app run].
      replace (byte_eqb backslash c) with false; [reflexivity|].
      symmetry. apply byte_eqb_neq. congruence. }
  cbn [run]; fold (@run (bytes * caps)).
  unfold Plus at 1. rewrite run_Seq, run_Group, Hop, firstn_app_exact.
  rewrite run_Star. cbv zeta.
  assert (Hno : forall K : bytes -> caps -> option (bytes * caps),
            run (Group 1 open_delim) ((c0 :: ct) ++ cl ++ rest) [(1, op)] K = None).
  { intros K. rewrite run_Group. cbn [app]. apply run_open_fail; [exact Hc0|].
    unfold Contains_byte in Hpc. cbn [existsb] in Hpc.
    apply orb_false_iff in Hpc as [Hpc _]. apply byte_eqb_neq in Hpc. congruence. }
  rewrite Hno.
  change (run (Group 2 (Star false Dot)) ((c0 :: ct) ++ (cl ++ rest)) [(1, op)]
            (fun rest0 cs' => run (Plus true (Group 3 close_delim)) rest0 cs'
                                (fun rest1 cs0 => Some (rest1, cs0)))
          = Some (rest, [(3, cl); (2, c0 :: ct); (1, op)])).
  apply run_lazy_group.
  - exact Hnl.
  - intros c t cs' Hin. apply run_closers_fail. intros ->.
    assert (Contains_byte (c0 :: ct) "%" = true); [|congruence].
    unfold Contains_byte. apply existsb_exists. exists "%"%char. split; [exact Hin|reflexivity].
  - rewrite run_closers_form by exact Hrest. reflexivity.
Qed.

Lemma find_tag_form pre c0 ct rest :
  tag_free pre = true ->
  Contains_byte (c0 :: ct) "%" = false ->
  Contains_byte (c0 :: ct) nl = false ->
  c0 <> "{"%char ->
  match rest with c :: _ => c <> "%"%char | [] => True end ->
  find tagsToGo (pre ++ op ++ (c0 :: ct) ++ cl ++ rest)
  = Some (Found (length pre) (length pre + length (op ++ (c0 :: ct) ++ cl))
            [op ++ (c0 :: ct) ++ cl; op; c0 :: ct; cl]).
Proof.
  intros Hpre Hpc Hnl Hc0 Hrest. unfold find.
  rewrite (find_from_tag_free pre _ _ _ Hpre), find_from_eq.
  rewrite (match_here_tag_form c0 ct rest Hpc Hnl Hc0 Hrest).
  cbv zeta. cbn [Nat.add].
  replace (op ++ (c0 :: ct) ++ cl ++ rest) with ((op ++ (c0 :: ct) ++ cl) ++ rest)
    by (rewrite <- !app_assoc; reflexivity).
  rewrite firstn_app_exact.
  replace (length ((op ++ (c0 :: ct) ++ cl) ++ rest) - length rest)
    with (length (op ++ (c0 :: ct) ++ cl)) by (rewrite (length_app _ rest); lia).
  reflexivity.
Qed.

Lemma tag_content_form c0 ct :
  Contains_byte (c0 :: ct) "%" = false ->
  Contains_byte (c0 :: ct) nl = false ->
  c0 <> "{"%char ->
  FindStringSubmatch tagsToGo (op ++ (c0 :: ct) ++ cl)
  = [op ++ (c0 :: ct) ++ cl; op; c0 :: ct; cl].
Proof.
  intros Hpc Hnl Hc0. unfold FindStringSubmatch.
  pose proof (find_tag_form [] c0 ct [] eq_refl Hpc Hnl Hc0 I) as H.
  change ([] ++ op ++ (c0 :: ct) ++ cl ++ []) with (op ++ (c0 :: ct) ++ cl ++ []) in H.
  rewrite app_nil_r in H. rewrite H. reflexivity.
Qed.

Lemma segments_tag_form pre c0 ct rest :
  tag_free pre = true ->
  Contains_byte (c0 :: ct) "%" = false ->
  Contains_byte (c0 :: ct) nl = false ->
  c0 <> "{"%char ->
  match rest with c :: _ => c <> "%"%char | [] => True end ->
  segments tagsToGo (pre ++ op ++ (c0 :: ct) ++ cl ++ rest)
  = Gap pre :: Tag [op ++ (c0 :: ct) ++ cl; op; c0 :: ct; cl] :: segments tagsToGo rest.
Proof.
  intros Hpre Hpc Hnl Hc0 Hrest. rewrite segments_unfold.
  rewrite (find_tag_form pre c0 ct rest Hpre Hpc Hnl Hc0 Hrest).
  cbn [f_start f_end f_sub].
  replace (length pre + length (op ++ (c0 :: ct) ++ cl) =? 0) with false.
  2:{ symmetry. apply Nat.eqb_neq. rewrite !length_app. cbn [length]. lia. }
  rewrite take_app_length. do 2 f_equal.
  replace (pre ++ op ++ (c0 :: ct) ++ cl ++ rest)
    with ((pre ++ op ++ (c0 :: ct) ++ cl) ++ rest)
    by (rewrite <- !app_assoc; reflexivity).
  rewrite <- length_app, drop_app_length. reflexivity.
Qed.

Lemma content_head_cons sp1 ns key sp2 :
  blanks sp1 = true -> ident ns = true ->
  exists c0 ct, sp1 ++ ns ++ lit "." ++ key ++ sp2 = c0 :: ct /\ c0 <> "{"%char.
Proof.
  intros H1 Hn. pose proof (plain_content_head sp1 ns key sp2 H1 Hn) as Hh.
  destruct (sp1 ++ ns ++ lit "." ++ key ++ sp2) as [|c0 ct] eqn:E.
  - destruct sp1; [destruct ns; discriminate|discriminate].
  - eauto.
Qed.

Lemma tagFunc_tag_form sp1 ns key sp2 used :
  blanks sp1 = true -> ident ns = true -> ident key = true -> blanks sp2 = true ->
  tagFunc (op ++ (sp1 ++ ns ++ lit "." ++ key ++ sp2) ++ cl) used
  = Some (directive (upper_first ns) (upper_first key),
          record_used (upper_first ns) (upper_first key) used).
Proof.
  intros H1 Hn Hk H2.
  pose proof (plain_content_exclude sp1 ns key sp2 "%" eq_refl eq_refl eq_refl H1 Hn Hk H2) as Hpc.
  pose proof (plain_content_exclude sp1 ns key sp2 nl eq_refl eq_refl eq_refl H1 Hn Hk H2) as Hnl.
  pose proof (plain_content_segments sp1 ns key sp2 H1 Hn Hk H2) as Hsplit.
  destruct (content_head_cons sp1 ns key sp2 H1 Hn) as (c0 & ct & Ec & Hc0).
  rewrite Ec in *.
  pose proof (tag_content_form c0 ct Hpc Hnl Hc0) as Hsub.
  assert (Hseg : dot_segments (op ++ (c0 :: ct) ++ cl) = [ns; key]).
  { unfold dot_segments, tag_content. rewrite Hsub. cbn [nth]. exact Hsplit. }
  assert (Hesc : escaped (op ++ (c0 :: ct) ++ cl) = false).
  { destruct Hhead as (c & t & -> & Hc). cbn [app escaped]. apply byte_eqb_neq, Hc. }
  destruct ns as [|n0 nr]; [discriminate|]. destruct key as [|k0 kr]; [discriminate|].
  rewrite (tagFunc_two_segments _ used n0 nr k0 kr [] Hesc Hseg).
  pose proof (ident_capitalize _ Hn) as En. pose proof (ident_capitalize _ Hk) as Ek.
  cbn [capitalize] in En, Ek. injection En as En. injection Ek as Ek. rewrite En, Ek.
  rewrite replaceTemplateFallback_no_comma; [reflexivity| |].
  - apply ident_exclude; [reflexivity|]. apply (ident_upper_first (n0 :: nr)), Hn.
  - apply ident_exclude; [reflexivity|]. apply (ident_upper_first (k0 :: kr)), Hk.
Qed.

Lemma tag_form_pass pre sp1 ns key sp2 rest used :
  tag_free pre = true ->
  blanks sp1 = true -> ident ns = true -> ident key = true -> blanks sp2 = true ->
  match rest with c :: _ => c <> "%"%char | [] => True end ->
  tagsPass (pre ++ op ++ (sp1 ++ ns ++ lit "." ++ key ++ sp2) ++ cl ++ rest) used
  = match tagsPass rest (record_used (upper_first ns) (upper_first key) used) with
    | Some (o, u) => Some (pre ++ directive (upper_first ns) (upper_first key) ++ o, u)
    | None => None
    end.
Proof.
  intros Hpre H1 Hn Hk H2 Hrest.
  pose proof (plain_content_exclude sp1 ns key sp2 "%" eq_refl eq_refl eq_refl H1 Hn Hk H2) as Hpc.
  pose proof (plain_content_exclude sp1 ns key sp2 nl eq_refl eq_refl eq_refl H1 Hn Hk H2) as Hnl.
  pose proof (tagFunc_tag_form sp1 ns key sp2 used H1 Hn Hk H2) as Hf.
  destruct (content_head_cons sp1 ns key sp2 H1 Hn) as (c0 & ct & Ec & Hc0).
  rewrite Ec in *.
  unfold tagsPass, ReplaceAllStringFuncM.
  rewrite (segments_tag_form pre c0 ct rest Hpre Hpc Hnl Hc0 Hrest).
  cbn [replace_segments whole hd]. rewrite Hf.
  destruct (replace_segments tagFunc (segments tagsToGo rest) _) as [[o u]|]; reflexivity.
Qed.
End Delimiters.

Lemma run_open_spellings op :
  tag_open op = true ->
  (forall X cs (k : bytes -> caps -> option (bytes * caps)),
     run open_delim (op ++ X) cs k = k X cs)
  /\ exists c t, op = c :: t /\ c <> backslash.
Proof.
  unfold tag_open. intros H. apply orb_true_iff in H as [H|H];
    [apply orb_true_iff in H as [H|H]|]; apply bytes_eqb_eq in H as ->.
  - split; [intros; apply run_open_brace|]. eexists _, _. split; [reflexivity|discriminate].
  - split; [|eexists _, _; split; [reflexivity|discriminate]].
    intros X cs k. unfold open_delim. cbn [run LitFold lit list_ascii_of_string app].
    change (FoldChr "{") with (Chr (fold_eqb "{")).
    change (FoldChr "%") with (Chr (fold_eqb "%")).
    change (FoldChr "7") with (Chr (fold_eqb "7")).
    change (FoldChr "B") with (Chr (fold_eqb "B")).
    change (FoldChr "2") with (Chr (fold_eqb "2")).
    change (FoldChr "5") with (Chr (fold_eqb "5")).
    cbn [run]. reflexivity.
  - split; [|eexists _, _; split; [reflexivity|discriminate]].
    intros X cs k. unfold open_delim. cbn [run LitFold lit list_ascii_of_string app].
    change (FoldChr "{") with (Chr (fold_eqb "{")).
    change (FoldChr "%") with (Chr (fold_eqb "%")).
    change (FoldChr "7") with (Chr (fold_eqb "7")).
    change (FoldChr "B") with (Chr (fold_eqb "B")).
    change (FoldChr "2") with (Chr (fold_eqb "2")).
    change (FoldChr "5") with (Chr (fold_eqb "5")).
    cbn [run]. reflexivity.
Qed.

Lemma run_close_spellings cl :
  tag_close cl = true ->
  forall X cs (k : bytes -> caps -> option (bytes * caps)),
    run close_delim (cl ++ X) cs k = k X cs.
Proof.
  unfold tag_close. intros H. apply orb_true_iff in H as [H|H];
    [apply orb_true_iff in H as [H|H]|]; apply bytes_eqb_eq in H as ->.
  - intros; apply run_close_brace.
  - intros X cs k. unfold close_delim. cbn [run LitFold lit list_ascii_of_string app].
    change (FoldChr "}") with (Chr (fold_eqb "}")).
    change (FoldChr "%") with (Chr (fold_eqb "%")).
    change (FoldChr "7") with (Chr (fold_eqb "7")).
    change (FoldChr "D") with (Chr (fold_eqb "D")).
    change (FoldChr "2") with (Chr (fold_eqb "2")).
    change (FoldChr "5") with (Chr (fold_eqb "5")).
    cbn [run]. reflexivity.
  - intros X cs k. unfold close_delim. cbn [run LitFold lit list_ascii_of_string app].
    change (FoldChr "}") with (Chr (fold_eqb "}")).
    change (FoldChr "%") with (Chr (fold_eqb "%")).
    change (FoldChr "7") with (Chr (fold_eqb "7")).
    change (FoldChr "D") with (Chr (fold_eqb "D")).
    change (FoldChr "2") with (Chr (fold_eqb "2")).
    change (FoldChr "5") with (Chr (fold_eqb "5")).
    cbn [run]. reflexivity.
Qed.

(** X16. The percent-encoded delimiters [%7B%25] and [%25%7D], with the
    hexadecimal letter in either case, stand for [{%] and [%}], in any
    combination: a tag of blanks, an identifier, a dot, an identifier and
    blanks between an opening and a closing delimiter of either spelling,
    behind text in which no tag can start, is replaced by the directive of
    the two capitalized identifiers, and the pair is recorded. *)
Theorem X16_percent_encoded_delimiters
    (op cl pre sp1 ns key sp2 rest : bytes) (used : usedVars) :
  tag_open op = true -> tag_close cl = true ->
  tag_free pre = true ->
  blanks sp1 = true -> ident ns = true -> ident key = true -> blanks sp2 = true ->
  match rest with c :: _ => c <> "%"%char | [] => True end ->
  tagsPass (pre ++ op ++ (sp1 ++ ns ++ lit "." ++ key ++ sp2) ++ cl ++ rest) used
  = match tagsPass rest (record_used (upper_first ns) (upper_first key) used) with
    | Some (o, u) => Some (pre ++ directive (upper_first ns) (upper_first key) ++ o, u)
    | None => None
    end.
Proof.
  intros Hop Hcl. destruct (run_open_spellings op Hop) as [Ho Hh].
  intros Hpre H1 Hn Hk H2 Hrest.
  apply (tag_form_pass op cl Ho (run_close_spellings cl Hcl) Hh); assumption.
Qed.

Lemma X16_witness :
  prepareTemplateTags (lit "<a href=/reset?name=%7b%25 user.name %25%7D&x=1>")
  = Some (lit "<a href=/reset?name={{.User.Name}}&x=1>", {[ lit "User" := [lit "Name"] ]}).
Proof.
  assert (He : escapeGoPass (lit "<a href=/reset?name=%7b%25 user.name %25%7D&x=1>")
               = lit "<a href=/reset?name=%7b%25 user.name %25%7D&x=1>")
    by (vm_compute; reflexivity).
  unfold prepareTemplateTags. rewrite He.
  refine (eq_trans (X16_percent_encoded_delimiters (lit "%7b%25") (lit "%25%7D")
                      (lit "<a href=/reset?name=") (lit " ") (lit "user") (lit "name")
                      (lit " ") (lit "&x=1>") ∅
                      eq_refl eq_refl eq_refl eq_refl eq_refl eq_refl eq_refl _) _).
  - cbn [lit list_ascii_of_string]. discriminate.
  - vm_compute. reflexivity.
Defined.

(** ** The Error Translator on the engine's message for a missing key *)

Section ErrorPattern.
Context {R : Type}.
Implicit Types (k : bytes -> caps -> option R).

(** A lazy [.*?] stops at the first place where what follows matches. *)
Lemma run_lazy_star w tail cs k x :
  Contains_byte w nl = false ->
  (forall c t cs', In c w -> k (c :: t) cs' = None) ->
  k tail cs = Some x ->
  run (Star false Dot) (w ++ tail) cs k = Some x.
Proof.
  intros Hnl Hfail Hk. induction w as [|c w IH].
  - rewrite run_Star. cbv zeta. cbn [app]. rewrite Hk. reflexivity.
  - rewrite run_Star. cbv zeta. cbn [app].
    rewrite Hfail by (left; reflexivity).
    unfold Dot at 1. cbn [run].
    unfold Contains_byte in Hnl. cbn [existsb] in Hnl.
    apply orb_false_iff in Hnl as [Hc Hnl]. rewrite byte_eqb_sym, Hc. cbn [negb].
    replace (length (w ++ tail) <? length (c :: w ++ tail)) with true
      by (symmetry; apply Nat.ltb_lt; simpl; lia).
    apply IH; [exact Hnl|]. intros c' t cs' Hin. apply Hfail. right. exact Hin.
Qed.

Lemma run_Lit_other b c t cs k :
  b <> c -> run (Lit [b]) (c :: t) cs k = None.
Proof.
  intros H. rewrite run_Lit. cbn [has_prefix].
  replace (byte_eqb b c) with false; [reflexivity|]. symmetry. apply byte_eqb_neq, H.
Qed.
End ErrorPattern.

Lemma not_in_neq (w : bytes) b c : Contains_byte w b = false -> In c w -> b <> c.
Proof.
  intros H Hin ->. assert (Contains_byte w c = true); [|congruence].
  unfold Contains_byte. apply existsb_exists. exists c. split; [exact Hin|apply byte_eqb_refl].
Qed.

Lemma match_here_exec_error path mid key tail :
  Contains_byte path ">" = false -> Contains_byte path nl = false ->
  Contains_byte mid dq = false -> Contains_byte mid nl = false ->
  Contains_byte key dq = false -> Contains_byte key nl = false ->
  match_here (re_expr parseTemplateError)
    (exec_marker ++ path ++ ">"%char :: mid ++ dq :: key ++ dq :: tail)
  = Some (tail, [(2, key); (1, path)]).
Proof.
  intros Hp1 Hp2 Hm1 Hm2 Hk1 Hk2. unfold match_here, parseTemplateError. cbn [re_expr].
  fold exec_marker. rewrite run_Seq, run_Lit_app, run_Seq.
  apply run_lazy_group; [exact Hp2| |].
  - intros c t cs' Hin. rewrite run_Seq. apply run_Lit_other. apply (not_in_neq _ _ _ Hp1 Hin).
  - rewrite run_Seq. change (">"%char :: mid ++ dq :: key ++ dq :: tail)
      with (lit ">" ++ mid ++ dq :: key ++ dq :: tail).
    rewrite run_Lit_app, run_Seq.
    apply run_lazy_star; [exact Hm2| |].
    + intros c t cs' Hin. rewrite run_Seq. apply run_Lit_other. apply (not_in_neq _ _ _ Hm1 Hin).
    + rewrite run_Seq. change (dq :: key ++ dq :: tail) with ([dq] ++ key ++ dq :: tail).
      rewrite run_Lit_app, run_Seq.
      apply run_lazy_group; [exact Hk2| |].
      * intros c t cs' Hin. apply run_Lit_other. apply (not_in_neq _ _ _ Hk1 Hin).
      * change (dq :: tail) with ([dq] ++ tail). rewrite run_Lit_app. reflexivity.
Qed.

Lemma match_here_exec_error_none inp :
  has_prefix exec_marker inp = false -> match_here (re_expr parseTemplateError) inp = None.
Proof.
  intros H. unfold match_here, parseTemplateError. cbn [re_expr]. fold exec_marker.
  rewrite run_Seq, run_Lit, H. reflexivity.
Qed.

Lemma has_prefix_more l s more : length l <= length s ->
  has_prefix l (s ++ more) = has_prefix l s.
Proof.
  revert s; induction l as [|a l IH]; intros s H; [reflexivity|].
  destruct s as [|c s]; [cbn [length] in H; lia|]. cbn [app has_prefix].
  rewrite IH by (cbn [length] in H; lia). reflexivity.
Qed.

Lemma find_from_starts_nowhere pre n pos rest :
  starts_nowhere exec_marker pre = true ->
  find_from (re_expr parseTemplateError) n pos (pre ++ exec_marker ++ rest)
  = find_from (re_expr parseTemplateError) n (pos + length pre) (exec_marker ++ rest).
Proof.
  revert pos; induction pre as [|c pre IH]; intros pos H.
  - cbn [app length]. rewrite Nat.add_0_r. reflexivity.
  - cbn [starts_nowhere] in H. apply andb_true_iff in H as [H1 H2].
    apply negb_true_iff in H1. rewrite find_from_eq.
    rewrite match_here_exec_error_none.
    + cbn [app]. rewrite (IH (S pos) H2). cbn [length].
      replace (S pos + length pre) with (pos + S (length pre)) by lia. reflexivity.
    + replace ((c :: pre) ++ exec_marker ++ rest) with (((c :: pre) ++ exec_marker) ++ rest)
        by (rewrite <- app_assoc; reflexivity).
      rewrite has_prefix_more; [exact H1|]. rewrite length_app. lia.
Qed.

(** The Error Translator on an execution error of the engine's form. *)
Lemma translateError_exec_message
    (out pre path mid key tail : bytes) :
  starts_nowhere exec_marker pre = true ->
  Contains_byte path ">" = false -> Contains_byte path nl = false ->
  Contains_byte mid dq = false -> Contains_byte mid nl = false ->
  Contains_byte key dq = false -> Contains_byte key nl = false ->
  translateError out
    (ExecError (pre ++ exec_marker ++ path ++ ">"%char :: mid ++ dq :: key ++ dq :: tail))
  = ([], Some (Errorf (lit "unknown variable " ++ key ++ lit " at " ++ path))).
Proof.
  intros Hpre Hp1 Hp2 Hm1 Hm2 Hk1 Hk2. unfold translateError. cbn [Error].
  unfold FindAllStringSubmatch. rewrite segments_unfold. unfold find.
  rewrite (find_from_starts_nowhere pre _ _ _ Hpre), find_from_eq.
  rewrite (match_here_exec_error path mid key tail Hp1 Hp2 Hm1 Hm2 Hk1 Hk2).
  cbv zeta. cbn [f_end f_start f_sub].
  set (span := length (exec_marker ++ path ++ ">"%char :: mid ++ dq :: key ++ dq :: tail)
               - length tail).
  assert (Hspan : 0 < span).
  { unfold span. repeat (rewrite ?length_app; cbn [length]). lia. }
  replace (0 + length pre + span =? 0) with false
    by (symmetry; apply Nat.eqb_neq; lia).
  cbn [flat_map app submatches map seq cap_get Nat.eqb length Nat.ltb Nat.leb nth].
  reflexivity.
Qed.

(** X17. When the text of an execution error holds, for the first time,
    [executing "email" at <.] followed by a field path, [>], some text, and
    a name between double quotes, as in the engine's message for a map
    without the key, the Error Translator returns an empty text and the
    error [unknown variable NAME at PATH]. *)
Theorem X17_missing_key_message_translated
    (out pre path mid key tail : bytes) :
  starts_nowhere exec_marker pre = true ->
  Contains_byte path ">" = false -> Contains_byte path nl = false ->
  Contains_byte mid dq = false -> Contains_byte mid nl = false ->
  Contains_byte key dq = false -> Contains_byte key nl = false ->
  translateError out
    (ExecError (pre ++ exec_marker ++ path ++ ">"%char :: mid ++ dq :: key ++ dq :: tail))
  = ([], Some (Errorf (lit "unknown variable " ++ key ++ lit " at " ++ path))).
Proof. apply translateError_exec_message. Qed.

Lemma X17_witness :
  translateError (lit "Hello {{.Asd.Zxc}}")
    (ExecError (missing_key_message (lit "1:8") (lit "Asd.Zxc") (lit "Asd")))
  = ([], Some (Errorf (lit "unknown variable Asd at Asd.Zxc"))).
Proof.
  exact (X17_missing_key_message_translated (lit "Hello {{.Asd.Zxc}}")
           (lit "template: email:1:8: ") (lit "Asd.Zxc") (lit ": map has no entry for key ")
           (lit "Asd") [] eq_refl eq_refl eq_refl eq_refl eq_refl eq_refl eq_refl).
Defined.

(** ** Strict rendering: the report of a missing name *)














(** ** Text without tags and directives *)

Lemma Cut_none sep s : Contains s sep = false -> Cut sep s = None.
Proof.
  induction s as [|c s IH]; cbn [Contains Cut]; intros H;
    apply orb_false_iff in H as [H1 H2]; rewrite H1; [reflexivity|].
  rewrite (IH H2). reflexivity.
Qed.

Lemma exec_nodes_text strict t params : exec_nodes strict [NText t] params [] = (t, None).
Proof. reflexivity. Qed.

(** The engine for the examples prints a text without [{{] as it is. *)
Lemma fieldEngine_prints_plain_text : prints_plain_text fieldEngine.
Proof.
  intros strict body H. cbn [fieldEngine textParse]. unfold field_template.
  assert (P : parse_nodes (length body) [] body
              = inl (match body with [] => [] | _ => [NText body] end)).
  { destruct (length body); cbn [parse_nodes]; rewrite (Cut_none _ _ H); reflexivity. }
  rewrite P. eexists. split; [reflexivity|].
  intros params. cbn [Execute]. destruct body; reflexivity.
Qed.

(** C9 (amended). On a text in which the pattern set finds neither a
    native directive nor a placeholder tag (of either spelling of the
    delimiters), the transpiler is the identity and records nothing, and
    rendering, with any capabilities, is the underlying engine run on the
    text itself.  When the text holds no left delimiter [{{] and the engine
    prints such a text as it is, the render call returns the input text and
    no error.  When the engine rejects the text, the render call returns
    the input text and the engine's error. *)
Theorem C9_plain_text_identity
    {Ctx : Type} (E : Engine) (ctx : Ctx) (body : bytes)
    (keys : list (bytes * Templateable Ctx)) (parentKeys : Keys) (w : World) :
  find escapeGo body = None ->
  find tagsToGo body = None ->
  prepareTemplateTags body = Some (body, ∅)
  /\ Text E ctx body keys parentKeys w
     = Some (match textParse E false body with
             | inr err => (body, Some err, w)
             | inl tmpl => replaceVariables ctx tmpl body keys parentKeys ∅ w
             end)
  /\ (prints_plain_text E ->
      Contains body (lit "{{") = false ->
      option_map fst (Text E ctx body keys parentKeys w) = Some (body, None))
  /\ (forall err,
        textParse E false body = inr err ->
        Text E ctx body keys parentKeys w = Some (body, Some err, w)).
Proof.
  intros He Ht.
  assert (Hp : prepareTemplateTags body = Some (body, ∅)).
  { unfold prepareTemplateTags, tagsPass, ReplaceAllStringFuncM, escapeGoPass,
      ReplaceAllStringFunc, replace_pure.
    rewrite (segments_no_match _ _ He). cbn [flat_map]. rewrite app_nil_r.
    rewrite (segments_no_match _ _ Ht). cbn [replace_segments]. rewrite app_nil_r.
    reflexivity. }
  split; [exact Hp|]. split; [|split].
  - unfold Text. rewrite Hp. destruct (textParse E false body); reflexivity.
  - intros HE Hb. destruct (HE false body Hb) as (t & Hparse & Hexec).
    unfold Text. rewrite Hp, Hparse. unfold replaceVariables. rewrite Hexec. reflexivity.
  - intros err Hparse. unfold Text. rewrite Hp, Hparse. reflexivity.
Qed.

Lemma C9_witness :
  let body := lit "Dear customer, 100% of {braces} and %} stay as they are." in
  find escapeGo body = None
  /\ find tagsToGo body = None
  /\ Contains body (lit "{{") = false
  /\ option_map fst (Text fieldEngine tt body [(lit "Test", TestKeys None)] None (newWorld ∅))
     = Some (body, None).
Proof.
  cbv zeta.
  assert (He : find escapeGo (lit "Dear customer, 100% of {braces} and %} stay as they are.") = None)
    by (vm_compute; reflexivity).
  assert (Ht : find tagsToGo (lit "Dear customer, 100% of {braces} and %} stay as they are.") = None)
    by (vm_compute; reflexivity).
  assert (Hb : Contains (lit "Dear customer, 100% of {braces} and %} stay as they are.")
                 (lit "{{") = false) by (vm_compute; reflexivity).
  split; [exact He|]. split; [exact Ht|]. split; [exact Hb|].
  destruct (C9_plain_text_identity fieldEngine tt _ [(lit "Test", TestKeys None)] None
              (newWorld ∅) He Ht) as (_ & _ & Hid & _).
  apply (Hid fieldEngine_prints_plain_text Hb).
Defined.

(** C9, as stated, fails: a text with a left delimiter that is never
    closed holds neither a tag nor a native directive, and reaches the
    engine as it is; the engine rejects it, and [Text] returns an error. *)
Lemma C9_counterexample_unclosed_action :
  find escapeGo (lit "Hello {{ world") = None
  /\ find tagsToGo (lit "Hello {{ world") = None
  /\ prepareTemplateTags (lit "Hello {{ world") = Some (lit "Hello {{ world", ∅)
  /\ match Text fieldEngine tt (lit "Hello {{ world") [] None (newWorld ∅) with
     | Some (out, Some _, _) => bytes_eqb out (lit "Hello {{ world")
     | _ => false
     end = true.
Proof. repeat split; vm_compute; reflexivity. Qed.
